(** * Qalam editor: the tab store, the preload bridge and the language-server
    client, embedded in Rocq.

  The first half of the file holds the embedding (one module per source
  unit), the second half the lemmas and the theorems about it.

  Conventions of the embedding:
  - a JavaScript string is a [string]; [===] on strings is [String.eqb];
  - [T | null] and optional values are [option T];
  - an array is a [list]; [findIndex] returns a [Z] because the source
    tests its result against [-1] and does arithmetic on it;
  - module-level mutable variables ([tabCounter], the client singleton)
    are fields of an explicit state that every operation threads. *)

From Stdlib Require Import String Ascii List ZArith NArith Bool Lia Arith.
From Stdlib Require Import DecimalString DecimalN.
From Stdlib.Strings Require Byte.
Import ListNotations.

Local Open Scope list_scope.
Local Open Scope string_scope.

(* ================================================================== *)
(** * Part I: the embedding                                            *)
(* ================================================================== *)

(** ** JavaScript helpers shared by the modules *)

Module JS.

(** [`${n}`] for a non-negative integer. *)
Definition decimal (n : N) : string :=
  NilEmpty.string_of_uint (N.to_uint n).

(** [s || null] on a string that may be absent: the empty string is falsy. *)
Definition or_null (s : option string) : option string :=
  match s with
  | Some "" => None
  | other => other
  end.

(** Truthiness of a [string | null]. *)
Definition truthy (s : option string) : bool :=
  match or_null s with Some _ => true | None => false end.

(** [a === b] on [string | null]. *)
Definition strict_eq (a b : option string) : bool :=
  match a, b with
  | Some x, Some y => String.eqb x y
  | None, None => true
  | _, _ => false
  end.

(** [arr.find(p)]. *)
Definition find {A} (p : A -> bool) (l : list A) : option A := List.find p l.

(** [arr.findIndex(p)]: the first index whose element satisfies [p],
    [-1] when there is none. *)
Fixpoint findIndex_from {A} (p : A -> bool) (l : list A) (i : Z) : Z :=
  match l with
  | [] => (-1)%Z
  | x :: r => if p x then i else findIndex_from p r (i + 1)%Z
  end.

Definition findIndex {A} (p : A -> bool) (l : list A) : Z :=
  findIndex_from p l 0%Z.

(** [arr[i]]: [undefined] outside [0 .. length-1]. *)
Definition at_index {A} (l : list A) (i : Z) : option A :=
  if (i <? 0)%Z then None else nth_error l (Z.to_nat i).

(** [arr.length] as a number. *)
Definition length {A} (l : list A) : Z := Z.of_nat (List.length l).

(** [arr.slice(0, e)] and [arr.slice(b)] for non-negative bounds, the
    only ones the store passes. *)
Definition slice_to {A} (l : list A) (e : Z) : list A := firstn (Z.to_nat e) l.
Definition slice_from {A} (l : list A) (b : Z) : list A := skipn (Z.to_nat b) l.

(** [s.split('/')]: never empty, [""] splits into [[""]]. *)
Fixpoint split_slash (s : string) : list string :=
  match s with
  | EmptyString => [""]
  | String c r =>
      if Ascii.eqb c "/"%char then "" :: split_slash r
      else match split_slash r with
           | [] => [String c ""]
           | p :: ps => String c p :: ps
           end
  end.

(** [s.includes(needle)]. *)
Definition includes (needle s : string) : bool :=
  match String.index 0 needle s with Some _ => true | None => false end.

End JS.

(** ** src/renderer/stores/useTabStore.ts *)

Module TabStore.

Record CursorPosition := { line : Z; col : Z }.

Record Tab := {
  id : string;
  filePath : option string;
  fileName : string;
  content : string;
  savedContent : string;
  isDirty : bool;
  cursorPosition : CursorPosition
}.

Record TabState := {
  tabs : list Tab;
  activeTabId : option string
}.

(** The zustand store together with the module-level [tabCounter]. *)
Record Store := {
  state : TabState;
  tabCounter : N
}.

Definition empty : Store :=
  {| state := {| tabs := []; activeTabId := None |}; tabCounter := 0 |}.

Definition newFileName : string := "ملف جديد".

(** [generateTabId]: pre-increments the counter; [now] is [Date.now()]. *)
Definition generateTabId (now : N) (counter : N) : string * N :=
  let counter' := (counter + 1)%N in
  ("tab-" ++ JS.decimal counter' ++ "-" ++ JS.decimal now, counter').

Definition getFileName (filePath : option string) : string :=
  match JS.or_null filePath with
  | None => newFileName
  | Some p =>
      match JS.or_null (Some (last (JS.split_slash p) "")) with
      | Some name => name
      | None => newFileName
      end
  end.

Definition has_id (tabId : string) (t : Tab) : bool := String.eqb (id t) tabId.

(** [createTab(filePath = null, content = '')]; returns the new id. *)
Definition createTab (filePath : option string) (content : string) (now : N)
    (w : Store) : string * Store :=
  let '(newId, counter') := generateTabId now (tabCounter w) in
  let newTab := {|
    id := newId;
    filePath := filePath;
    fileName := getFileName filePath;
    content := content;
    savedContent := content;
    isDirty := false;
    cursorPosition := {| line := 1; col := 1 |}
  |} in
  (newId,
   {| state := {| tabs := (tabs (state w) ++ [newTab])%list; activeTabId := Some newId |};
      tabCounter := counter' |}).

(** [closeTab]: [false] signals that the tab has unsaved changes. *)
Definition closeTab (tabId : string) (s : TabState) : bool * TabState :=
  match JS.find (has_id tabId) (tabs s) with
  | None => (true, s)
  | Some tab =>
      if isDirty tab then (false, s)
      else
        let tabIndex := JS.findIndex (has_id tabId) (tabs s) in
        let newTabs := filter (fun t => negb (has_id tabId t)) (tabs s) in
        let newActiveId :=
          if JS.strict_eq (activeTabId s) (Some tabId) then
            if (JS.length newTabs >? 0)%Z then
              let newIndex := Z.min tabIndex (JS.length newTabs - 1) in
              JS.or_null (option_map id (JS.at_index newTabs newIndex))
            else None
          else activeTabId s in
        (true, {| tabs := newTabs; activeTabId := newActiveId |})
  end.

Definition closeOtherTabs (tabId : string) (s : TabState) : TabState :=
  let remainingTabs := filter (fun t => has_id tabId t || isDirty t) (tabs s) in
  {| tabs := remainingTabs; activeTabId := Some tabId |}.

Definition closeTabsToRight (tabId : string) (s : TabState) : TabState :=
  let tabIndex := JS.findIndex (has_id tabId) (tabs s) in
  if (tabIndex =? -1)%Z then s
  else
    let tabsToKeep := JS.slice_to (tabs s) (tabIndex + 1) in
    let tabsToRight := JS.slice_from (tabs s) (tabIndex + 1) in
    let unsavedToRight := filter isDirty tabsToRight in
    let newTabs := (tabsToKeep ++ unsavedToRight)%list in
    let newActiveId :=
      if JS.truthy (activeTabId s) &&
         negb (existsb (fun t => JS.strict_eq (Some (id t)) (activeTabId s)) newTabs)
      then Some tabId
      else activeTabId s in
    {| tabs := newTabs; activeTabId := newActiveId |}.

Definition closeAllTabs (s : TabState) : TabState :=
  let unsavedTabs := filter isDirty (tabs s) in
  if (JS.length unsavedTabs >? 0)%Z then
    {| tabs := unsavedTabs;
       activeTabId := JS.or_null (option_map id (JS.at_index unsavedTabs 0)) |}
  else {| tabs := []; activeTabId := None |}.

Definition setActiveTab (tabId : string) (s : TabState) : TabState :=
  {| tabs := tabs s; activeTabId := Some tabId |}.

Definition updateTabContent (tabId : string) (newContent : string)
    (s : TabState) : TabState :=
  {| tabs :=
       map (fun tab =>
              if has_id tabId tab then
                {| id := id tab;
                   filePath := filePath tab;
                   fileName := fileName tab;
                   content := newContent;
                   savedContent := savedContent tab;
                   isDirty := negb (String.eqb newContent (savedContent tab));
                   cursorPosition := cursorPosition tab |}
              else tab)
           (tabs s);
     activeTabId := activeTabId s |}.

Definition updateTabCursor (tabId : string) (l c : Z) (s : TabState) : TabState :=
  {| tabs :=
       map (fun tab =>
              if has_id tabId tab then
                {| id := id tab;
                   filePath := filePath tab;
                   fileName := fileName tab;
                   content := content tab;
                   savedContent := savedContent tab;
                   isDirty := isDirty tab;
                   cursorPosition := {| line := l; col := c |} |}
              else tab)
           (tabs s);
     activeTabId := activeTabId s |}.

(** [filePath ?? tab.filePath]. *)
Definition nullish (a b : option string) : option string :=
  match a with Some _ => a | None => b end.

Definition markTabSaved (tabId : string) (newPath : option string)
    (s : TabState) : TabState :=
  {| tabs :=
       map (fun tab =>
              if has_id tabId tab then
                {| id := id tab;
                   filePath := nullish newPath (filePath tab);
                   fileName := getFileName (nullish newPath (filePath tab));
                   content := content tab;
                   savedContent := content tab;
                   isDirty := false;
                   cursorPosition := cursorPosition tab |}
              else tab)
           (tabs s);
     activeTabId := activeTabId s |}.

Definition getActiveTab (s : TabState) : option Tab :=
  JS.find (fun t => JS.strict_eq (Some (id t)) (activeTabId s)) (tabs s).

Definition getTab (tabId : string) (s : TabState) : option Tab :=
  JS.find (has_id tabId) (tabs s).

Definition hasUnsavedTabs (s : TabState) : bool := existsb isDirty (tabs s).

(** [nextTab] and [prevTab] read [state.tabs[i].id]; when the index is out
    of range the read throws a TypeError before [set] is called, which is
    [None] here. *)
Definition nextTab (s : TabState) : option TabState :=
  if (JS.length (tabs s) <=? 1)%Z then Some s
  else
    let currentIndex :=
      JS.findIndex (fun t => JS.strict_eq (Some (id t)) (activeTabId s)) (tabs s) in
    let nextIndex := Z.rem (currentIndex + 1) (JS.length (tabs s)) in
    match JS.at_index (tabs s) nextIndex with
    | Some t => Some {| tabs := tabs s; activeTabId := Some (id t) |}
    | None => None
    end.

Definition prevTab (s : TabState) : option TabState :=
  if (JS.length (tabs s) <=? 1)%Z then Some s
  else
    let currentIndex :=
      JS.findIndex (fun t => JS.strict_eq (Some (id t)) (activeTabId s)) (tabs s) in
    let prevIndex :=
      if (currentIndex =? 0)%Z then (JS.length (tabs s) - 1)%Z
      else (currentIndex - 1)%Z in
    match JS.at_index (tabs s) prevIndex with
    | Some t => Some {| tabs := tabs s; activeTabId := Some (id t) |}
    | None => None
    end.

(** The actions of the store as one type. *)
Inductive Action :=
| CreateTab (filePath : option string) (content : string) (now : N)
| CloseTab (tabId : string)
| CloseOtherTabs (tabId : string)
| CloseTabsToRight (tabId : string)
| CloseAllTabs
| SetActiveTab (tabId : string)
| UpdateTabContent (tabId : string) (content : string)
| UpdateTabCursor (tabId : string) (line col : Z)
| MarkTabSaved (tabId : string) (filePath : option string)
| NextTab
| PrevTab.

Definition with_state (w : Store) (s : TabState) : Store :=
  {| state := s; tabCounter := tabCounter w |}.

(** One action on the store; an action that throws leaves it as it was. *)
Definition perform (a : Action) (w : Store) : Store :=
  match a with
  | CreateTab p c now => snd (createTab p c now w)
  | CloseTab i => with_state w (snd (closeTab i (state w)))
  | CloseOtherTabs i => with_state w (closeOtherTabs i (state w))
  | CloseTabsToRight i => with_state w (closeTabsToRight i (state w))
  | CloseAllTabs => with_state w (closeAllTabs (state w))
  | SetActiveTab i => with_state w (setActiveTab i (state w))
  | UpdateTabContent i c => with_state w (updateTabContent i c (state w))
  | UpdateTabCursor i l c => with_state w (updateTabCursor i l c (state w))
  | MarkTabSaved i p => with_state w (markTabSaved i p (state w))
  | NextTab => match nextTab (state w) with Some s => with_state w s | None => w end
  | PrevTab => match prevTab (state w) with Some s => with_state w s | None => w end
  end.

Definition perform_all (acts : list Action) (w : Store) : Store :=
  fold_left (fun w a => perform a w) acts w.

(** The bookkeeping invariant of the dirty flag. *)
Definition dirty_matches (t : Tab) : Prop :=
  isDirty t = negb (String.eqb (content t) (savedContent t)).

Definition dirty_consistent (s : TabState) : Prop :=
  Forall dirty_matches (tabs s).

(** A store with a saved tab and a tab with unsaved changes. *)
Definition sample_clean : Tab := {|
  id := "tab-1-1700000000000";
  filePath := Some "/proj/main.trq";
  fileName := "main.trq";
  content := "a";
  savedContent := "a";
  isDirty := false;
  cursorPosition := {| line := 1; col := 1 |}
|}.

Definition sample_dirty : Tab := {|
  id := "tab-2-1700000000001";
  filePath := None;
  fileName := newFileName;
  content := "b";
  savedContent := "";
  isDirty := true;
  cursorPosition := {| line := 1; col := 2 |}
|}.

Definition sample_state : TabState :=
  {| tabs := [sample_clean; sample_dirty]; activeTabId := Some (id sample_dirty) |}.

End TabStore.

(** ** The language-server client ([./lsp-client])

    The main process imports [getLSPClient] and [destroyLSPClient] from
    [./lsp-client]; that module is not among the sources. Its definitions
    below follow the specification: the lifecycle state machine, the table
    of pending requests and the subscriber registry. What the environment
    decides (whether the server binary can be spawned, what the server
    answers, when the child exits) enters as an input. *)

Module Lsp.

Unset Elimination Schemes.

(** Modelled from the spec: the payloads, "opaque JSON values passed through
    unmodified". *)
Inductive Json :=
| JNull
| JBool (b : bool)
| JNumber (z : Z)
| JString (s : string)
| JArray (items : list Json)
| JObject (fields : list (string * Json)).

Set Elimination Schemes.

(** Modelled from the spec: [ClientState], "enum {Stopped, Starting, Running,
    Stopping, Crashed}", and the error taxonomy of its section 7. *)
Inductive ClientState := Stopped | Starting | Running | Stopping | Crashed.

Inductive LspError :=
| SpawnError (detail : string)
| ProtocolError
| TimeoutError
| ServerError (code : Z) (message : string)
| AlreadyRunningError
| NotRunningError
| ConnectionClosedError
| CancelledError.

(** Modelled from the spec: the [message] of the error a failed call throws.
    The sources do not show the texts, and the specification fixes one of
    them only: a start whose server binary is absent reports an error that
    "contains "Failed to start"". The texts are left open: the development
    holds for every choice of them that reads so for a spawn failure. *)
Class ErrorTexts := {
  message : LspError -> string;
  message_spawn : forall detail : string,
    JS.includes "Failed to start" (message (SpawnError detail)) = true
}.

(** Texts a client could use; the examples are run with them. *)
Definition sample_message (e : LspError) : string :=
  match e with
  | SpawnError detail => "Failed to start LSP server: " ++ detail
  | ProtocolError => "Protocol error"
  | TimeoutError => "Request timed out"
  | ServerError _ m => m
  | AlreadyRunningError => "LSP server already running"
  | NotRunningError => "LSP server not running"
  | ConnectionClosedError => "Connection closed"
  | CancelledError => "Request cancelled"
  end.

Definition sample_texts : ErrorTexts := {|
  message := sample_message;
  message_spawn := fun _ => eq_refl
|}.

Inductive EventKind := Diagnostics | Log | ShowMessage | Error | Close.

Definition EventKind_eqb (a b : EventKind) : bool :=
  match a, b with
  | Diagnostics, Diagnostics | Log, Log | ShowMessage, ShowMessage
  | Error, Error | Close, Close => true
  | _, _ => false
  end.

(** Modelled from the spec: the event kinds of the subscriber registry and
    what the client emits to the subscribers of each. *)
Inductive ClientEvent :=
| EvDiagnostics (params : Json)
| EvLog (params : Json)
| EvShowMessage (params : Json)
| EvError (e : LspError)
| EvClose (code : Z).

Definition kind_of (ev : ClientEvent) : EventKind :=
  match ev with
  | EvDiagnostics _ => Diagnostics
  | EvLog _ => Log
  | EvShowMessage _ => ShowMessage
  | EvError _ => Error
  | EvClose _ => Close
  end.

(** Modelled from the spec: [Message], "tagged union of {Request, Response,
    Notification}". *)
Inductive Message :=
| Request (id : nat) (method : string) (params : Json)
| Response (id : nat) (outcome : Json + Z * string)
| Notification (method : string) (params : Json).

(** Modelled from the spec: [PendingRequest], "{id, method, issuedAt,
    completion-handle}"; the handle is given by who awaits the request, the
    handshake of [start] or a caller of [request]; no clock is modelled, so
    [issuedAt] is left out. *)
Inductive Awaiter := Handshake | Caller.

Record PendingRequest := {
  pr_id : nat;
  pr_method : string;
  pr_awaiter : Awaiter
}.

(** Modelled from the spec: the one client of the host, with its state, its
    process, the stored capabilities, the table of pending requests, the
    next correlation id and the subscriber registry. *)
Record Client := {
  state : ClientState;
  process : option nat;               (* handle of the child process *)
  capabilities : option Json;
  pending : list PendingRequest;
  nextId : nat;
  subscribers : list (EventKind * nat) (* kind and handler, in registration order *)
}.

Definition new_client : Client := {|
  state := Stopped;
  process := None;
  capabilities := None;
  pending := [];
  nextId := 1;
  subscribers := []
|}.

(** A child process the host has spawned. *)
Inductive Child := Alive | Exited (code : Z) | Killed.

Definition is_alive (c : Child) : bool :=
  match c with Alive => true | _ => false end.

(** The host process as the client sees it: the module-level singleton, the
    children spawned so far (a handle is an index in the list) and the
    frames written to their standard input. *)
Record World := {
  client : option Client;
  children : list Child;
  wire : list (nat * Message)
}.

Definition initial : World := {| client := None; children := []; wire := [] |}.

Definition alive_count (l : list Child) : nat := List.length (filter is_alive l).

(** The number of live children of the host. *)
Definition alive (w : World) : nat := alive_count (children w).

Definition put (c : Client) (w : World) : World :=
  {| client := Some c; children := children w; wire := wire w |}.

(** The value [start] resolves with. *)
Record InitializeResult := { result_capabilities : Json }.

(** What a call or an inbound message settles or triggers. *)
Inductive Signal :=
| StartSettled (r : InitializeResult + LspError)
| RequestSettled (id : nat) (r : Json + LspError)
| Dispatched (handler : nat) (ev : ClientEvent).

Inductive SpawnOutcome := SpawnOk | SpawnFails (detail : string).

(** *** Helpers *)

Fixpoint set_child (pid : nat) (s : Child) (l : list Child) : list Child :=
  match l, pid with
  | [], _ => []
  | _ :: r, O => s :: r
  | c :: r, S p => c :: set_child p s r
  end.

Definition end_process (p : option nat) (s : Child) (l : list Child) : list Child :=
  match p with Some pid => set_child pid s l | None => l end.

Definition write (p : option nat) (frames : list Message) (w : list (nat * Message))
  : list (nat * Message) :=
  match p with
  | Some pid => (w ++ map (fun m => (pid, m)) frames)%list
  | None => w
  end.

Definition find_pending (id : nat) (l : list PendingRequest) : option PendingRequest :=
  List.find (fun pr => Nat.eqb (pr_id pr) id) l.

Definition remove_pending (id : nat) (l : list PendingRequest) : list PendingRequest :=
  filter (fun pr => negb (Nat.eqb (pr_id pr) id)) l.

Definition reject (e : LspError) (pr : PendingRequest) : Signal :=
  match pr_awaiter pr with
  | Handshake => StartSettled (inr e)
  | Caller => RequestSettled (pr_id pr) (inr e)
  end.

(** Modelled from the spec: [RequestDispatcher.closeAll], "every currently
    pending request is rejected exactly once with ConnectionClosedError; the
    pending set becomes empty" (the callers below empty the table). *)
Definition closeAll (l : list PendingRequest) : list Signal :=
  map (reject ConnectionClosedError) l.

(** Modelled from the spec: [NotificationRouter.dispatch], "invokes every
    handler currently registered for that kind, in registration order". *)
Definition dispatch (c : Client) (ev : ClientEvent) : list Signal :=
  map (fun s => Dispatched (snd s) ev)
      (filter (fun s => EventKind_eqb (fst s) (kind_of ev)) (subscribers c)).

(** Modelled from the spec: the end of a session: no process, the
    capabilities "discarded on stop", nothing pending. *)
Definition ended (st : ClientState) (c : Client) : Client := {|
  state := st;
  process := None;
  capabilities := None;
  pending := [];
  nextId := nextId c;
  subscribers := subscribers c
|}.

Definition initialize_params (workspacePath : string) : Json :=
  JObject [("rootPath", JString workspacePath)].

(** *** The singleton *)

(** Modelled from the spec: [getLSPClient], absent from the sources, returns
    the singleton and "constructs a fresh, unstarted instance" when there is
    none. *)
Definition getLSPClient (w : World) : Client * World :=
  match client w with
  | Some c => (c, w)
  | None => (new_client, put new_client w)
  end.

(** Modelled from the spec: [destroyLSPClient], absent from the sources,
    "skips the cooperative handshake, force-terminates if a process exists,
    rejects all pending requests, and drops the singleton". *)
Definition destroyLSPClient (w : World) : list Signal * World :=
  match client w with
  | None => ([], w)
  | Some c =>
      (closeAll (pending c),
       {| client := None;
          children := end_process (process c) Killed (children w);
          wire := wire w |})
  end.

(** *** The methods of the client *)

(** Modelled from the spec: [on(kind, handler)], the registration half of
    [NotificationRouter.subscribe]. *)
Definition on (kind : EventKind) (handler : nat) (w : World) : World :=
  match client w with
  | None => w
  | Some c =>
      put {| state := state c;
             process := process c;
             capabilities := capabilities c;
             pending := pending c;
             nextId := nextId c;
             subscribers := (subscribers c ++ [(kind, handler)])%list |} w
  end.

(** Modelled from the spec: [isRunning], "true iff state is exactly
    Running". *)
Definition isRunning (c : Client) : bool :=
  match state c with Running => true | _ => false end.

(** Modelled from the spec: [start(workspacePath)], absent from the sources:
    "fails immediately with AlreadyRunningError if state is not Stopped or
    Crashed. Otherwise spawns the process, performs the handshake (send an
    initialize-style request carrying the workspace root ...". The call
    settles at once when it fails before the handshake; otherwise it stays
    pending on the handshake request, and the answer to that request
    ([receive_response], [timeout], [process_exit]) settles it. *)
Definition start (workspacePath : string) (spawn : SpawnOutcome) (w : World)
  : list Signal * World :=
  match client w with
  | None => ([], w)
  | Some c =>
      match state c with
      | Stopped | Crashed =>
          match spawn with
          | SpawnFails detail =>
              ([StartSettled (inr (SpawnError detail))], put (ended Stopped c) w)
          | SpawnOk =>
              let pid := List.length (children w) in
              let rid := nextId c in
              ([],
               {| client := Some {|
                    state := Starting;
                    process := Some pid;
                    capabilities := None;
                    pending := (pending c ++
                      [{| pr_id := rid; pr_method := "initialize";
                          pr_awaiter := Handshake |}])%list;
                    nextId := S rid;
                    subscribers := subscribers c |};
                  children := (children w ++ [Alive])%list;
                  wire := write (Some pid)
                            [Request rid "initialize" (initialize_params workspacePath)]
                            (wire w) |})
          end
      | Starting | Running | Stopping =>
          ([StartSettled (inr AlreadyRunningError)], w)
      end
  end.

Definition with_pending (l : list PendingRequest) (c : Client) : Client := {|
  state := state c;
  process := process c;
  capabilities := capabilities c;
  pending := l;
  nextId := nextId c;
  subscribers := subscribers c
|}.

(** Modelled from the spec: the failure of the handshake of [start]: "on any
    failure, tears down the partially-started process and reports the error
    without entering Running". [c] is the client with the handshake request
    already taken off the table. *)
Definition fail_start (e : LspError) (c : Client) (w : World) : list Signal * World :=
  (StartSettled (inr e) :: closeAll (pending c),
   {| client := Some (ended Stopped c);
      children := end_process (process c) Killed (children w);
      wire := wire w |}).

(** Modelled from the spec: the success of the handshake of [start]: "await
    its result as Capabilities, then send a confirmation notification", and
    "on success stores Capabilities and sets Running". *)
Definition finish_start (caps : Json) (c : Client) (w : World) : list Signal * World :=
  ([StartSettled (inl {| result_capabilities := caps |})],
   {| client := Some {|
        state := Running;
        process := process c;
        capabilities := Some caps;
        pending := pending c;
        nextId := nextId c;
        subscribers := subscribers c |};
      children := children w;
      wire := write (process c) [Notification "initialized" (JObject [])] (wire w) |}).

(** Modelled from the spec: an inbound [Response], absent from the sources.
    It is "matched purely by id"; one that matches no pending request "is
    discarded as a protocol anomaly". *)
Definition receive_response (id : nat) (outcome : Json + Z * string) (w : World)
  : list Signal * World :=
  match client w with
  | None => ([], w)
  | Some c =>
      match find_pending id (pending c) with
      | None => ([], w)
      | Some pr =>
          let c' := with_pending (remove_pending id (pending c)) c in
          match pr_awaiter pr, outcome with
          | Caller, inl r => ([RequestSettled id (inl r)], put c' w)
          | Caller, inr (code, m) =>
              ([RequestSettled id (inr (ServerError code m))], put c' w)
          | Handshake, inl caps => finish_start caps c' w
          | Handshake, inr (code, m) => fail_start (ServerError code m) c' w
          end
      end
  end.

(** Modelled from the spec: the timeout of a pending request elapses:
    "rejects with TimeoutError, pending entry removed". *)
Definition timeout (id : nat) (w : World) : list Signal * World :=
  match client w with
  | None => ([], w)
  | Some c =>
      match find_pending id (pending c) with
      | None => ([], w)
      | Some pr =>
          let c' := with_pending (remove_pending id (pending c)) c in
          match pr_awaiter pr with
          | Caller => ([RequestSettled id (inr TimeoutError)], put c' w)
          | Handshake => fail_start TimeoutError c' w
          end
      end
  end.

(** Modelled from the spec: the child exits without having been asked to:
    "rejects every pending request with ConnectionClosedError, fires a close
    event with the exit code, and leaves state in Crashed"; a client that
    had not reached Running goes back to Stopped. *)
Definition process_exit (code : Z) (w : World) : list Signal * World :=
  match client w with
  | None => ([], w)
  | Some c =>
      match process c with
      | None => ([], w)
      | Some pid =>
          let st := match state c with Running => Crashed | _ => Stopped end in
          ((closeAll (pending c) ++ dispatch c (EvClose code))%list,
           {| client := Some (ended st c);
              children := set_child pid (Exited code) (children w);
              wire := wire w |})
      end
  end.

(** Modelled from the spec: a server-pushed notification or a decoding
    failure reaches the router: it is dispatched to the subscribers of its
    kind and changes nothing else. *)
Definition emit (ev : ClientEvent) (w : World) : list Signal * World :=
  match client w with
  | None => ([], w)
  | Some c =>
      match process c with
      | None => ([], w)
      | Some _ => (dispatch c ev, w)
      end
  end.

(** Modelled from the spec: [request(method, params)], absent from the
    sources: "allocates the next id, records a PendingRequest, encodes and
    writes the Request"; called while not Running it fails fast with
    [NotRunningError]. The result is the error thrown at once, or the id
    under which the call is pending. *)
Definition request (method : string) (params : Json) (w : World)
  : (LspError + nat) * World :=
  match client w with
  | None => (inl NotRunningError, w)
  | Some c =>
      if isRunning c then
        let rid := nextId c in
        (inr rid,
         {| client := Some {|
              state := state c;
              process := process c;
              capabilities := capabilities c;
              pending := (pending c ++
                [{| pr_id := rid; pr_method := method; pr_awaiter := Caller |}])%list;
              nextId := S rid;
              subscribers := subscribers c |};
            children := children w;
            wire := write (process c) [Request rid method params] (wire w) |})
      else (inl NotRunningError, w)
  end.

(** Modelled from the spec: [notify(method, params)]: "fire-and-forget,
    encoded and written the same way but never registers a pending entry".
    The result is the error thrown, if any. *)
Definition notify (method : string) (params : Json) (w : World)
  : option LspError * World :=
  match client w with
  | None => (Some NotRunningError, w)
  | Some c =>
      if isRunning c then
        (None,
         {| client := client w;
            children := children w;
            wire := write (process c) [Notification method params] (wire w) |})
      else (Some NotRunningError, w)
  end.


End Lsp.
(** ** The main process: the [lsp:*] handlers of [ipcMain] *)

Module Main.
Import Lsp.

Section Handlers.
Context {texts : ErrorTexts}.

(** The object a handler resolves with, [{success, capabilities?, result?,
    error?}]; a key the handler leaves out is [None]. *)
Record IpcResult := {
  success : bool;
  capabilities : option Json;
  result : option Json;
  error : option string
}.

Definition succeeded : IpcResult :=
  {| success := true; capabilities := None; result := None; error := None |}.

Definition failed (m : string) : IpcResult :=
  {| success := false; capabilities := None; result := None; error := Some m |}.

Inductive Channel := LspStart | LspStop | LspRequest | LspNotify.

(** What the renderer observes. *)
Inductive Effect :=
| Replied (ch : Channel) (r : IpcResult)   (* an [invoke] resolves *)
| RepliedRunning (running : bool)          (* [lsp:isRunning] resolves *)
| Sent (sender : nat) (channel : string) (payload : Json).
                                           (* [event.sender.send] *)

(** The kinds [lsp:start] forwards to the renderer, in the order of their
    registration, and the channel of each. *)
Definition forwarded : list EventKind := [Diagnostics; Log; ShowMessage; Error; Close].

Definition channel (k : EventKind) : string :=
  match k with
  | Diagnostics => "lsp:diagnostics"
  | Log => "lsp:log"
  | ShowMessage => "lsp:showMessage"
  | Error => "lsp:error"
  | Close => "lsp:close"
  end.

Definition forwarded_payload (ev : ClientEvent) : Json :=
  match ev with
  | EvDiagnostics params | EvLog params | EvShowMessage params => params
  | EvError err => JObject [("message", JString (message err))]
  | EvClose code => JObject [("code", JNumber code)]
  end.

(** The five [lspClient.on(kind, ...)] of [lsp:start]; the closures capture
    [event.sender], which identifies them. *)
Definition register_forwarding (sender : nat) (w : World) : World :=
  fold_left (fun w k => on k sender w) forwarded w.

(** A settled promise or an invoked closure, as the renderer sees it:
    [await] returns or the [catch] clause runs. *)
Definition effect_of (s : Signal) : Effect :=
  match s with
  | StartSettled (inl r) =>
      Replied LspStart {| success := true;
                          capabilities := Some (result_capabilities r);
                          result := None; error := None |}
  | StartSettled (inr e) => Replied LspStart (failed (message e))
  | RequestSettled _ (inl r) =>
      Replied LspRequest {| success := true; capabilities := None;
                            result := Some r; error := None |}
  | RequestSettled _ (inr e) => Replied LspRequest (failed (message e))
  | Dispatched sender ev => Sent sender (channel (kind_of ev)) (forwarded_payload ev)
  end.

(** [ipcMain.handle('lsp:start')]. *)
Definition lsp_start (sender : nat) (workspacePath : string) (spawn : SpawnOutcome)
    (w : World) : list Effect * World :=
  let w1 := snd (getLSPClient w) in
  let w2 := register_forwarding sender w1 in
  let (signals, w3) := start workspacePath spawn w2 in
  (map effect_of signals, w3).

(** [ipcMain.handle('lsp:stop')]. *)
Definition lsp_stop (w : World) : list Effect * World :=
  let (signals, w1) := destroyLSPClient w in
  ((map effect_of signals ++ [Replied LspStop succeeded])%list, w1).

(** [ipcMain.handle('lsp:request')]. *)
Definition lsp_request (method : string) (params : Json) (w : World)
  : list Effect * World :=
  let (c, w1) := getLSPClient w in
  if negb (isRunning c) then
    ([Replied LspRequest (failed "LSP server not running")], w1)
  else
    match request method params w1 with
    | (inl e, w2) => ([Replied LspRequest (failed (message e))], w2)
    | (inr _, w2) => ([], w2)
    end.

(** [ipcMain.handle('lsp:notify')]. *)
Definition lsp_notify (method : string) (params : Json) (w : World)
  : list Effect * World :=
  let (c, w1) := getLSPClient w in
  if negb (isRunning c) then
    ([Replied LspNotify (failed "LSP server not running")], w1)
  else
    match notify method params w1 with
    | (Some e, w2) => ([Replied LspNotify (failed (message e))], w2)
    | (None, w2) => ([Replied LspNotify succeeded], w2)
    end.

(** [ipcMain.handle('lsp:isRunning')]. *)
Definition lsp_isRunning (w : World) : list Effect * World :=
  let (c, w1) := getLSPClient w in
  ([RepliedRunning (isRunning c)], w1).

(** [app.on('window-all-closed')], as far as the client is concerned. *)
Definition window_all_closed (w : World) : list Effect * World :=
  let (signals, w1) := destroyLSPClient w in
  (map effect_of signals, w1).

(** What reaches the client from the server's output stream. *)
Inductive Inbound :=
| InDiagnostics (params : Json)
| InLog (params : Json)
| InShowMessage (params : Json)
| InMalformed.

Definition event_of (i : Inbound) : ClientEvent :=
  match i with
  | InDiagnostics p => EvDiagnostics p
  | InLog p => EvLog p
  | InShowMessage p => EvShowMessage p
  | InMalformed => EvError ProtocolError
  end.

(** Everything that can happen to the main process, as far as the client
    is concerned: the calls of the renderer and what the child does. *)
Inductive Event :=
| IpcStart (sender : nat) (workspacePath : string) (spawn : SpawnOutcome)
| IpcStop
| IpcRequest (method : string) (params : Json)
| IpcNotify (method : string) (params : Json)
| IpcIsRunning
| WindowAllClosed
| ServerResponse (id : nat) (outcome : Json + Z * string)
| ServerPush (i : Inbound)
| RequestTimeout (id : nat)
| ProcessExit (code : Z).

Definition lift (r : list Signal * World) : list Effect * World :=
  (map effect_of (fst r), snd r).

Definition handle (ev : Event) (w : World) : list Effect * World :=
  match ev with
  | IpcStart sender path spawn => lsp_start sender path spawn w
  | IpcStop => lsp_stop w
  | IpcRequest m p => lsp_request m p w
  | IpcNotify m p => lsp_notify m p w
  | IpcIsRunning => lsp_isRunning w
  | WindowAllClosed => window_all_closed w
  | ServerResponse id outcome => lift (receive_response id outcome w)
  | ServerPush i => lift (emit (event_of i) w)
  | RequestTimeout id => lift (timeout id w)
  | ProcessExit code => lift (process_exit code w)
  end.

Fixpoint run (evs : list Event) (w : World) : World :=
  match evs with
  | [] => w
  | ev :: rest => run rest (snd (handle ev w))
  end.

(** The state the host would observe: the one of the client [getLSPClient]
    returns. *)
Definition observed_state (w : World) : ClientState := state (fst (getLSPClient w)).

(** The states in which [start] refuses to run. *)
Definition busy (st : ClientState) : bool :=
  match st with
  | Starting | Running | Stopping => true
  | Stopped | Crashed => false
  end.

(** The table of pending requests of the host, empty without a client. *)
Definition pending_of (w : World) : list PendingRequest :=
  match client w with Some c => pending c | None => [] end.



(** Neither a stop nor a crash. *)
Definition quiet (ev : Event) : bool :=
  match ev with
  | IpcStop | WindowAllClosed | ProcessExit _ => false
  | _ => true
  end.

(** The invariant of the session: the process the client holds is the one
    live child of the host; outside a session the client holds no process
    and nothing is pending; a starting or running client holds a process;
    while starting, the handshake request is the one pending request; while
    running, every pending request belongs to a caller; the client is never
    left in Stopping; ids are handed out in increasing order. *)
Definition handshake_request (rid : nat) : PendingRequest :=
  {| pr_id := rid; pr_method := "initialize"; pr_awaiter := Handshake |}.

Definition client_ok (c : Client) (w : World) : Prop :=
  match process c with
  | Some pid => nth_error (children w) pid = Some Alive /\ alive w = 1
  | None => alive w = 0
  end /\
  (state c = Stopped \/ state c = Crashed -> process c = None /\ pending c = []) /\
  (state c = Starting ->
     process c <> None /\ exists rid, pending c = [handshake_request rid]) /\
  (state c = Running ->
     process c <> None /\ Forall (fun pr => pr_awaiter pr = Caller) (pending c)) /\
  state c <> Stopping /\
  Forall (fun pr => pr_id pr < nextId c) (pending c).

Definition well_formed (w : World) : Prop :=
  match client w with
  | Some c => client_ok c w
  | None => alive w = 0
  end.

(** A running session with one request pending. *)
Definition sample_running : World :=
  run [IpcStart 7 "/proj" SpawnOk;
       ServerResponse 1 (inl (JObject [("hoverProvider", JBool true)]));
       IpcRequest "textDocument/hover" JNull]
      initial.

End Handlers.

End Main.

(** ** The preload bridge: [window.qalam.lsp] *)

Module Preload.
Import Lsp.

(** A listener of [ipcRenderer]: a function object, known by its identity.
    The subscription members wrap the callback they are given in a closure
    created by the call. *)
Record Listener := { closure : nat; callback : nat }.

Definition same_listener (a b : Listener) : bool := Nat.eqb (closure a) (closure b).

(** [ipcRenderer] as an event emitter: the listeners with their channel, in
    registration order, and the number of closures created so far. *)
Record IpcRenderer := {
  listeners : list (string * Listener);
  allocated : nat
}.

Definition registered_as (channel : string) (l : Listener) (e : string * Listener) : bool :=
  String.eqb (fst e) channel && same_listener (snd e) l.

Fixpoint remove_first {A} (p : A -> bool) (l : list A) : list A :=
  match l with
  | [] => []
  | x :: r => if p x then r else x :: remove_first p r
  end.

(** [ipcRenderer.on(channel, listener)]. *)
Definition ipc_on (channel : string) (l : Listener) (r : IpcRenderer) : IpcRenderer :=
  {| listeners := (listeners r ++ [(channel, l)])%list; allocated := allocated r |}.

(** [ipcRenderer.removeListener(channel, listener)]: the emitter scans the
    listeners of the channel from the last to the first and removes the
    first it finds that is the given function. *)
Definition removeListener (channel : string) (l : Listener) (r : IpcRenderer)
  : IpcRenderer :=
  {| listeners := rev (remove_first (registered_as channel l) (rev (listeners r)));
     allocated := allocated r |}.

(** [ipcRenderer.removeAllListeners(channel)]. *)
Definition removeAllListeners (channel : string) (r : IpcRenderer) : IpcRenderer :=
  {| listeners := filter (fun e => negb (String.eqb (fst e) channel)) (listeners r);
     allocated := allocated r |}.

(** The members of [window.qalam.lsp] that subscribe to an event of the
    client, and the channel each listens on. *)
Inductive Member := onDiagnostics | onLog | onError | onClose.

Definition members : list Member := [onDiagnostics; onLog; onError; onClose].

Definition member_channel (m : Member) : string :=
  match m with
  | onDiagnostics => "lsp:diagnostics"
  | onLog => "lsp:log"
  | onError => "lsp:error"
  | onClose => "lsp:close"
  end.

(** The function a member returns: [() => ipcRenderer.removeListener(channel,
    handler)], given by what it captured. *)
Definition Disposer : Type := string * Listener.

(** [onDiagnostics(callback)] and its siblings. *)
Definition subscribe (m : Member) (cb : nat) (r : IpcRenderer) : Disposer * IpcRenderer :=
  let handler := {| closure := allocated r; callback := cb |} in
  ((member_channel m, handler),
   ipc_on (member_channel m) handler
          {| listeners := listeners r; allocated := S (allocated r) |}).

Definition dispose (d : Disposer) (r : IpcRenderer) : IpcRenderer :=
  removeListener (fst d) (snd d) r.

(** [removeListeners()]. *)
Definition removeListeners (r : IpcRenderer) : IpcRenderer :=
  removeAllListeners "lsp:close"
    (removeAllListeners "lsp:error"
      (removeAllListeners "lsp:log"
        (removeAllListeners "lsp:diagnostics" r))).

(** The member through which the renderer receives the events of a kind:
    the one that listens on the channel the main process forwards the kind
    on. *)
Definition subscription_for (k : EventKind) : option Member :=
  List.find (fun m => String.eqb (member_channel m) (Main.channel k)) members.

(** The callbacks an event sent on a channel reaches, in order. *)
Definition receivers (channel : string) (r : IpcRenderer) : list nat :=
  map (fun e => callback (snd e))
      (filter (fun e => String.eqb (fst e) channel) (listeners r)).

(** The identity of the closure of an entry. *)
Definition key (e : string * Listener) : nat := closure (snd e).

(** Closures are created once: the listeners carry distinct identities,
    all of them already allocated. *)
Definition distinct_closures (r : IpcRenderer) : Prop :=
  NoDup (map key (listeners r)) /\
  Forall (fun e => closure (snd e) < allocated r) (listeners r).

End Preload.
(** ** The wire framing (FramingCodec)

    The client module [./lsp-client] that holds the codec is not among the
    sources; the definitions below follow the specification. *)

Module Framing.

Definition bytes := list Byte.byte.

Definition CR : Byte.byte := Byte.x0d.
Definition LF : Byte.byte := Byte.x0a.

(** The blank-line separator that ends the header block. *)
Definition separator : bytes := [CR; LF; CR; LF].

(** The header field that announces the byte length of the body. *)
Definition length_field : bytes := list_byte_of_string "Content-Length: ".

Definition decimal_bytes (n : N) : bytes := list_byte_of_string (JS.decimal n).

(** A decimal number, at least one digit and nothing but digits. *)
Definition parse_decimal (bs : bytes) : option N :=
  match bs with
  | [] => None
  | _ => option_map N.of_uint (NilEmpty.uint_of_string (string_of_list_byte bs))
  end.

Fixpoint strip_prefix (p l : bytes) : option bytes :=
  match p, l with
  | [], _ => Some l
  | a :: p', b :: l' => if Byte.eqb a b then strip_prefix p' l' else None
  | _ :: _, [] => None
  end.

Definition starts_with (p l : bytes) : bool :=
  match strip_prefix p l with Some _ => true | None => false end.

(** Modelled from the spec: the end of the header block, "a blank-line
    separator": the first occurrence of the separator, with the bytes before
    it and the bytes after it. *)
Fixpoint find_separator (l : bytes) : option (bytes * bytes) :=
  match l with
  | [] => None
  | b :: r =>
      match strip_prefix separator l with
      | Some after => Some ([], after)
      | None =>
          match find_separator r with
          | Some (before, after) => Some (b :: before, after)
          | None => None
          end
      end
  end.

(** Modelled from the spec: "newline-delimited headers": the lines of the
    header block, delimited by CR LF. *)
Definition cons_first (b : Byte.byte) (lines : list bytes) : list bytes :=
  match lines with
  | first :: others => (b :: first) :: others
  | [] => [[b]]
  end.

Fixpoint header_lines (l : bytes) : list bytes :=
  match l with
  | [] => [[]]
  | b :: r =>
      match r with
      | b' :: r' =>
          if Byte.eqb b CR && Byte.eqb b' LF then [] :: header_lines r'
          else cons_first b (header_lines r)
      | [] => [[b]]
      end
  end.

(** Modelled from the spec: "a header line declaring body byte length": the
    value of the first [Content-Length] line of the header block. *)
Fixpoint announced_length (lines : list bytes) : option N :=
  match lines with
  | [] => None
  | ln :: rest =>
      match strip_prefix length_field ln with
      | Some value => parse_decimal value
      | None => announced_length rest
      end
  end.

Definition content_length (header : bytes) : option N :=
  announced_length (header_lines header).

Section Codec.

(** The JSON layer is the platform's ([JSON.stringify] followed by the UTF-8
    encoding, and [JSON.parse] of the decoded text): the codec takes it as
    given. *)
Variable payload : Type.
Variable stringify : payload -> bytes.
Variable parse : bytes -> option payload.

(** Modelled from the spec: [encode], absent from the sources, "producing a
    header announcing the exact byte length of the UTF-8-encoded JSON body,
    followed by the body", with a blank-line separator between them. *)
Definition encode (p : payload) : bytes :=
  let body := stringify p in
  (length_field ++ decimal_bytes (N.of_nat (List.length body)) ++ separator ++ body)%list.

(** What the decoder hands to its caller. *)
Inductive DecodeEvent :=
| Message (p : payload)
| ProtocolError.

Inductive Progress :=
| NeedMore
| Emit (e : DecodeEvent) (rest : bytes).

(** Modelled from the spec: one attempt of the decoder at taking a frame
    from the front of its buffer. "Malformed headers or bodies that fail to
    parse as valid JSON produce a ProtocolError surfaced to the caller as a
    decode event, without terminating the stream": decoding goes on behind
    them. *)
Definition decode_one (buffer : bytes) : Progress :=
  match find_separator buffer with
  | None => NeedMore
  | Some (header, after) =>
      match content_length header with
      | None => Emit ProtocolError after
      | Some n =>
          let len := N.to_nat n in
          if Nat.ltb (List.length after) len then NeedMore
          else
            Emit (match parse (firstn len after) with
                  | Some p => Message p
                  | None => ProtocolError
                  end)
                 (skipn len after)
      end
  end.

(** Modelled from the spec: the decoder "must correctly split multiple
    complete messages delivered in a single chunk": it takes frames while
    there are complete ones. Every frame taken shortens the buffer, so the
    buffer's length bounds the number of rounds. *)
Fixpoint drain (rounds : nat) (buffer : bytes) : list DecodeEvent * bytes :=
  match rounds with
  | O => ([], buffer)
  | S k =>
      match decode_one buffer with
      | NeedMore => ([], buffer)
      | Emit e rest => let (es, left) := drain k rest in (e :: es, left)
      end
  end.

Definition drain_all (buffer : bytes) : list DecodeEvent * bytes :=
  drain (S (List.length buffer)) buffer.

(** The decoder of one connection: the bytes received and not yet consumed. *)
Record Decoder := { buffer : bytes }.

Definition fresh : Decoder := {| buffer := [] |}.

(** Modelled from the spec: one chunk arrives at the decoder, which keeps
    what it cannot consume yet. *)
Definition push (d : Decoder) (chunk : bytes) : list DecodeEvent * Decoder :=
  let (es, left) := drain_all (buffer d ++ chunk)%list in
  (es, {| buffer := left |}).

(** Modelled from the spec: [decode], absent from the sources, the sequence
    of messages of a stream of chunks, "buffering incomplete frames across
    chunk boundaries". *)
Fixpoint decode (d : Decoder) (chunks : list bytes) : list DecodeEvent * Decoder :=
  match chunks with
  | [] => ([], d)
  | c :: cs =>
      let (es, d') := push d c in
      let (es', d'') := decode d' cs in
      ((es ++ es')%list, d'')
  end.

End Codec.

Arguments Message {payload}.
Arguments ProtocolError {payload}.
Arguments NeedMore {payload}.
Arguments Emit {payload}.

(** The JSON text [{"t":"م"}] by its UTF-8 bytes; the letter takes the
    two bytes [d9 85]. *)
Definition sample_text : bytes :=
  [Byte.x7b; Byte.x22; Byte.x74; Byte.x22; Byte.x3a; Byte.x22;
   Byte.xd9; Byte.x85; Byte.x22; Byte.x7d].

(** Cut inside the header, then between the two bytes of the letter. *)
Definition sample_chunks : list bytes :=
  let frame := encode bytes (fun b => b) sample_text in
  [firstn 9 frame; firstn 20 (skipn 9 frame); skipn 29 frame].

End Framing.

(** ** The tab store: what its properties are stated with *)

Module TabStoreProps.
Import TabStore.

(** The id [generateTabId] builds from a value of the counter and a time. *)
Definition tab_id (k now : N) : string :=
  "tab-" ++ JS.decimal k ++ "-" ++ JS.decimal now.

(** Every id of the store was built from a value the counter has passed. *)
Definition ids_issued (w : Store) : Prop :=
  Forall (fun t => exists k now, (k <= tabCounter w)%N /\ id t = tab_id k now)
         (tabs (state w)).

(** No two tabs carry the same id. *)
Definition ids_distinct (s : TabState) : Prop := NoDup (map id (tabs s)).

(** Whether a character occurs in a string. *)
Fixpoint has_char (c : ascii) (s : string) : bool :=
  match s with
  | EmptyString => false
  | String a r => Ascii.eqb a c || has_char c r
  end.

(** The tab next to a closed one: the tab to its right, or, when it was the
    last, the tab to its left. *)
Definition neighbour (left right : list Tab) : option Tab :=
  match right with
  | n :: _ => Some n
  | [] => last (map Some left) None
  end.

(** One operation after the other, when the first does not throw. *)
Definition and_then (r : option TabState) (f : TabState -> option TabState)
  : option TabState :=
  match r with Some s => f s | None => None end.

(** The tab before and the tab after a position, around the ends. *)
Definition cyclic_next (l : list Tab) (i : nat) : option Tab :=
  nth_error l (if Nat.eqb (S i) (List.length l) then 0 else S i).

Definition cyclic_prev (l : list Tab) (i : nat) : option Tab :=
  nth_error l (match i with O => List.length l - 1 | S j => j end).

Definition is_create (a : Action) : bool :=
  match a with CreateTab _ _ _ => true | _ => false end.

End TabStoreProps.
(** ** The main process: the [compiler:compile] and [compiler:run] handlers *)

Module Compiler.

(** [s.lastIndexOf('/')]: the index of the last slash, [-1] without one. *)
Fixpoint lastIndexOf_slash_from (s : string) (i : Z) (found : Z) : Z :=
  match s with
  | EmptyString => found
  | String c r =>
      lastIndexOf_slash_from r (i + 1)%Z (if Ascii.eqb c "/" then i else found)
  end.

Definition lastIndexOf_slash (s : string) : Z := lastIndexOf_slash_from s 0 (-1).

(** [s.substring(0, e)]: a negative end counts as 0, an end beyond the
    string as its length. *)
Definition substring_to (s : string) (e : Z) : string :=
  if (e <? 0)%Z then "" else String.substring 0 (Z.to_nat e) s.

(** The two handlers differ by the sub-command they pass to [tarqeem] and by
    the text that introduces a spawn failure. *)
Inductive Command := Compile | Run.

Definition subcommand (cmd : Command) : string :=
  match cmd with Compile => "compile" | Run => "run" end.

Definition failure_prefix (cmd : Command) : string :=
  match cmd with
  | Compile => "Failed to start compiler: "
  | Run => "Failed to start: "
  end.

(** What the handler passes to [spawn]. *)
Record SpawnRequest := {
  program : string;
  args : list string;
  cwd : string
}.

Definition spawn_request (cmd : Command) (filePath : string) : SpawnRequest :=
  {| program := "tarqeem";
     args := [subcommand cmd; filePath];
     cwd := substring_to filePath (lastIndexOf_slash filePath) |}.

(** The object the handler resolves with; [exitCode] is [null] when the
    child was ended by a signal. *)
Record CompilerResult := {
  success : bool;
  output : string;
  errors : string;
  exitCode : option Z
}.

(** What the child does, as the listeners of the handler see it. *)
Inductive ProcEvent :=
| Stdout (text : string)
| Stderr (text : string)
| Failed (message : string)   (* the 'error' event *)
| Closed (code : option Z).   (* the 'close' event *)

(** One invocation of a handler: the two arrays of chunks and the value the
    promise was resolved with, if it was. *)
Record Invocation := {
  stdout_chunks : list string;
  stderr_chunks : list string;
  settled : option CompilerResult
}.

Definition started : Invocation :=
  {| stdout_chunks := []; stderr_chunks := []; settled := None |}.

(** [arr.join('')]. *)
Definition join (l : list string) : string := String.concat "" l.

(** [resolve(value)]: a promise keeps the first value it is resolved with. *)
Definition resolve (r : CompilerResult) (inv : Invocation) : Invocation :=
  match settled inv with
  | Some _ => inv
  | None => {| stdout_chunks := stdout_chunks inv;
               stderr_chunks := stderr_chunks inv;
               settled := Some r |}
  end.

Definition code_is_zero (code : option Z) : bool :=
  match code with Some z => (z =? 0)%Z | None => false end.

(** One event of the child: the new state of the invocation and what is
    sent to the renderer ([event.sender.send(channel, text)]). *)
Definition on_event (cmd : Command) (ev : ProcEvent) (inv : Invocation)
  : Invocation * list (string * string) :=
  match ev with
  | Stdout text =>
      ({| stdout_chunks := (stdout_chunks inv ++ [text])%list;
          stderr_chunks := stderr_chunks inv;
          settled := settled inv |},
       [("compiler:stdout", text)])
  | Stderr text =>
      ({| stdout_chunks := stdout_chunks inv;
          stderr_chunks := (stderr_chunks inv ++ [text])%list;
          settled := settled inv |},
       [("compiler:stderr", text)])
  | Failed message =>
      (resolve {| success := false;
                  output := join (stdout_chunks inv);
                  errors := failure_prefix cmd ++ message;
                  exitCode := Some (-1)%Z |} inv,
       [])
  | Closed code =>
      (resolve {| success := code_is_zero code;
                  output := join (stdout_chunks inv);
                  errors := join (stderr_chunks inv);
                  exitCode := code |} inv,
       [])
  end.

(** The events of a child, one after the other: the invocation at the end
    and everything sent to the renderer, in order. *)
Fixpoint handle_events (cmd : Command) (evs : list ProcEvent) (inv : Invocation)
  : Invocation * list (string * string) :=
  match evs with
  | [] => (inv, [])
  | ev :: rest =>
      let (inv1, sent1) := on_event cmd ev inv in
      let (inv2, sent2) := handle_events cmd rest inv1 in
      (inv2, (sent1 ++ sent2)%list)
  end.

(** What an event sends to the renderer. *)
Definition forwarded (ev : ProcEvent) : list (string * string) :=
  match ev with
  | Stdout text => [("compiler:stdout", text)]
  | Stderr text => [("compiler:stderr", text)]
  | Failed _ | Closed _ => []
  end.

(** The chunks a list of events brings on each of the two streams. *)
Definition stdout_of (evs : list ProcEvent) : list string :=
  flat_map (fun ev => match ev with Stdout text => [text] | _ => [] end) evs.

Definition stderr_of (evs : list ProcEvent) : list string :=
  flat_map (fun ev => match ev with Stderr text => [text] | _ => [] end) evs.

Definition is_data (ev : ProcEvent) : bool :=
  match ev with Stdout _ | Stderr _ => true | Failed _ | Closed _ => false end.

End Compiler.
(** ** The preload bridge: [window.qalam.menu] *)

Module PreloadMenu.

(** The members of [window.qalam.menu]. Each registers the callback it is
    given, itself, as the listener. *)
Inductive Member := onOpen | onSave | onSaveAs | onCompile | onRun.

Definition member_channel (m : Member) : string :=
  match m with
  | onOpen => "menu:open"
  | onSave => "menu:save"
  | onSaveAs => "menu:save-as"
  | onCompile => "menu:compile"
  | onRun => "menu:run"
  end.

(** The listeners of [ipcRenderer] that are callbacks of the renderer: the
    channel and the function, known by its identity, in registration
    order. *)
Definition Emitter : Type := list (string * nat).

Definition is_entry (channel : string) (f : nat) (e : string * nat) : bool :=
  String.eqb (fst e) channel && Nat.eqb (snd e) f.

(** [ipcRenderer.on(channel, f)]. *)
Definition ipc_on (channel : string) (f : nat) (r : Emitter) : Emitter :=
  (r ++ [(channel, f)])%list.

(** [ipcRenderer.removeListener(channel, f)]: the most recently added
    registration of [f] on the channel is removed. *)
Definition removeListener (channel : string) (f : nat) (r : Emitter) : Emitter :=
  rev (Preload.remove_first (is_entry channel f) (rev r)).

(** The function a member returns, given by what it captured. *)
Definition Disposer : Type := string * nat.

(** [onOpen(callback)] and its siblings. *)
Definition subscribe (m : Member) (cb : nat) (r : Emitter) : Disposer * Emitter :=
  ((member_channel m, cb), ipc_on (member_channel m) cb r).

Definition dispose (d : Disposer) (r : Emitter) : Emitter :=
  removeListener (fst d) (snd d) r.

(** How many times a function is registered on a channel. *)
Definition registrations (channel : string) (f : nat) (r : Emitter) : nat :=
  List.length (filter (is_entry channel f) r).

(** The registrations other than those of a function on a channel. *)
Definition others (channel : string) (f : nat) (r : Emitter) : Emitter :=
  filter (fun e => negb (is_entry channel f e)) r.

End PreloadMenu.
(** ** src/renderer/stores/useFileExplorer.ts *)

Module FileExplorer.

Inductive NodeType := File | Directory.

Unset Elimination Schemes.

(** [FileNode]: [children] and [isExpanded] are optional. *)
Inductive FileNode :=
| Node (name path : string) (type : NodeType)
       (children : option (list FileNode)) (isExpanded : option bool).

Set Elimination Schemes.

Definition path (n : FileNode) : string :=
  match n with Node _ p _ _ _ => p end.

Definition children (n : FileNode) : option (list FileNode) :=
  match n with Node _ _ _ c _ => c end.

(** A [Set<string>]: its elements in the order of their insertion, which is
    the order [Array.from] lists them in. *)
Definition StringSet : Type := list string.

(** [set.has(x)]. *)
Definition set_has (x : string) (s : StringSet) : bool := existsb (String.eqb x) s.

(** [set.add(x)]. *)
Definition set_add (x : string) (s : StringSet) : StringSet :=
  if set_has x s then s else (s ++ [x])%list.

(** [set.delete(x)]. *)
Definition set_delete (x : string) (s : StringSet) : StringSet :=
  filter (fun y => negb (String.eqb y x)) s.

(** [new Set(array)]. *)
Definition set_from (l : list string) : StringSet :=
  fold_left (fun s x => set_add x s) l [].

Record FileExplorerState := {
  rootPath : option string;
  rootName : option string;
  tree : list FileNode;
  expandedPaths : StringSet;
  isLoading : bool
}.

Definition initial : FileExplorerState :=
  {| rootPath := None; rootName := None; tree := []; expandedPaths := [];
     isLoading := false |}.

Definition setRoot (p name : string) (s : FileExplorerState) : FileExplorerState :=
  {| rootPath := Some p; rootName := Some name; tree := []; expandedPaths := [];
     isLoading := isLoading s |}.

Definition setTree (t : list FileNode) (s : FileExplorerState) : FileExplorerState :=
  {| rootPath := rootPath s; rootName := rootName s; tree := t;
     expandedPaths := expandedPaths s; isLoading := isLoading s |}.

Definition with_expanded (e : StringSet) (s : FileExplorerState) : FileExplorerState :=
  {| rootPath := rootPath s; rootName := rootName s; tree := tree s;
     expandedPaths := e; isLoading := isLoading s |}.

Definition toggleExpanded (p : string) (s : FileExplorerState) : FileExplorerState :=
  let newExpanded := expandedPaths s in
  with_expanded (if set_has p newExpanded then set_delete p newExpanded
                 else set_add p newExpanded) s.

Definition setExpanded (p : string) (expanded : bool) (s : FileExplorerState)
  : FileExplorerState :=
  let newExpanded := expandedPaths s in
  with_expanded (if expanded then set_add p newExpanded
                 else set_delete p newExpanded) s.

(** The inner [updateNode] of [updateChildren], on one node: a node with the
    path gets the children; any other node with children has them
    updated. *)
Fixpoint updateNode (p : string) (newChildren : list FileNode) (n : FileNode)
  : FileNode :=
  match n with
  | Node name pa ty c e =>
      if String.eqb pa p then Node name pa ty (Some newChildren) e
      else match c with
           | Some l => Node name pa ty (Some (map (updateNode p newChildren) l)) e
           | None => n
           end
  end.

Definition updateChildren (p : string) (newChildren : list FileNode)
    (s : FileExplorerState) : FileExplorerState :=
  setTree (map (updateNode p newChildren) (tree s)) s.

Definition closeFolder (s : FileExplorerState) : FileExplorerState :=
  {| rootPath := None; rootName := None; tree := []; expandedPaths := [];
     isLoading := isLoading s |}.

Definition setLoading (loading : bool) (s : FileExplorerState) : FileExplorerState :=
  {| rootPath := rootPath s; rootName := rootName s; tree := tree s;
     expandedPaths := expandedPaths s; isLoading := loading |}.

(** What [persist] stores: the result of [partialize]. *)
Record Persisted := {
  persisted_rootPath : option string;
  persisted_rootName : option string;
  persisted_expandedPaths : list string
}.

Definition partialize (s : FileExplorerState) : Persisted :=
  {| persisted_rootPath := rootPath s;
     persisted_rootName := rootName s;
     persisted_expandedPaths := expandedPaths s |}.

(** [merge(persisted, current)]; [persisted] is [undefined] when nothing was
    stored. *)
Definition merge (persisted : option Persisted) (current : FileExplorerState)
  : FileExplorerState :=
  match persisted with
  | Some p =>
      {| rootPath := persisted_rootPath p;
         rootName := persisted_rootName p;
         tree := tree current;
         expandedPaths := set_from (persisted_expandedPaths p);
         isLoading := isLoading current |}
  | None => with_expanded (set_from []) current
  end.

(** The actions of the store as one type. *)
Inductive Action :=
| SetRoot (path name : string)
| SetTree (tree : list FileNode)
| ToggleExpanded (path : string)
| SetExpanded (path : string) (expanded : bool)
| UpdateChildren (path : string) (children : list FileNode)
| CloseFolder
| SetLoading (loading : bool).

Definition perform (a : Action) (s : FileExplorerState) : FileExplorerState :=
  match a with
  | SetRoot p n => setRoot p n s
  | SetTree t => setTree t s
  | ToggleExpanded p => toggleExpanded p s
  | SetExpanded p e => setExpanded p e s
  | UpdateChildren p c => updateChildren p c s
  | CloseFolder => closeFolder s
  | SetLoading l => setLoading l s
  end.

Definition perform_all (acts : list Action) (s : FileExplorerState) : FileExplorerState :=
  fold_left (fun s a => perform a s) acts s.

(** Whether a node, or a node below it, has the path. *)
Fixpoint has_path (p : string) (n : FileNode) : bool :=
  match n with
  | Node _ pa _ c _ =>
      String.eqb pa p ||
      match c with
      | Some l => existsb (has_path p) l
      | None => false
      end
  end.

End FileExplorer.
(** ** The main process: the forwarders registered by [lsp:start] *)

Module MainForwarders.
Import Lsp Main.

(** The subscribers of the client of the host, none without a client. *)
Definition subscribers_of (w : World) : list (EventKind * nat) :=
  match client w with Some c => subscribers c | None => [] end.

(** The five forwarders one call of [lsp:start] registers for a sender. *)
Definition forwarders (sender : nat) : list (EventKind * nat) :=
  map (fun k => (k, sender)) forwarded.

End MainForwarders.
(* ================================================================== *)
(** * Part II: lemmas and theorems                                     *)
(* ================================================================== *)

(** ** The tab store *)

Module TabStoreFacts.
Import TabStore.

Lemma length_pos_nil {A} (l : list A) :
  (JS.length l >? 0)%Z = false -> l = [].
Proof.
  unfold JS.length. destruct l as [|x r]; [reflexivity|].
  intros H. rewrite Z.gtb_ltb in H. simpl length in H.
  rewrite Z.ltb_ge in H. lia.
Qed.

Lemma find_has_id tabId l t :
  JS.find (has_id tabId) l = Some t -> In t l /\ id t = tabId.
Proof.
  unfold JS.find. intros H. apply find_some in H as [Hin Hid].
  split; [assumption|]. now apply String.eqb_eq.
Qed.

Lemma find_absent tabId l :
  JS.find (has_id tabId) l = None <-> (forall t, In t l -> id t <> tabId).
Proof.
  unfold JS.find. split.
  - intros H t Hin Heq. apply (find_none _ _ H) in Hin.
    unfold has_id in Hin. rewrite Heq, String.eqb_refl in Hin. discriminate.
  - intros H. induction l as [|x r IH]; [reflexivity|]. simpl.
    destruct (has_id tabId x) eqn:E.
    + apply String.eqb_eq in E. exfalso. apply (H x); [now left | exact E].
    + apply IH. intros t Hin. apply H. now right.
Qed.

(** With unique ids the tab that [find] designates is the one tab of the
    list carrying the id. *)
Lemma find_unique tabId l t :
  NoDup (map id l) -> In t l -> id t = tabId ->
  JS.find (has_id tabId) l = Some t.
Proof.
  unfold JS.find. induction l as [|x r IH]; intros Hnd Hin Hid; [contradiction|].
  simpl in *. inversion Hnd as [|? ? Hnotin Hnd']; subst.
  destruct Hin as [->|Hin].
  - unfold has_id. now rewrite String.eqb_refl.
  - destruct (has_id (id t) x) eqn:E.
    + apply String.eqb_eq in E. exfalso. apply Hnotin. rewrite E.
      now apply in_map.
    + now apply IH.
Qed.

(** The bulk operations keep the dirty tabs in their order and number. *)
Lemma closeOtherTabs_dirty tabId s :
  filter isDirty (tabs (closeOtherTabs tabId s)) = filter isDirty (tabs s).
Proof.
  unfold closeOtherTabs; simpl. induction (tabs s) as [|x r IH]; [reflexivity|].
  simpl. destruct (isDirty x) eqn:E.
  - rewrite orb_true_r. simpl. rewrite E. now f_equal.
  - rewrite orb_false_r. destruct (has_id tabId x); simpl; [rewrite E|]; exact IH.
Qed.

Lemma filter_idem {A} (p : A -> bool) l : filter p (filter p l) = filter p l.
Proof.
  induction l as [|x r IH]; [reflexivity|]. simpl.
  destruct (p x) eqn:E; simpl; [rewrite E; now f_equal | exact IH].
Qed.

Lemma closeTabsToRight_dirty tabId s :
  filter isDirty (tabs (closeTabsToRight tabId s)) = filter isDirty (tabs s).
Proof.
  unfold closeTabsToRight.
  destruct (JS.findIndex (has_id tabId) (tabs s) =? -1)%Z; [reflexivity|].
  simpl. unfold JS.slice_to, JS.slice_from.
  rewrite filter_app, filter_idem, <- filter_app.
  now rewrite firstn_skipn.
Qed.

Lemma closeAllTabs_dirty s :
  filter isDirty (tabs (closeAllTabs s)) = filter isDirty (tabs s).
Proof.
  unfold closeAllTabs.
  destruct (JS.length (filter isDirty (tabs s)) >? 0)%Z eqn:E; simpl.
  - apply filter_idem.
  - apply length_pos_nil in E. now rewrite E.
Qed.

Lemma dirty_kept (l l' : list Tab) t :
  filter isDirty l' = filter isDirty l ->
  In t l -> isDirty t = true -> In t l'.
Proof.
  intros Heq Hin Hd.
  assert (H : In t (filter isDirty l')).
  { rewrite Heq. apply filter_In. now split. }
  now apply filter_In in H.
Qed.

(** C8. The bulk closing operations [closeOtherTabs], [closeTabsToRight]
    and [closeAllTabs] never remove a tab with unsaved changes: in every
    state, a tab of the list whose [isDirty] flag is set is still in the
    list after the call. *)
Theorem bulk_close_keeps_dirty_tabs :
  forall (s : TabState) (tabId : string) (t : Tab),
    In t (tabs s) -> isDirty t = true ->
    In t (tabs (closeOtherTabs tabId s)) /\
    In t (tabs (closeTabsToRight tabId s)) /\
    In t (tabs (closeAllTabs s)).
Proof.
  intros s tabId t Hin Hd. repeat split.
  - exact (dirty_kept _ _ t (closeOtherTabs_dirty tabId s) Hin Hd).
  - exact (dirty_kept _ _ t (closeTabsToRight_dirty tabId s) Hin Hd).
  - exact (dirty_kept _ _ t (closeAllTabs_dirty s) Hin Hd).
Qed.

(** C9. [closeTab] on a tab with unsaved changes returns [false] and
    leaves the tab list and [activeTabId] as they were; [closeTab] for an
    id that no tab of the list carries returns [true] and also leaves the
    state as it was. The tab an id designates is the one [find] returns,
    the first tab carrying it; where ids are unique, as [generateTabId]
    makes them, that is the only tab carrying it. *)
Theorem closeTab_refuses_dirty_and_ignores_unknown :
  forall (s : TabState) (tabId : string),
    (forall t, JS.find (has_id tabId) (tabs s) = Some t ->
               isDirty t = true -> closeTab tabId s = (false, s)) /\
    (forall t, NoDup (map id (tabs s)) -> In t (tabs s) -> id t = tabId ->
               isDirty t = true -> closeTab tabId s = (false, s)) /\
    ((forall t, In t (tabs s) -> id t <> tabId) -> closeTab tabId s = (true, s)).
Proof.
  intros s tabId.
  assert (Hfirst : forall t, JS.find (has_id tabId) (tabs s) = Some t ->
                             isDirty t = true -> closeTab tabId s = (false, s)).
  { intros t Hf Hd. unfold closeTab. now rewrite Hf, Hd. }
  repeat split.
  - exact Hfirst.
  - intros t Hnd Hin Hid Hd. apply (Hfirst t); [|exact Hd].
    now apply find_unique.
  - intros Habs. apply find_absent in Habs. unfold closeTab. now rewrite Habs.
Qed.

(** *** The dirty flag *)

Lemma Forall_incl {A} (P : A -> Prop) (l l' : list A) :
  incl l' l -> Forall P l -> Forall P l'.
Proof.
  intros Hsub Hall. apply Forall_forall. intros x Hx.
  rewrite Forall_forall in Hall. apply Hall, Hsub, Hx.
Qed.

Lemma incl_slice_to {A} (l : list A) e : incl (JS.slice_to l e) l.
Proof.
  intros x Hx. unfold JS.slice_to in Hx.
  rewrite <- (firstn_skipn (Z.to_nat e) l). apply in_or_app. now left.
Qed.

Lemma incl_slice_from {A} (l : list A) b : incl (JS.slice_from l b) l.
Proof.
  intros x Hx. unfold JS.slice_from in Hx.
  rewrite <- (firstn_skipn (Z.to_nat b) l). apply in_or_app. now right.
Qed.

Lemma incl_filter {A} (p : A -> bool) (l : list A) : incl (filter p l) l.
Proof. intros x Hx. now apply filter_In in Hx. Qed.

Lemma createTab_consistent p c now w :
  dirty_consistent (state w) -> dirty_consistent (state (snd (createTab p c now w))).
Proof.
  unfold dirty_consistent, createTab; simpl. intros H.
  apply Forall_app. split; [exact H|]. constructor; [|constructor].
  unfold dirty_matches; simpl. now rewrite String.eqb_refl.
Qed.

Lemma closeTab_consistent i s :
  dirty_consistent s -> dirty_consistent (snd (closeTab i s)).
Proof.
  unfold dirty_consistent, closeTab. intros H.
  destruct (JS.find (has_id i) (tabs s)) as [tab|]; [|exact H].
  destruct (isDirty tab); [exact H|]. simpl.
  exact (Forall_incl _ _ _ (incl_filter _ _) H).
Qed.

Lemma closeOtherTabs_consistent i s :
  dirty_consistent s -> dirty_consistent (closeOtherTabs i s).
Proof.
  unfold dirty_consistent, closeOtherTabs; simpl. intros H.
  exact (Forall_incl _ _ _ (incl_filter _ _) H).
Qed.

Lemma closeTabsToRight_consistent i s :
  dirty_consistent s -> dirty_consistent (closeTabsToRight i s).
Proof.
  unfold dirty_consistent, closeTabsToRight. intros H.
  destruct (JS.findIndex (has_id i) (tabs s) =? -1)%Z; [exact H|]. simpl.
  apply Forall_app. split.
  - exact (Forall_incl _ _ _ (incl_slice_to _ _) H).
  - apply (Forall_incl _ _ _ (incl_filter _ _)).
    exact (Forall_incl _ _ _ (incl_slice_from _ _) H).
Qed.

Lemma closeAllTabs_consistent s :
  dirty_consistent s -> dirty_consistent (closeAllTabs s).
Proof.
  unfold dirty_consistent, closeAllTabs. intros H.
  destruct (JS.length (filter isDirty (tabs s)) >? 0)%Z; simpl; [|constructor].
  exact (Forall_incl _ _ _ (incl_filter _ _) H).
Qed.

Lemma updateTabContent_consistent i c s :
  dirty_consistent s -> dirty_consistent (updateTabContent i c s).
Proof.
  unfold dirty_consistent, updateTabContent; simpl. intros H.
  apply Forall_map. apply Forall_forall. intros t Ht.
  rewrite Forall_forall in H. destruct (has_id i t); [reflexivity|]. now apply H.
Qed.

Lemma updateTabCursor_consistent i l c s :
  dirty_consistent s -> dirty_consistent (updateTabCursor i l c s).
Proof.
  unfold dirty_consistent, updateTabCursor; simpl. intros H.
  apply Forall_map. apply Forall_forall. intros t Ht.
  rewrite Forall_forall in H. destruct (has_id i t); [|now apply H].
  unfold dirty_matches; simpl. now apply H.
Qed.

Lemma markTabSaved_consistent i p s :
  dirty_consistent s -> dirty_consistent (markTabSaved i p s).
Proof.
  unfold dirty_consistent, markTabSaved; simpl. intros H.
  apply Forall_map. apply Forall_forall. intros t Ht.
  rewrite Forall_forall in H. destruct (has_id i t); [|now apply H].
  unfold dirty_matches; simpl. now rewrite String.eqb_refl.
Qed.

Lemma nextTab_tabs s s' : nextTab s = Some s' -> tabs s' = tabs s.
Proof.
  unfold nextTab. destruct (JS.length (tabs s) <=? 1)%Z; [now intros [= <-]|].
  destruct (JS.at_index _ _); [now intros [= <-] | discriminate].
Qed.

Lemma prevTab_tabs s s' : prevTab s = Some s' -> tabs s' = tabs s.
Proof.
  unfold prevTab. destruct (JS.length (tabs s) <=? 1)%Z; [now intros [= <-]|].
  destruct (JS.at_index _ _); [now intros [= <-] | discriminate].
Qed.

Lemma perform_consistent a w :
  dirty_consistent (state w) -> dirty_consistent (state (perform a w)).
Proof.
  intros H. destruct a; simpl.
  - now apply createTab_consistent.
  - now apply closeTab_consistent.
  - now apply closeOtherTabs_consistent.
  - now apply closeTabsToRight_consistent.
  - now apply closeAllTabs_consistent.
  - exact H.
  - now apply updateTabContent_consistent.
  - now apply updateTabCursor_consistent.
  - now apply markTabSaved_consistent.
  - destruct (nextTab (state w)) as [s'|] eqn:E; [|exact H].
    simpl. unfold dirty_consistent. now rewrite (nextTab_tabs _ _ E).
  - destruct (prevTab (state w)) as [s'|] eqn:E; [|exact H].
    simpl. unfold dirty_consistent. now rewrite (prevTab_tabs _ _ E).
Qed.

Lemma perform_all_consistent acts w :
  dirty_consistent (state w) -> dirty_consistent (state (perform_all acts w)).
Proof.
  revert w. induction acts as [|a r IH]; intros w H; [exact H|].
  simpl. apply IH. now apply perform_consistent.
Qed.

(** C10. Every operation of the tab store keeps the invariant that a tab's
    [isDirty] flag is set exactly when its [content] differs from its
    [savedContent]: the empty store satisfies it, every action preserves it,
    so every store reached by actions satisfies it. In particular
    [updateTabContent] with the saved content of the tab clears [isDirty],
    and [markTabSaved] leaves [savedContent] equal to [content] with
    [isDirty] cleared. *)
Theorem dirty_flag_tracks_content :
  (forall (a : Action) (w : Store),
      dirty_consistent (state w) -> dirty_consistent (state (perform a w))) /\
  (forall acts : list Action, dirty_consistent (state (perform_all acts empty))) /\
  (forall (s : TabState) (tabId c : string) (t : Tab),
      In t (tabs s) -> id t = tabId ->
      exists t', In t' (tabs (updateTabContent tabId c s)) /\
                 id t' = tabId /\ content t' = c /\
                 savedContent t' = savedContent t /\
                 isDirty t' = negb (String.eqb c (savedContent t)) /\
                 (c = savedContent t -> isDirty t' = false)) /\
  (forall (s : TabState) (tabId : string) (p : option string) (t : Tab),
      In t (tabs s) -> id t = tabId ->
      exists t', In t' (tabs (markTabSaved tabId p s)) /\
                 id t' = tabId /\ content t' = content t /\
                 savedContent t' = content t /\ isDirty t' = false).
Proof.
  split; [exact perform_consistent|].
  split; [intros acts; apply perform_all_consistent; constructor|].
  split.
  - intros s tabId c t Hin Hid.
    eexists. split.
    + unfold updateTabContent; simpl. apply in_map_iff. exists t. split; [|exact Hin].
      unfold has_id. rewrite Hid, String.eqb_refl. reflexivity.
    + simpl. repeat split; try assumption.
      intros ->. now rewrite String.eqb_refl.
  - intros s tabId p t Hin Hid.
    eexists. split.
    + unfold markTabSaved; simpl. apply in_map_iff. exists t. split; [|exact Hin].
      unfold has_id. rewrite Hid, String.eqb_refl. reflexivity.
    + simpl. repeat split; assumption.
Qed.

(** *** The theorems at a concrete store *)

Lemma bulk_close_keeps_dirty_tabs_witness :
  In sample_dirty (tabs (closeOtherTabs (id sample_clean) sample_state)) /\
  In sample_dirty (tabs (closeTabsToRight (id sample_clean) sample_state)) /\
  In sample_dirty (tabs (closeAllTabs sample_state)).
Proof.
  apply (bulk_close_keeps_dirty_tabs sample_state (id sample_clean) sample_dirty).
  - simpl. right. left. reflexivity.
  - reflexivity.
Defined.

Lemma closeTab_refuses_dirty_and_ignores_unknown_witness :
  closeTab (id sample_dirty) sample_state = (false, sample_state) /\
  closeTab "tab-9-0" sample_state = (true, sample_state).
Proof.
  split.
  - destruct (closeTab_refuses_dirty_and_ignores_unknown sample_state (id sample_dirty))
      as [Hfind _].
    apply (Hfind sample_dirty); reflexivity.
  - destruct (closeTab_refuses_dirty_and_ignores_unknown sample_state "tab-9-0")
      as [_ [_ Habsent]].
    apply Habsent. intros t [<-|[<-|[]]]; discriminate.
Defined.

Lemma dirty_flag_tracks_content_witness :
  dirty_consistent (state (perform (UpdateTabContent (id sample_dirty) "")
                                   {| state := sample_state; tabCounter := 2 |})).
Proof.
  destruct dirty_flag_tracks_content as [Hstep _].
  apply Hstep. simpl. repeat constructor.
Defined.

End TabStoreFacts.

(** ** The language-server client and the handlers of the main process *)

Module MainFacts.
Import Lsp Main.

(** *** Children *)

Section Facts.
Context {texts : ErrorTexts}.

Lemma alive_count_app l l' : alive_count (l ++ l')%list = alive_count l + alive_count l'.
Proof. unfold alive_count. now rewrite filter_app, length_app. Qed.

Lemma alive_count_set_child l : forall pid s,
  nth_error l pid = Some Alive -> is_alive s = false ->
  S (alive_count (set_child pid s l)) = alive_count l.
Proof.
  induction l as [|c r IH]; intros pid s Hnth Hs.
  - destruct pid; discriminate.
  - destruct pid as [|p]; simpl in *.
    + injection Hnth as ->. unfold alive_count. simpl. now rewrite Hs.
    + specialize (IH p s Hnth Hs). unfold alive_count in *. simpl.
      destruct (is_alive c); simpl; lia.
Qed.

Lemma nth_error_fresh (l : list Child) :
  nth_error (l ++ [Alive])%list (List.length l) = Some Alive.
Proof. rewrite nth_error_app2 by lia. now rewrite Nat.sub_diag. Qed.

(** Ending the process of a well-formed client leaves no live child. *)
Lemma end_process_none c w s :
  client_ok c w -> is_alive s = false ->
  alive_count (end_process (process c) s (children w)) = 0.
Proof.
  intros (Hproc & _) Hs. unfold alive in Hproc. fold (alive_count (children w)) in Hproc.
  destruct (process c) as [pid|]; simpl.
  - destruct Hproc as [Hnth Hone].
    pose proof (alive_count_set_child _ _ _ Hnth Hs). lia.
  - exact Hproc.
Qed.

(** *** The invariant *)

Lemma well_formed_initial : well_formed initial.
Proof. reflexivity. Qed.

Lemma client_ok_new w : alive w = 0 -> client_ok new_client (put new_client w).
Proof.
  intros H. unfold client_ok; simpl. repeat split; auto; try discriminate.
Qed.

Lemma getLSPClient_client w :
  client (snd (getLSPClient w)) = Some (fst (getLSPClient w)).
Proof. unfold getLSPClient. now destruct (client w) eqn:E. Qed.

Lemma getLSPClient_ok w : well_formed w -> well_formed (snd (getLSPClient w)).
Proof.
  unfold well_formed, getLSPClient. destruct (client w) eqn:E; simpl.
  - now rewrite E.
  - apply client_ok_new.
Qed.

Lemma getLSPClient_children w : children (snd (getLSPClient w)) = children w.
Proof. unfold getLSPClient. now destruct (client w). Qed.

Lemma getLSPClient_wire w : wire (snd (getLSPClient w)) = wire w.
Proof. unfold getLSPClient. now destruct (client w). Qed.

Lemma on_ok k h w : well_formed w -> well_formed (on k h w).
Proof.
  unfold well_formed, on. destruct (client w) as [c|] eqn:E; [|now rewrite E].
  simpl. unfold client_ok; simpl. tauto.
Qed.

Lemma on_facts k h w :
  children (on k h w) = children w /\ wire (on k h w) = wire w /\
  option_map state (client (on k h w)) = option_map state (client w) /\
  option_map process (client (on k h w)) = option_map process (client w) /\
  option_map pending (client (on k h w)) = option_map pending (client w) /\
  option_map nextId (client (on k h w)) = option_map nextId (client w).
Proof. unfold on. destruct (client w) eqn:E; simpl; rewrite ?E; auto 10. Qed.

Lemma register_forwarding_ok s w : well_formed w -> well_formed (register_forwarding s w).
Proof.
  unfold register_forwarding. generalize forwarded. intros ks. revert w.
  induction ks as [|k r IH]; intros w H; [exact H|]. simpl. apply IH. now apply on_ok.
Qed.

Lemma register_forwarding_facts s w :
  children (register_forwarding s w) = children w /\
  wire (register_forwarding s w) = wire w /\
  option_map state (client (register_forwarding s w)) = option_map state (client w) /\
  option_map process (client (register_forwarding s w)) = option_map process (client w) /\
  option_map pending (client (register_forwarding s w)) = option_map pending (client w) /\
  option_map nextId (client (register_forwarding s w)) = option_map nextId (client w).
Proof.
  unfold register_forwarding. generalize forwarded. intros ks. revert w.
  induction ks as [|k r IH]; intros w; [auto 10|]. simpl.
  destruct (IH (on k s w)) as (A & B & C & D & E & F).
  destruct (on_facts k s w) as (A' & B' & C' & D' & E' & F').
  repeat split; congruence.
Qed.

Lemma idle_alive c w :
  client_ok c w -> state c = Stopped \/ state c = Crashed ->
  process c = None /\ pending c = [] /\ alive w = 0.
Proof.
  intros (Hproc & Hidle & _) Hst. destruct (Hidle Hst) as [Hp Hq].
  rewrite Hp in Hproc. auto.
Qed.

Lemma ended_ok st c chl wr :
  st = Stopped \/ st = Crashed -> alive_count chl = 0 ->
  client_ok (ended st c) {| client := Some (ended st c); children := chl; wire := wr |}.
Proof.
  intros Hst Hz. unfold client_ok; simpl.
  split; [exact Hz|].
  split; [auto|].
  split; [intros ->; destruct Hst; discriminate|].
  split; [intros ->; destruct Hst; discriminate|].
  split; [intros ->; destruct Hst; discriminate | constructor].
Qed.

Lemma spawned_ok c w path :
  client_ok c w -> state c = Stopped \/ state c = Crashed ->
  well_formed
    {| client := Some {|
         state := Starting;
         process := Some (List.length (children w));
         Lsp.capabilities := None;
         pending := (pending c ++ [handshake_request (nextId c)])%list;
         nextId := S (nextId c);
         subscribers := subscribers c |};
       children := (children w ++ [Alive])%list;
       wire := write (Some (List.length (children w)))
                 [Request (nextId c) "initialize" (initialize_params path)]
                 (wire w) |}.
Proof.
  intros Hok Hst. destruct (idle_alive _ _ Hok Hst) as (Hp & Hq & Hz).
  unfold well_formed, client_ok; simpl. rewrite Hq. simpl.
  split; [split|].
  - apply nth_error_fresh.
  - unfold alive in *; simpl. fold (alive_count (children w ++ [Alive])%list).
    rewrite alive_count_app. fold (alive_count (children w)) in Hz. now rewrite Hz.
  - split; [intros [?|?]; discriminate|].
    split; [intros _; split; [discriminate | now exists (nextId c)]|].
    split; [discriminate|].
    split; [discriminate|].
    repeat constructor.
Qed.

Lemma start_ok path spawn w : well_formed w -> well_formed (snd (start path spawn w)).
Proof.
  unfold well_formed at 1, start. destruct (client w) as [c|] eqn:E.
  2:{ intros H. unfold well_formed; simpl. now rewrite E. }
  intros Hok.
  assert (Hstay : well_formed w) by (unfold well_formed; now rewrite E).
  destruct (state c) eqn:S; try exact Hstay;
    (assert (Hst : state c = Stopped \/ state c = Crashed) by (rewrite S; auto));
    (destruct spawn; simpl; [now apply spawned_ok | apply ended_ok; auto]);
    now destruct (idle_alive _ _ Hok Hst) as (_ & _ & Hz).
Qed.

Lemma destroy_ok w : well_formed w -> well_formed (snd (destroyLSPClient w)).
Proof.
  unfold well_formed at 1, destroyLSPClient. destruct (client w) as [c|] eqn:E.
  - intros Hok. unfold well_formed; simpl. now apply (end_process_none c w).
  - intros H. unfold well_formed; simpl. now rewrite E.
Qed.

Lemma request_ok m p w : well_formed w -> well_formed (snd (request m p w)).
Proof.
  unfold well_formed at 1, request. destruct (client w) as [c|] eqn:E.
  2:{ intros H. unfold well_formed; simpl. now rewrite E. }
  intros Hok. unfold isRunning. destruct (state c) eqn:S;
    try (unfold well_formed; simpl; now rewrite E).
  destruct Hok as (Hproc & Hidle & Hstarting & Hrunning & Hnostop & Hids).
  unfold well_formed, client_ok; simpl.
  split; [exact Hproc|].
  split; [intros [?|?]; discriminate|].
  split; [discriminate|].
  split.
  { intros _. destruct (Hrunning S) as [Hp Hall]. split; [exact Hp|].
    apply Forall_app. split; [exact Hall | now repeat constructor]. }
  split; [discriminate|].
  apply Forall_app. split.
  - eapply Forall_impl; [|exact Hids]. simpl. intros; lia.
  - repeat constructor.
Qed.

Lemma notify_ok m p w : well_formed w -> well_formed (snd (notify m p w)).
Proof.
  unfold well_formed at 1, notify. destruct (client w) as [c|] eqn:E.
  2:{ intros H. unfold well_formed; simpl. now rewrite E. }
  intros Hok. destruct (isRunning c); unfold well_formed; simpl; rewrite ?E; exact Hok.
Qed.

Lemma emit_ok ev w : well_formed w -> well_formed (snd (emit ev w)).
Proof.
  unfold emit. destruct (client w) as [c|]; [|auto]. now destruct (process c).
Qed.

Lemma find_pending_some id l pr :
  find_pending id l = Some pr -> In pr l /\ pr_id pr = id.
Proof.
  unfold find_pending. intros H. apply find_some in H as [Hin Hid].
  split; [exact Hin|]. now apply Nat.eqb_eq.
Qed.

Lemma remove_pending_incl id l : incl (remove_pending id l) l.
Proof. intros x Hx. unfold remove_pending in Hx. now apply filter_In in Hx. Qed.

Lemma Forall_remove_pending (P : PendingRequest -> Prop) id l :
  Forall P l -> Forall P (remove_pending id l).
Proof.
  intros H. apply Forall_forall. intros x Hx. rewrite Forall_forall in H.
  now apply H, (remove_pending_incl id).
Qed.

(** Taking a caller's request off the table keeps the session as it is. *)
Lemma settle_caller_ok c w id pr :
  client_ok c w -> find_pending id (pending c) = Some pr -> pr_awaiter pr = Caller ->
  well_formed (put (with_pending (remove_pending id (pending c)) c) w).
Proof.
  intros (Hproc & Hidle & Hstarting & Hrunning & Hnostop & Hids) Hfind Hcaller.
  apply find_pending_some in Hfind as [Hin Hid].
  unfold well_formed, client_ok; simpl.
  split; [exact Hproc|].
  split.
  { intros Hst. destruct (Hidle Hst) as [Hp Hq]. rewrite Hq in Hin. contradiction. }
  split.
  { intros Hst. destruct (Hstarting Hst) as [_ [rid Hq]]. rewrite Hq in Hin.
    destruct Hin as [<-|[]]. discriminate. }
  split.
  { intros Hst. destruct (Hrunning Hst) as [Hp Hall]. split; [exact Hp|].
    now apply Forall_remove_pending. }
  split; [exact Hnostop|].
  now apply Forall_remove_pending.
Qed.

(** The handshake request is answered only while starting, and is then the
    one pending request. *)
Lemma handshake_pending c w id pr :
  client_ok c w -> find_pending id (pending c) = Some pr -> pr_awaiter pr = Handshake ->
  state c = Starting /\ remove_pending id (pending c) = [].
Proof.
  intros (Hproc & Hidle & Hstarting & Hrunning & Hnostop & Hids) Hfind Hhs.
  apply find_pending_some in Hfind as [Hin Hid].
  destruct (state c) eqn:S.
  - destruct (Hidle (or_introl eq_refl)) as [_ Hq]. rewrite Hq in Hin. contradiction.
  - split; [reflexivity|]. destruct (Hstarting eq_refl) as [_ [rid Hq]].
    rewrite Hq in *. destruct Hin as [<-|[]]. simpl in Hid. subst id.
    unfold remove_pending. simpl. now rewrite Nat.eqb_refl.
  - destruct (Hrunning eq_refl) as [_ Hall]. rewrite Forall_forall in Hall.
    rewrite (Hall _ Hin) in Hhs. discriminate.
  - now contradiction Hnostop.
  - destruct (Hidle (or_intror eq_refl)) as [_ Hq]. rewrite Hq in Hin. contradiction.
Qed.

Lemma fail_start_ok e c c' w :
  client_ok c w -> process c' = process c ->
  well_formed (snd (fail_start e c' w)).
Proof.
  intros Hok Hp. unfold fail_start, well_formed; simpl. apply ended_ok; [auto|].
  rewrite Hp. now apply (end_process_none c w).
Qed.

Lemma finish_start_ok caps c w :
  client_ok c w -> state c = Starting ->
  well_formed (snd (finish_start caps (with_pending [] c) w)).
Proof.
  intros (Hproc & _ & Hstarting & _) Hst.
  unfold finish_start, well_formed, client_ok; simpl.
  split; [exact Hproc|].
  split; [intros [?|?]; discriminate|].
  split; [discriminate|].
  split; [intros _; split; [apply (Hstarting Hst) | constructor]|].
  split; [discriminate | constructor].
Qed.

Lemma receive_response_ok id outcome w :
  well_formed w -> well_formed (snd (receive_response id outcome w)).
Proof.
  intros Hwf. unfold receive_response.
  destruct (client w) as [c|] eqn:E; [|exact Hwf].
  assert (Hok : client_ok c w) by (unfold well_formed in Hwf; now rewrite E in Hwf).
  destruct (find_pending id (pending c)) as [pr|] eqn:F; [|exact Hwf].
  destruct (pr_awaiter pr) eqn:A.
  - destruct (handshake_pending _ _ _ _ Hok F A) as [Hst Hempty]. rewrite Hempty.
    destruct outcome as [caps|[code m]].
    + now apply finish_start_ok.
    + now apply (fail_start_ok _ c).
  - destruct outcome as [r|[code m]]; simpl; now apply (settle_caller_ok c w id pr).
Qed.

Lemma timeout_ok id w : well_formed w -> well_formed (snd (timeout id w)).
Proof.
  intros Hwf. unfold timeout.
  destruct (client w) as [c|] eqn:E; [|exact Hwf].
  assert (Hok : client_ok c w) by (unfold well_formed in Hwf; now rewrite E in Hwf).
  destruct (find_pending id (pending c)) as [pr|] eqn:F; [|exact Hwf].
  destruct (pr_awaiter pr) eqn:A.
  - now apply (fail_start_ok _ c).
  - simpl. now apply (settle_caller_ok c w id pr).
Qed.

Lemma process_exit_ok code w : well_formed w -> well_formed (snd (process_exit code w)).
Proof.
  intros Hwf. unfold process_exit.
  destruct (client w) as [c|] eqn:E; [|exact Hwf].
  assert (Hok : client_ok c w) by (unfold well_formed in Hwf; now rewrite E in Hwf).
  destruct (process c) as [pid|] eqn:P; [|exact Hwf].
  simpl. unfold well_formed; simpl. apply ended_ok.
  - destruct (state c); auto.
  - pose proof (end_process_none c w (Exited code) Hok eq_refl) as H.
    now rewrite P in H.
Qed.

Lemma handle_ok ev w : well_formed w -> well_formed (snd (handle ev w)).
Proof.
  intros Hwf. destruct ev; simpl.
  - unfold lsp_start.
    destruct (start workspacePath spawn (register_forwarding sender (snd (getLSPClient w))))
      as [signals w3] eqn:S.
    simpl. change w3 with (snd (signals, w3)). rewrite <- S.
    now apply start_ok, register_forwarding_ok, getLSPClient_ok.
  - unfold lsp_stop. destruct (destroyLSPClient w) as [signals w1] eqn:D. simpl.
    change w1 with (snd (signals, w1)). rewrite <- D. now apply destroy_ok.
  - unfold lsp_request.
    destruct (getLSPClient w) as [c w1] eqn:G.
    assert (Hw1 : well_formed w1).
    { change w1 with (snd (c, w1)). rewrite <- G. now apply getLSPClient_ok. }
    destruct (negb (isRunning c)); [exact Hw1|].
    destruct (request method params w1) as [[e|rid] w2] eqn:R; simpl;
      change w2 with (snd (@inl LspError nat e, w2)) ||
      change w2 with (snd (@inr LspError nat rid, w2));
      rewrite <- R; now apply request_ok.
  - unfold lsp_notify.
    destruct (getLSPClient w) as [c w1] eqn:G.
    assert (Hw1 : well_formed w1).
    { change w1 with (snd (c, w1)). rewrite <- G. now apply getLSPClient_ok. }
    destruct (negb (isRunning c)); [exact Hw1|].
    destruct (notify method params w1) as [[e|] w2] eqn:R; simpl;
      change w2 with (snd (Some e, w2)) || change w2 with (snd (@None LspError, w2));
      rewrite <- R; now apply notify_ok.
  - unfold lsp_isRunning. destruct (getLSPClient w) as [c w1] eqn:G. simpl.
    change w1 with (snd (c, w1)). rewrite <- G. now apply getLSPClient_ok.
  - unfold window_all_closed. destruct (destroyLSPClient w) as [signals w1] eqn:D.
    simpl. change w1 with (snd (signals, w1)). rewrite <- D. now apply destroy_ok.
  - now apply receive_response_ok.
  - now apply emit_ok.
  - now apply timeout_ok.
  - now apply process_exit_ok.
Qed.

Lemma run_ok evs : forall w, well_formed w -> well_formed (run evs w).
Proof.
  induction evs as [|ev rest IH]; intros w H; [exact H|].
  simpl. now apply IH, handle_ok.
Qed.

Lemma well_formed_alive w : well_formed w -> alive w <= 1.
Proof.
  unfold well_formed. destruct (client w) as [c|]; [|lia].
  intros (Hproc & _). destruct (process c); [destruct Hproc|]; lia.
Qed.

(** *** The handlers, case by case *)

Lemma registered_client s w :
  exists c', client (register_forwarding s (snd (getLSPClient w))) = Some c' /\
             state c' = observed_state w /\
             process c' = process (fst (getLSPClient w)) /\
             pending c' = pending (fst (getLSPClient w)) /\
             nextId c' = nextId (fst (getLSPClient w)).
Proof.
  destruct (register_forwarding_facts s (snd (getLSPClient w))) as (_ & _ & A & B & C & D).
  rewrite getLSPClient_client in A, B, C, D. simpl in *.
  destruct (client (register_forwarding s (snd (getLSPClient w)))) as [c'|];
    [|discriminate].
  exists c'. simpl in *. unfold observed_state. repeat split; congruence.
Qed.

Lemma registered_children s w :
  children (register_forwarding s (snd (getLSPClient w))) = children w /\
  wire (register_forwarding s (snd (getLSPClient w))) = wire w.
Proof.
  destruct (register_forwarding_facts s (snd (getLSPClient w))) as (A & B & _).
  now rewrite A, B, getLSPClient_children, getLSPClient_wire.
Qed.

(** [start] on a client that is starting, running or stopping. *)
Lemma lsp_start_busy s path spawn w :
  busy (observed_state w) = true ->
  handle (IpcStart s path spawn) w =
  ([Replied LspStart (failed (message AlreadyRunningError))],
   register_forwarding s (snd (getLSPClient w))).
Proof.
  intros Hbusy. simpl. unfold lsp_start, start.
  destruct (registered_client s w) as (c' & -> & Hst & _).
  rewrite Hst. now destruct (observed_state w).
Qed.


(** [start] from Stopped or Crashed when the server is spawned: the call
    stays pending on the handshake. *)
Lemma lsp_start_spawned s path w :
  well_formed w -> busy (observed_state w) = false ->
  exists c1,
    handle (IpcStart s path SpawnOk) w =
    ([], {| client := Some c1;
            children := (children w ++ [Alive])%list;
            wire := (wire w ++
                     [(List.length (children w),
                       Request (nextId (fst (getLSPClient w))) "initialize"
                               (initialize_params path))])%list |}) /\
    state c1 = Starting /\
    process c1 = Some (List.length (children w)) /\
    pending c1 = [handshake_request (nextId (fst (getLSPClient w)))].
Proof.
  intros Hwf Hidle. simpl. unfold lsp_start, start.
  destruct (registered_client s w) as (c' & Hc & Hst & Hp & Hq & Hn).
  destruct (registered_children s w) as [Hch Hwi].
  assert (Hempty : pending c' = []).
  { pose proof (getLSPClient_ok _ Hwf) as Hok. unfold well_formed in Hok.
    rewrite getLSPClient_client in Hok. rewrite Hq.
    apply (idle_alive _ _ Hok). fold (observed_state w).
    destruct (observed_state w); auto; discriminate. }
  rewrite Hc, Hst, Hch, Hwi, Hn, Hempty.
  destruct (observed_state w); try discriminate; simpl; eexists; split;
    try reflexivity; auto.
Qed.

Lemma observed_client w st :
  observed_state w = st -> st <> Stopped ->
  exists c, client w = Some c /\ state c = st /\ getLSPClient w = (c, w).
Proof.
  unfold observed_state, getLSPClient. destruct (client w) as [c|]; simpl.
  - intros <- _. now exists c.
  - intros <- H. now contradiction H.
Qed.

Lemma observed_put c w : observed_state (put c w) = state c.
Proof. reflexivity. Qed.

Lemma observed_some w c : client w = Some c -> observed_state w = state c.
Proof. unfold observed_state, getLSPClient. now intros ->. Qed.

(** The answer to the handshake request, while starting. *)
Lemma starting_world w :
  well_formed w -> observed_state w = Starting ->
  exists c rid, client w = Some c /\ client_ok c w /\ state c = Starting /\
                pending c = [handshake_request rid].
Proof.
  intros Hwf Hst. destruct (observed_client w Starting Hst) as (c & Hc & Hs & _);
    [discriminate|].
  unfold well_formed in Hwf. rewrite Hc in Hwf. pose proof Hwf as Hok.
  destruct Hwf as (Hproc & Hidle & Hstarting & Hrest).
  destruct (Hstarting Hs) as [_ [rid Hq]]. exists c, rid. auto.
Qed.

Lemma find_handshake rid :
  find_pending rid [handshake_request rid] = Some (handshake_request rid) /\
  remove_pending rid [handshake_request rid] = [].
Proof.
  unfold find_pending, remove_pending. simpl. now rewrite Nat.eqb_refl.
Qed.

Lemma handshake_answered w c rid outcome :
  client w = Some c -> pending c = [handshake_request rid] ->
  receive_response rid outcome w =
  match outcome with
  | inl caps => finish_start caps (with_pending [] c) w
  | inr (code, m) => fail_start (ServerError code m) (with_pending [] c) w
  end.
Proof.
  intros Hc Hq. unfold receive_response. rewrite Hc, Hq.
  destruct (find_handshake rid) as [-> ->]. reflexivity.
Qed.



(** Events that are neither a stop nor a crash leave a running session
    running, and spawn nothing. *)
Lemma quiet_keeps_running ev w :
  well_formed w -> quiet ev = true -> observed_state w = Running ->
  observed_state (snd (handle ev w)) = Running /\
  children (snd (handle ev w)) = children w.
Proof.
  intros Hwf Hq Hrun.
  destruct (observed_client w Running Hrun) as (c & Hc & Hs & Hget); [discriminate|].
  assert (Hok : client_ok c w) by (unfold well_formed in Hwf; now rewrite Hc in Hwf).
  assert (Hsettle : forall id pr,
             find_pending id (pending c) = Some pr -> pr_awaiter pr = Caller).
  { intros id pr F. destruct (pr_awaiter pr) eqn:A; [|reflexivity].
    destruct (handshake_pending _ _ _ _ Hok F A) as [Hst _]. congruence. }
  destruct ev; try discriminate.
  - rewrite lsp_start_busy by now rewrite Hrun.
    destruct (registered_client sender w) as (c' & Hc' & Hst' & _).
    destruct (registered_children sender w) as [Hch _].
    split; [|exact Hch]. cbn [snd]. rewrite (observed_some _ _ Hc'). congruence.
  - simpl. unfold lsp_request, request. rewrite Hget, Hc. unfold isRunning.
    rewrite Hs. simpl. unfold observed_state. simpl. auto.
  - simpl. unfold lsp_notify, notify. rewrite Hget, Hc. unfold isRunning.
    rewrite Hs. simpl. unfold observed_state, getLSPClient. simpl. auto.
  - simpl. unfold lsp_isRunning. rewrite Hget. simpl. auto.
  - simpl. unfold receive_response. rewrite Hc.
    destruct (find_pending id (pending c)) as [pr|] eqn:F; [|simpl; auto].
    rewrite (Hsettle _ _ F).
    destruct outcome as [r|[code m]]; simpl; rewrite observed_put; simpl; auto.
  - simpl. unfold emit. rewrite Hc. destruct (process c); simpl; auto.
  - simpl. unfold timeout. rewrite Hc.
    destruct (find_pending id (pending c)) as [pr|] eqn:F; [|simpl; auto].
    rewrite (Hsettle _ _ F). simpl. rewrite observed_put. simpl. auto.
Qed.

Lemma quiet_run_keeps_running evs : forall w,
  well_formed w -> forallb quiet evs = true -> observed_state w = Running ->
  observed_state (run evs w) = Running /\ children (run evs w) = children w.
Proof.
  induction evs as [|ev rest IH]; intros w Hwf Hq Hrun; [auto|].
  simpl in Hq. apply andb_true_iff in Hq as [Hq1 Hq2].
  destruct (quiet_keeps_running ev w Hwf Hq1 Hrun) as [Hrun' Hch].
  simpl. destruct (IH _ (handle_ok ev w Hwf) Hq2 Hrun') as [A B].
  split; [exact A | congruence].
Qed.

Lemma handshake_success w c rid caps :
  client w = Some c -> pending c = [handshake_request rid] ->
  fst (handle (ServerResponse rid (inl caps)) w) =
    [Replied LspStart {| success := true; capabilities := Some caps;
                         result := None; error := None |}] /\
  observed_state (snd (handle (ServerResponse rid (inl caps)) w)) = Running /\
  option_map Lsp.capabilities (client (snd (handle (ServerResponse rid (inl caps)) w)))
    = Some (Some caps) /\
  children (snd (handle (ServerResponse rid (inl caps)) w)) = children w.
Proof.
  intros Hc Hq. simpl. rewrite (handshake_answered w c rid _ Hc Hq).
  repeat split.
Qed.



(** *** Helpers for the claims *)

Lemma not_running w : observed_state w <> Running -> isRunning (fst (getLSPClient w)) = false.
Proof.
  unfold observed_state, isRunning. destruct (state (fst (getLSPClient w))); auto.
  intros H. now contradiction H.
Qed.

Lemma observed_getLSPClient w : observed_state (snd (getLSPClient w)) = observed_state w.
Proof.
  unfold observed_state, getLSPClient. destruct (client w) eqn:E; simpl; now rewrite ?E.
Qed.

Lemma destroyed w : client (snd (destroyLSPClient w)) = None.
Proof. unfold destroyLSPClient. now destruct (client w) eqn:E. Qed.

Lemma destroyed_wire w : wire (snd (destroyLSPClient w)) = wire w.
Proof. unfold destroyLSPClient. now destruct (client w). Qed.

Lemma lsp_stop_world w : snd (handle IpcStop w) = snd (destroyLSPClient w).
Proof. simpl. unfold lsp_stop. now destruct (destroyLSPClient w). Qed.








(** *** The claims about starting *)

(** [start] on a client that is starting, running or stopping: the client
    throws AlreadyRunningError, the handler turns it into a failure, and
    nothing else changes. *)
Lemma start_refused s path spawn w :
  busy (observed_state w) = true ->
  fst (start path spawn (register_forwarding s (snd (getLSPClient w)))) =
    [StartSettled (inr AlreadyRunningError)] /\
  fst (handle (IpcStart s path spawn) w) =
    [Replied LspStart {| success := false; capabilities := None; result := None;
                         error := Some (message AlreadyRunningError) |}] /\
  children (snd (handle (IpcStart s path spawn) w)) = children w /\
  wire (snd (handle (IpcStart s path spawn) w)) = wire w /\
  observed_state (snd (handle (IpcStart s path spawn) w)) = observed_state w.
Proof.
  intros Hb. rewrite (lsp_start_busy _ _ _ _ Hb). cbn [fst snd].
  destruct (registered_children s w) as [Hch Hwi].
  destruct (registered_client s w) as (c' & Hc' & Hst' & _).
  split.
  { unfold start. rewrite Hc', Hst'. now destruct (observed_state w). }
  repeat split; auto. now rewrite (observed_some _ _ Hc').
Qed.

(** C1. At most one session, hence at most one live server process, exists
    at any time: whatever the renderer calls and whatever the children do,
    the host never has more than one live child. A call of [start] on a
    client that is starting, running or stopping fails: the client throws
    AlreadyRunningError, the handler answers [{success: false}] with the
    message of that error, and nothing is spawned. In particular, after a
    [start] that succeeded, a second [start] with no stop and no crash in
    between fails in that way, and the child of the first call is still the
    only one. *)
Theorem single_session :
  (forall evs : list Event, alive (run evs initial) <= 1) /\
  (forall (w : World) (sender : nat) (path : string) (spawn : SpawnOutcome),
      busy (observed_state w) = true ->
      fst (start path spawn (register_forwarding sender (snd (getLSPClient w)))) =
        [StartSettled (inr AlreadyRunningError)] /\
      fst (handle (IpcStart sender path spawn) w) =
        [Replied LspStart {| success := false; capabilities := None; result := None;
                             error := Some (message AlreadyRunningError) |}] /\
      children (snd (handle (IpcStart sender path spawn) w)) = children w /\
      wire (snd (handle (IpcStart sender path spawn) w)) = wire w /\
      observed_state (snd (handle (IpcStart sender path spawn) w)) = observed_state w) /\
  (forall (w : World) (sender : nat) (path : string) (caps : Json)
          (evs : list Event) (sender' : nat) (path' : string) (spawn' : SpawnOutcome),
      well_formed w -> busy (observed_state w) = false ->
      forallb quiet evs = true ->
      let rid := nextId (fst (getLSPClient w)) in
      let w1 := snd (handle (IpcStart sender path SpawnOk) w) in
      let w2 := snd (handle (ServerResponse rid (inl caps)) w1) in
      let w3 := run evs w2 in
      fst (start path' spawn' (register_forwarding sender' (snd (getLSPClient w3)))) =
        [StartSettled (inr AlreadyRunningError)] /\
      fst (handle (IpcStart sender' path' spawn') w3) =
        [Replied LspStart {| success := false; capabilities := None; result := None;
                             error := Some (message AlreadyRunningError) |}] /\
      children (snd (handle (IpcStart sender' path' spawn') w3)) =
        (children w ++ [Alive])%list /\
      alive (snd (handle (IpcStart sender' path' spawn') w3)) = 1).
Proof.
  split; [|split; [exact (fun w s p sp => start_refused s p sp w)|]].
  - intros evs. apply well_formed_alive, run_ok, well_formed_initial.
  - intros w sender path caps evs sender' path' spawn' Hwf Hidle Hq rid w1 w2 w3.
    destruct (lsp_start_spawned sender path w Hwf Hidle) as (c1 & Hstart & Hs1 & Hp1 & Hq1).
    assert (Hwf1 : well_formed w1) by now apply handle_ok.
    assert (Hw1 : client w1 = Some c1 /\ children w1 = (children w ++ [Alive])%list).
    { unfold w1. rewrite Hstart. split; reflexivity. }
    destruct Hw1 as [Hc1 Hch1].
    destruct (handshake_success w1 c1 rid caps Hc1 Hq1) as (_ & Hrun2 & _ & Hch2).
    fold w2 in Hrun2, Hch2.
    assert (Hwf2 : well_formed w2) by now apply handle_ok.
    destruct (quiet_run_keeps_running evs w2 Hwf2 Hq Hrun2) as [Hrun3 Hch3].
    fold w3 in Hrun3, Hch3.
    assert (Hb3 : busy (observed_state w3) = true) by now rewrite Hrun3.
    destruct (start_refused sender' path' spawn' w3 Hb3) as (Hthrow & Hreply & Hch4 & _ & Hst4).
    split; [exact Hthrow|]. split; [exact Hreply|]. split; [congruence|].
    assert (Hwf4 : well_formed (snd (handle (IpcStart sender' path' spawn') w3))).
    { apply handle_ok. unfold w3. now apply run_ok. }
    pose proof (well_formed_alive _ Hwf4) as Hle.
    unfold alive in *. rewrite Hch4, Hch3, Hch2, Hch1 in *.
    fold (alive_count (children w ++ [Alive])%list) in *.
    rewrite alive_count_app in *. change (alive_count [Alive]) with 1 in *. lia.
Qed.

(** C6. A [start] that succeeds returns [{success: true}] with the
    capabilities the handshake produced, and leaves the client Running: from
    Stopped or Crashed, with the server spawned, the call stays pending in
    state Starting, and the result of the initialize request settles it.
    The same holds in whatever well-formed world the handshake is
    answered. *)
Theorem start_success_reaches_running :
  (forall (w : World) (sender : nat) (path : string) (caps : Json),
      well_formed w -> busy (observed_state w) = false ->
      let rid := nextId (fst (getLSPClient w)) in
      let w1 := snd (handle (IpcStart sender path SpawnOk) w) in
      fst (handle (IpcStart sender path SpawnOk) w) = [] /\
      observed_state w1 = Starting /\
      fst (handle (ServerResponse rid (inl caps)) w1) =
        [Replied LspStart {| success := true; capabilities := Some caps;
                             result := None; error := None |}] /\
      observed_state (snd (handle (ServerResponse rid (inl caps)) w1)) = Running /\
      option_map Lsp.capabilities (client (snd (handle (ServerResponse rid (inl caps)) w1)))
        = Some (Some caps)) /\
  (forall w1 : World,
      well_formed w1 -> observed_state w1 = Starting ->
      exists rid, pending_of w1 = [handshake_request rid] /\
        forall caps : Json,
          fst (handle (ServerResponse rid (inl caps)) w1) =
            [Replied LspStart {| success := true; capabilities := Some caps;
                                 result := None; error := None |}] /\
          observed_state (snd (handle (ServerResponse rid (inl caps)) w1)) = Running /\
          option_map Lsp.capabilities
            (client (snd (handle (ServerResponse rid (inl caps)) w1))) = Some (Some caps)).
Proof.
  split.
  - intros w sender path caps Hwf Hidle rid w1.
    destruct (lsp_start_spawned sender path w Hwf Hidle) as (c1 & Hstart & Hs1 & Hp1 & Hq1).
    assert (Hc1 : client w1 = Some c1) by (unfold w1; now rewrite Hstart).
    destruct (handshake_success w1 c1 rid caps Hc1 Hq1) as (A & B & C & _).
    rewrite Hstart. cbn [fst]. rewrite (observed_some _ _ Hc1). auto.
  - intros w1 Hwf Hst.
    destruct (starting_world w1 Hwf Hst) as (c & rid & Hc & Hok & Hs & Hq).
    exists rid. split; [unfold pending_of; now rewrite Hc|].
    intros caps. destruct (handshake_success w1 c rid caps Hc Hq) as (A & B & C & _).
    auto.
Qed.



(** *** The claims about calls on a client that is not running *)

(** C2. Whenever the client is not Running, [request] and [notify] fail
    fast: the handler returns [{success: false}] with the error "LSP server
    not running", which contains "not running", and nothing reaches a server
    process: no frame is written, no child is created or ended, the state
    stays what it was. This is so after [stop] has completed, whatever the
    host was doing. *)
Theorem not_running_fails_fast :
  JS.includes "not running" "LSP server not running" = true /\
  (forall (w : World) (method : string) (params : Json),
      observed_state w <> Running ->
      (fst (handle (IpcRequest method params) w) =
         [Replied LspRequest {| success := false; capabilities := None; result := None;
                                error := Some "LSP server not running" |}] /\
       wire (snd (handle (IpcRequest method params) w)) = wire w /\
       children (snd (handle (IpcRequest method params) w)) = children w /\
       observed_state (snd (handle (IpcRequest method params) w)) = observed_state w) /\
      (fst (handle (IpcNotify method params) w) =
         [Replied LspNotify {| success := false; capabilities := None; result := None;
                               error := Some "LSP server not running" |}] /\
       wire (snd (handle (IpcNotify method params) w)) = wire w /\
       children (snd (handle (IpcNotify method params) w)) = children w /\
       observed_state (snd (handle (IpcNotify method params) w)) = observed_state w)) /\
  (forall (w : World) (method : string) (params : Json),
      let w' := snd (handle IpcStop w) in
      fst (handle (IpcRequest method params) w') =
        [Replied LspRequest {| success := false; capabilities := None; result := None;
                               error := Some "LSP server not running" |}] /\
      fst (handle (IpcNotify method params) w') =
        [Replied LspNotify {| success := false; capabilities := None; result := None;
                              error := Some "LSP server not running" |}] /\
      wire (snd (handle (IpcRequest method params) w')) = wire w /\
      wire (snd (handle (IpcNotify method params) w')) = wire w).
Proof.
  assert (Hfast : forall w method params,
      observed_state w <> Running ->
      handle (IpcRequest method params) w =
        ([Replied LspRequest {| success := false; capabilities := None; result := None;
                                error := Some "LSP server not running" |}],
         snd (getLSPClient w)) /\
      handle (IpcNotify method params) w =
        ([Replied LspNotify {| success := false; capabilities := None; result := None;
                               error := Some "LSP server not running" |}],
         snd (getLSPClient w))).
  { intros w method params Hnr. apply not_running in Hnr. simpl.
    unfold lsp_request, lsp_notify.
    destruct (getLSPClient w) as [c w1] eqn:G. simpl in *. now rewrite Hnr. }
  split; [reflexivity|]. split.
  - intros w method params Hnr. destruct (Hfast w method params Hnr) as [-> ->].
    cbn [fst snd].
    rewrite getLSPClient_wire, getLSPClient_children, observed_getLSPClient. auto 10.
  - intros w method params w'.
    assert (Hnr : observed_state w' <> Running).
    { unfold w', observed_state, getLSPClient. rewrite lsp_stop_world, destroyed.
      discriminate. }
    destruct (Hfast w' method params Hnr) as [-> ->]. cbn [fst snd].
    rewrite getLSPClient_wire. unfold w'. rewrite lsp_stop_world, destroyed_wire. auto.
Qed.

(** *** The claims about stopping *)






End Facts.

#[local] Existing Instance sample_texts.

(** *** The theorems at concrete worlds *)


Lemma single_session_witness :
  fst (handle (IpcStart 8 "/other" SpawnOk) sample_running) =
    [Replied LspStart {| success := false; capabilities := None; result := None;
                         error := Some (message AlreadyRunningError) |}] /\
  children (snd (handle (IpcStart 8 "/other" SpawnOk) sample_running)) = [Alive] /\
  alive (snd (handle (IpcStart 8 "/other" SpawnOk) sample_running)) = 1.
Proof.
  destruct (single_session (texts := sample_texts)) as (_ & _ & Hsecond).
  destruct (Hsecond initial 7 "/proj" (JObject [("hoverProvider", JBool true)])
                    [IpcRequest "textDocument/hover" JNull] 8 "/other" SpawnOk)
    as (_ & A & B & C).
  - exact well_formed_initial.
  - reflexivity.
  - reflexivity.
  - split; [exact A | split; [exact B | exact C]].
Defined.

Lemma start_success_reaches_running_witness :
  observed_state
    (snd (handle (ServerResponse 1 (inl (JObject [])))
                 (snd (handle (IpcStart 7 "/proj" SpawnOk) initial)))) = Running.
Proof.
  destruct (start_success_reaches_running (texts := sample_texts)) as (Hstart & _).
  apply (Hstart initial 7 "/proj" (JObject [])).
  - exact well_formed_initial.
  - reflexivity.
Defined.


Lemma not_running_fails_fast_witness :
  fst (handle (IpcRequest "textDocument/hover" JNull) initial) =
    [Replied LspRequest {| success := false; capabilities := None; result := None;
                           error := Some "LSP server not running" |}] /\
  wire (snd (handle (IpcRequest "textDocument/hover" JNull) initial)) = [] /\
  children (snd (handle (IpcRequest "textDocument/hover" JNull) initial)) = [] /\
  observed_state (snd (handle (IpcRequest "textDocument/hover" JNull) initial)) = Stopped.
Proof.
  destruct (not_running_fails_fast (texts := sample_texts)) as (_ & Hfast & _).
  apply (Hfast initial "textDocument/hover" JNull). discriminate.
Defined.


End MainFacts.
(** ** The preload bridge *)

Module PreloadFacts.
Import Lsp Preload.

Lemma registered_key channel l e : registered_as channel l e = true -> key e = closure l.
Proof.
  unfold registered_as, same_listener, key. intros H.
  apply andb_true_iff in H as [_ H]. now apply Nat.eqb_eq.
Qed.

(** Where at most one element can satisfy [p], removing the first that does
    removes all that do. *)
Lemma remove_first_filter {A} (k : A -> nat) (p : A -> bool) (k0 : nat) (l : list A) :
  (forall x, p x = true -> k x = k0) -> NoDup (map k l) ->
  remove_first p l = filter (fun x => negb (p x)) l.
Proof.
  intros Hp. induction l as [|x r IH]; intros Hnd; [reflexivity|].
  simpl in *. inversion Hnd as [|? ? Hnotin Hnd']; subst.
  destruct (p x) eqn:E; simpl.
  - symmetry. apply forallb_filter_id. apply forallb_forall. intros y Hy.
    destruct (p y) eqn:E'; [|reflexivity]. exfalso. apply Hnotin.
    rewrite (Hp _ E), <- (Hp _ E'). now apply in_map.
  - f_equal. now apply IH.
Qed.

Lemma NoDup_map_filter {A} (k : A -> nat) (f : A -> bool) (l : list A) :
  NoDup (map k l) -> NoDup (map k (filter f l)).
Proof.
  induction l as [|x r IH]; intros Hnd; [constructor|].
  simpl in *. inversion Hnd as [|? ? Hnotin Hnd']; subst.
  destruct (f x); simpl; [|now apply IH].
  constructor; [|now apply IH]. intros Hin. apply Hnotin.
  apply in_map_iff in Hin as (y & Hy & Hin). apply filter_In in Hin as [Hin _].
  rewrite <- Hy. now apply in_map.
Qed.

(** On a renderer whose listeners are distinct closures, a disposer removes
    the entries registered under its channel and its closure, and those
    only. *)
Lemma dispose_filter d r :
  distinct_closures r ->
  listeners (dispose d r) =
  filter (fun e => negb (registered_as (fst d) (snd d) e)) (listeners r).
Proof.
  intros [Hnd _]. unfold dispose, removeListener; simpl.
  rewrite (remove_first_filter key _ (closure (snd d))).
  - now rewrite filter_rev, rev_involutive.
  - intros x. apply registered_key.
  - rewrite map_rev. now apply NoDup_rev.
Qed.

Lemma dispose_distinct_closures d r : distinct_closures r -> distinct_closures (dispose d r).
Proof.
  intros Hwf. pose proof (dispose_filter d r Hwf) as Heq.
  destruct Hwf as [Hnd Hlt]. unfold distinct_closures. rewrite Heq. split.
  - now apply (NoDup_map_filter key).
  - change (allocated (dispose d r)) with (allocated r).
    apply Forall_forall. intros e He. apply filter_In in He as [He _].
    rewrite Forall_forall in Hlt. now apply Hlt.
Qed.

Lemma subscribe_distinct_closures m cb r :
  distinct_closures r -> distinct_closures (snd (subscribe m cb r)).
Proof.
  intros [Hnd Hlt]. unfold distinct_closures, subscribe; simpl. split.
  - rewrite map_app. simpl. apply NoDup_app; [exact Hnd | repeat constructor; auto |].
    intros a Ha [<-|[]]. apply in_map_iff in Ha as (e & He & Hin).
    rewrite Forall_forall in Hlt. specialize (Hlt e Hin). unfold key in *. simpl in He. lia.
  - apply Forall_app. split.
    + eapply Forall_impl; [|exact Hlt]. simpl. intros; lia.
    + repeat constructor.
Qed.

Lemma removeAllListeners_distinct_closures channel r :
  distinct_closures r -> distinct_closures (removeAllListeners channel r).
Proof.
  intros [Hnd Hlt]. unfold distinct_closures, removeAllListeners; simpl. split.
  - now apply (NoDup_map_filter key).
  - apply Forall_forall. intros e He. apply filter_In in He as [He _].
    rewrite Forall_forall in Hlt. now apply Hlt.
Qed.

Lemma removeListeners_distinct_closures r :
  distinct_closures r -> distinct_closures (removeListeners r).
Proof.
  intros H. unfold removeListeners.
  now repeat apply removeAllListeners_distinct_closures.
Qed.

Lemma empty_distinct_closures : distinct_closures {| listeners := []; allocated := 0 |}.
Proof. split; constructor. Qed.

(** The handler a subscription registers is a closure no listener was. *)
Lemma subscribe_fresh m cb r e :
  distinct_closures r -> In e (listeners r) ->
  registered_as (fst (fst (subscribe m cb r))) (snd (fst (subscribe m cb r))) e = false.
Proof.
  intros [_ Hlt] Hin. unfold subscribe, registered_as, same_listener; simpl.
  rewrite Forall_forall in Hlt. specialize (Hlt e Hin).
  replace (Nat.eqb (closure (snd e)) (allocated r)) with false.
  - apply andb_false_r.
  - symmetry. apply Nat.eqb_neq. lia.
Qed.

(** Each of [onDiagnostics], [onLog], [onError] and [onClose] registers one
    handler on its channel and returns a disposer that removes that handler
    and no other: right after the subscription it restores the listeners as
    they were; later, whatever was registered or removed in between, it
    removes from the listeners exactly the entry of its subscription, and
    nothing when that entry is gone already. *)
Lemma disposer_removes_its_handler (m : Member) (cb : nat) (r : IpcRenderer) :
  distinct_closures r ->
  let d := fst (subscribe m cb r) in
  let r1 := snd (subscribe m cb r) in
  listeners r1 = (listeners r ++ [d])%list /\
  fst d = member_channel m /\ callback (snd d) = cb /\
  receivers (member_channel m) r1 = (receivers (member_channel m) r ++ [cb])%list /\
  listeners (dispose d r1) = listeners r /\
  (forall r2, distinct_closures r2 ->
     listeners (dispose d r2) =
     filter (fun e => negb (registered_as (fst d) (snd d) e)) (listeners r2)).
Proof.
  intros Hwf d r1.
  split; [reflexivity|]. split; [reflexivity|]. split; [reflexivity|].
  split.
  { unfold receivers, r1, subscribe; simpl. rewrite filter_app, map_app. simpl.
    now rewrite String.eqb_refl. }
  split.
  - rewrite (dispose_filter d r1) by now apply subscribe_distinct_closures.
    change (listeners r1) with (listeners r ++ [d])%list.
    rewrite filter_app.
    assert (Hself : registered_as (fst d) (snd d) d = true).
    { unfold registered_as, same_listener. now rewrite String.eqb_refl, Nat.eqb_refl. }
    cbn [filter]. rewrite Hself. cbn [negb]. rewrite app_nil_r.
    apply forallb_filter_id, forallb_forall. intros e He.
    unfold d. now rewrite (subscribe_fresh m cb r e Hwf He).
  - intros r2 Hwf2. now apply dispose_filter.
Qed.

Section Forwarded.
Context {texts : ErrorTexts}.

(** C5. Of the five kinds of event the main process forwards to the
    renderer (diagnostics, log, showMessage, error, close), four have a
    subscription member in [window.qalam.lsp]; showMessage has none: no
    member listens on [lsp:showMessage], the channel on which [lsp:start]
    forwards it, so nothing the renderer can register receives it. *)
Theorem showMessage_has_no_subscription :
  map subscription_for Main.forwarded =
    [Some onDiagnostics; Some onLog; None; Some onError; Some onClose] /\
  Main.channel ShowMessage = "lsp:showMessage" /\
  forallb (fun m => negb (String.eqb (member_channel m) "lsp:showMessage")) members = true /\
  fst (Main.handle (Main.ServerPush (Main.InShowMessage (JString "hello")))
                   (Main.run [Main.IpcStart 7 "/proj" SpawnOk;
                              Main.ServerResponse 1 (inl (JObject []))] initial)) =
    [Main.Sent 7 "lsp:showMessage" (JString "hello")].
Proof. repeat split. Qed.

End Forwarded.

End PreloadFacts.
(** ** The wire framing *)

Module FramingFacts.
Import Framing.

Lemma byte_eqb_refl (b : Byte.byte) : Byte.eqb b b = true.
Proof. now apply Byte.byte_dec_lb. Qed.

Lemma strip_prefix_app p l t c :
  strip_prefix p l = Some t -> strip_prefix p (l ++ c)%list = Some (t ++ c)%list.
Proof.
  revert l. induction p as [|a p IH]; intros l H; simpl in *.
  - now injection H as <-.
  - destruct l as [|b l]; [discriminate|]. simpl.
    destruct (Byte.eqb a b); [now apply IH | discriminate].
Qed.

Lemma strip_prefix_exact p t : strip_prefix p (p ++ t)%list = Some t.
Proof.
  induction p as [|a p IH]; simpl; [reflexivity|].
  now rewrite byte_eqb_refl.
Qed.

Lemma strip_prefix_length p l t :
  strip_prefix p l = Some t -> List.length l = List.length p + List.length t.
Proof.
  revert l. induction p as [|a p IH]; intros l H; simpl in *.
  - now injection H as <-.
  - destruct l as [|b l]; [discriminate|].
    destruct (Byte.eqb a b); [|discriminate]. simpl. f_equal. now apply IH.
Qed.

Lemma strip_prefix_within p l c t :
  strip_prefix p (l ++ c)%list = Some t -> List.length p <= List.length l ->
  exists t', strip_prefix p l = Some t'.
Proof.
  revert l. induction p as [|a p IH]; intros l H Hlen; simpl in *.
  - now exists l.
  - destruct l as [|b l]; [simpl in Hlen; lia|]. simpl in *.
    destruct (Byte.eqb a b); [|discriminate].
    apply IH; [exact H | lia].
Qed.

Lemma find_separator_length l : forall h t,
  find_separator l = Some (h, t) ->
  List.length l = List.length h + 4 + List.length t.
Proof.
  induction l as [|b r IH]; intros h t H; [discriminate|].
  cbn [find_separator] in H.
  destruct (strip_prefix separator (b :: r)) as [after|] eqn:E.
  - injection H as <- <-. apply strip_prefix_length in E. exact E.
  - destruct (find_separator r) as [[h' t']|]; [|discriminate].
    injection H as <- <-. simpl. f_equal. now apply IH.
Qed.

(** Bytes that arrive later do not move the first separator. *)
Lemma find_separator_app l c : forall h t,
  find_separator l = Some (h, t) ->
  find_separator (l ++ c)%list = Some (h, (t ++ c)%list).
Proof.
  induction l as [|b r IH]; intros h t H; [discriminate|].
  cbn [find_separator] in H. change ((b :: r) ++ c)%list with (b :: (r ++ c))%list.
  cbn [find_separator].
  destruct (strip_prefix separator (b :: r)) as [after|] eqn:E.
  - injection H as <- <-.
    change (b :: (r ++ c))%list with ((b :: r) ++ c)%list.
    now rewrite (strip_prefix_app _ _ _ c E).
  - destruct (find_separator r) as [[h' t']|] eqn:F; [|discriminate].
    injection H as <- <-.
    rewrite (IH _ _ eq_refl).
    destruct (strip_prefix separator (b :: (r ++ c))%list) eqn:E'; [|reflexivity].
    (* a separator at the front of the longer buffer was already at the
       front of the shorter one, which holds a whole separator further on *)
    exfalso. apply find_separator_length in F.
    destruct (strip_prefix_within separator (b :: r) c _ E') as [t0 Ht0].
    + simpl. lia.
    + rewrite Ht0 in E. discriminate.
Qed.

Lemma find_separator_clean h t :
  Forall (fun b => b <> CR) h ->
  find_separator (h ++ separator ++ t)%list = Some (h, t).
Proof.
  induction 1 as [|b h Hb Hh IH].
  - simpl. now destruct t.
  - change ((b :: h) ++ separator ++ t)%list with (b :: (h ++ separator ++ t))%list.
    cbn [find_separator]. rewrite IH.
    unfold separator at 1. cbn [strip_prefix].
    destruct (Byte.eqb CR b) eqn:E; [|reflexivity].
    apply Byte.byte_dec_bl in E. now subst b.
Qed.

(** *** The length header *)

Lemma header_lines_clean h :
  Forall (fun b => b <> CR) h -> header_lines h = [h].
Proof.
  induction 1 as [|b h Hb Hh IH]; [reflexivity|].
  cbn [header_lines]. destruct h as [|b' r]; [reflexivity|].
  rewrite IH. destruct (Byte.eqb b CR) eqn:E; [|reflexivity].
  apply Byte.byte_dec_bl in E. contradiction.
Qed.

Lemma digits_clean (d : Decimal.uint) :
  Forall (fun b => b <> CR) (list_byte_of_string (NilEmpty.string_of_uint d)).
Proof.
  induction d; simpl; constructor; try assumption; discriminate.
Qed.

Lemma decimal_bytes_clean n : Forall (fun b => b <> CR) (decimal_bytes n).
Proof. apply digits_clean. Qed.

Lemma length_field_clean : Forall (fun b => b <> CR) length_field.
Proof. unfold length_field. simpl. repeat constructor; discriminate. Qed.

Lemma to_uint_nonnil n : N.to_uint n <> Decimal.Nil.
Proof.
  destruct n as [|p]; [discriminate|]. apply DecimalPos.Unsigned.to_uint_nonnil.
Qed.

Lemma parse_decimal_bytes n : parse_decimal (decimal_bytes n) = Some n.
Proof.
  unfold parse_decimal, decimal_bytes, JS.decimal.
  pose proof (to_uint_nonnil n) as Hnn.
  destruct (list_byte_of_string (NilEmpty.string_of_uint (N.to_uint n))) eqn:E.
  - exfalso. destruct (N.to_uint n); try contradiction; discriminate.
  - rewrite <- E, string_of_list_byte_of_string, NilEmpty.usu. simpl.
    now rewrite DecimalN.Unsigned.of_to.
Qed.

Lemma content_length_announced n :
  content_length (length_field ++ decimal_bytes n)%list = Some n.
Proof.
  unfold content_length. rewrite header_lines_clean.
  - cbn [announced_length]. rewrite strip_prefix_exact. apply parse_decimal_bytes.
  - apply Forall_app. split; [apply length_field_clean | apply decimal_bytes_clean].
Qed.

Section Codec.

Variable payload : Type.
Variable stringify : payload -> bytes.
Variable parse : bytes -> option payload.

#[local] Abbreviation decode_one := (decode_one payload parse).
#[local] Abbreviation drain := (drain payload parse).
#[local] Abbreviation drain_all := (drain_all payload parse).
#[local] Abbreviation push := (push payload parse).
#[local] Abbreviation decode := (decode payload parse).
#[local] Abbreviation encode := (encode payload stringify).

(** *** One frame *)

Lemma decode_one_app x y e rest :
  decode_one x = Emit e rest ->
  decode_one (x ++ y)%list = Emit e (rest ++ y)%list.
Proof.
  unfold Framing.decode_one.
  destruct (find_separator x) as [[h after]|] eqn:F; [|discriminate].
  rewrite (find_separator_app _ y _ _ F).
  destruct (content_length h) as [n|]; [|now intros [= <- <-]].
  destruct (Nat.ltb (List.length after) (N.to_nat n)) eqn:L; [discriminate|].
  intros H. apply Nat.ltb_ge in L.
  assert (L' : Nat.ltb (List.length (after ++ y)%list) (N.to_nat n) = false).
  { apply Nat.ltb_ge. rewrite length_app. lia. }
  rewrite L'. injection H as <- <-.
  rewrite firstn_app, skipn_app.
  replace (N.to_nat n - List.length after) with 0 by lia.
  simpl. now rewrite app_nil_r.
Qed.

Lemma decode_one_shorter x e rest :
  decode_one x = Emit e rest -> List.length rest < List.length x.
Proof.
  unfold Framing.decode_one.
  destruct (find_separator x) as [[h after]|] eqn:F; [|discriminate].
  apply find_separator_length in F.
  destruct (content_length h) as [n|].
  - destruct (Nat.ltb (List.length after) (N.to_nat n)); [discriminate|].
    intros [= _ <-]. rewrite length_skipn. lia.
  - intros [= _ <-]. lia.
Qed.

(** *** Draining the buffer *)

Lemma drain_rounds k k' b :
  List.length b < k -> List.length b < k' -> drain k b = drain k' b.
Proof.
  revert k' b. induction k as [|k IH]; intros k' b Hk Hk'; [lia|].
  destruct k' as [|k']; [lia|]. simpl.
  destruct (decode_one b) as [|e rest] eqn:E; [reflexivity|].
  apply decode_one_shorter in E.
  rewrite (IH k' rest); [reflexivity | lia | lia].
Qed.

Lemma drain_all_step b e rest :
  decode_one b = Emit e rest ->
  drain_all b = (e :: fst (drain_all rest), snd (drain_all rest)).
Proof.
  intros E. pose proof (decode_one_shorter _ _ _ E) as Hlt.
  remember (drain_all rest) as after eqn:Hafter.
  unfold Framing.drain_all in *. cbn [Framing.drain]. rewrite E.
  rewrite (drain_rounds (List.length b) (S (List.length rest)) rest) by lia.
  rewrite <- Hafter. now destruct after.
Qed.

Lemma drain_all_stuck b : decode_one b = NeedMore -> drain_all b = ([], b).
Proof. intros E. unfold Framing.drain_all. cbn [Framing.drain]. now rewrite E. Qed.

(** Draining a buffer that grew is draining what was there, then draining
    what that left over together with the new bytes. *)
Lemma drain_all_app y : forall x,
  drain_all (x ++ y)%list =
  (fst (drain_all x) ++ fst (drain_all (snd (drain_all x) ++ y)%list),
   snd (drain_all (snd (drain_all x) ++ y)%list))%list.
Proof.
  intros x. remember (List.length x) as n eqn:Hn.
  revert x Hn. induction n as [n IH] using lt_wf_ind. intros x Hn.
  destruct (decode_one x) as [|e rest] eqn:E.
  - rewrite (drain_all_stuck _ E). simpl.
    now destruct (drain_all (x ++ y)%list).
  - rewrite (drain_all_step _ _ _ E). cbn [fst snd].
    rewrite (drain_all_step _ _ _ (decode_one_app _ y _ _ E)).
    pose proof (decode_one_shorter _ _ _ E) as Hlt.
    rewrite (IH (List.length rest)) by (subst; auto).
    reflexivity.
Qed.

(** *** The decoder over a stream of chunks *)

(** The events of a chunked stream are those of the whole stream drained at
    once, whatever the chunk boundaries. *)
Lemma decode_chunks chunks : forall d,
  decode_one (buffer d) = NeedMore ->
  decode d chunks =
  (fst (drain_all (buffer d ++ concat chunks)%list),
   {| buffer := snd (drain_all (buffer d ++ concat chunks)%list) |}).
Proof.
  induction chunks as [|c cs IH]; intros d Hd.
  - simpl. rewrite app_nil_r, (drain_all_stuck _ Hd). now destruct d.
  - cbn [Framing.decode concat]. unfold Framing.push.
    rewrite app_assoc, (drain_all_app (concat cs) (buffer d ++ c)%list).
    destruct (drain_all (buffer d ++ c)%list) as [es left] eqn:D.
    cbn [fst snd].
    assert (Hleft : decode_one left = NeedMore).
    { clear IH. unfold Framing.drain_all in D.
      remember (S (List.length (buffer d ++ c)%list)) as k eqn:Hk.
      assert (Hlen : List.length (buffer d ++ c)%list < k) by lia.
      clear Hk. revert Hlen D. generalize (buffer d ++ c)%list as b.
      revert es. induction k as [|k IHk]; intros es b Hlen D; [lia|].
      simpl in D. destruct (decode_one b) as [|e rest] eqn:E.
      - now injection D as _ <-.
      - destruct (drain k rest) as [es' left'] eqn:D'.
        injection D as _ <-. apply decode_one_shorter in E.
        apply (IHk es' rest); [lia | exact D']. }
    rewrite (IH {| buffer := left |} Hleft). reflexivity.
Qed.

Hypothesis parse_stringify : forall p, parse (stringify p) = Some p.

Lemma decode_one_encode p : decode_one (encode p) = Emit (Message p) [].
Proof.
  unfold Framing.decode_one, Framing.encode.
  rewrite app_assoc, find_separator_clean.
  - rewrite content_length_announced, Nnat.Nat2N.id, Nat.ltb_irrefl.
    now rewrite firstn_all, skipn_all, parse_stringify.
  - apply Forall_app. split; [apply length_field_clean | apply decimal_bytes_clean].
Qed.

Lemma drain_all_encode p : drain_all (encode p) = ([Message p], []).
Proof.
  rewrite (drain_all_step _ _ _ (decode_one_encode p)).
  reflexivity.
Qed.

(** C7. Framing round trip: a fresh decoder fed the encoding of a payload
    yields exactly one message, the payload itself, and is left with an
    empty buffer, however the encoded bytes are cut into chunks (any number
    of chunks, cut at any byte offsets, so also inside a multi-byte UTF-8
    character, since the decoder buffers bytes). The JSON layer is taken as
    given: parsing what [stringify] produced returns the payload. *)
Theorem framing_round_trip :
  forall (p : payload) (chunks : list bytes),
    concat chunks = encode p ->
    decode fresh chunks = ([Message p], fresh).
Proof.
  intros p chunks Hcat.
  rewrite decode_chunks by reflexivity.
  cbn [buffer fresh app]. rewrite Hcat, drain_all_encode. reflexivity.
Qed.

End Codec.

(** *** The round trip on a concrete frame *)

Lemma framing_round_trip_witness :
  last (nth 1 sample_chunks []) Byte.x00 = Byte.xd9 /\
  decode bytes (fun b => Some b) fresh sample_chunks = ([Message sample_text], fresh).
Proof.
  split; [reflexivity|].
  apply (framing_round_trip bytes (fun b => b) (fun b => Some b)).
  - intros p. reflexivity.
  - reflexivity.
Defined.

End FramingFacts.
(** ** The tab store: ids, neighbours and cycling *)

Module TabStorePropsFacts.
Import TabStore TabStoreProps.

(** *** Generated ids *)

Lemma digits_no_dash (d : Decimal.uint) :
  has_char "-" (NilEmpty.string_of_uint d) = false.
Proof. induction d; simpl; auto. Qed.

Lemma decimal_no_dash n : has_char "-" (JS.decimal n) = false.
Proof. apply digits_no_dash. Qed.

Lemma decimal_inj n m : JS.decimal n = JS.decimal m -> n = m.
Proof.
  unfold JS.decimal. intros H.
  apply (f_equal NilEmpty.uint_of_string) in H. rewrite !NilEmpty.usu in H.
  injection H as H. now apply DecimalN.Unsigned.to_uint_inj.
Qed.

(** Two strings without a dash, each followed by a dash, are equal when the
    whole texts are. *)
Lemma before_dash s1 : forall s2 t1 t2,
  has_char "-" s1 = false -> has_char "-" s2 = false ->
  s1 ++ String "-" t1 = s2 ++ String "-" t2 -> s1 = s2.
Proof.
  induction s1 as [|a s1 IH]; intros [|b s2] t1 t2 H1 H2 E; simpl in *.
  - reflexivity.
  - injection E as <- _. rewrite Ascii.eqb_refl in H2. discriminate.
  - injection E as -> _. rewrite Ascii.eqb_refl in H1. discriminate.
  - injection E as <- E. apply orb_false_iff in H1 as [_ H1].
    apply orb_false_iff in H2 as [_ H2]. f_equal. now apply (IH s2 t1 t2).
Qed.

Lemma tab_id_counter k now k' now' : tab_id k now = tab_id k' now' -> k = k'.
Proof.
  unfold tab_id. intros H. simpl in H. injection H as H.
  apply decimal_inj. apply (before_dash _ _ _ _ (decimal_no_dash k) (decimal_no_dash k') H).
Qed.

Lemma tab_id_nonempty k now : tab_id k now <> "".
Proof. discriminate. Qed.

Lemma generateTabId_tab_id now c :
  generateTabId now c = (tab_id (c + 1) now, (c + 1)%N).
Proof. reflexivity. Qed.

(** *** Lists of tabs *)

Lemma NoDup_ids_filter (f : Tab -> bool) (l : list Tab) :
  NoDup (map id l) -> NoDup (map id (filter f l)).
Proof.
  induction l as [|x r IH]; intros Hnd; [constructor|].
  simpl in *. inversion Hnd as [|? ? Hnotin Hnd']; subst.
  destruct (f x); simpl; [|now apply IH].
  constructor; [|now apply IH]. intros Hin. apply Hnotin.
  apply in_map_iff in Hin as (y & Hy & Hin). apply filter_In in Hin as [Hin _].
  rewrite <- Hy. now apply in_map.
Qed.

Lemma NoDup_ids_app_filter (f : Tab -> bool) (l1 l2 : list Tab) :
  NoDup (map id (l1 ++ l2)%list) -> NoDup (map id (l1 ++ filter f l2)%list).
Proof.
  induction l1 as [|x r IH]; intros Hnd; simpl in *.
  - now apply NoDup_ids_filter.
  - inversion Hnd as [|? ? Hnotin Hnd']; subst.
    constructor; [|now apply IH]. intros Hin. apply Hnotin.
    rewrite map_app in *. apply in_app_or in Hin. apply in_or_app.
    destruct Hin as [Hin|Hin]; [now left | right].
    apply in_map_iff in Hin as (y & Hy & Hin). apply filter_In in Hin as [Hin _].
    rewrite <- Hy. now apply in_map.
Qed.

Lemma map_id_same (f : Tab -> Tab) (l : list Tab) :
  (forall t, id (f t) = id t) -> map id (map f l) = map id l.
Proof.
  intros H. rewrite map_map. apply map_ext. exact H.
Qed.

Lemma updateTabContent_ids i c s :
  map id (tabs (updateTabContent i c s)) = map id (tabs s).
Proof.
  unfold updateTabContent; simpl. apply map_id_same.
  intros t. now destruct (has_id i t).
Qed.

Lemma updateTabCursor_ids i l c s :
  map id (tabs (updateTabCursor i l c s)) = map id (tabs s).
Proof.
  unfold updateTabCursor; simpl. apply map_id_same.
  intros t. now destruct (has_id i t).
Qed.

Lemma markTabSaved_ids i p s :
  map id (tabs (markTabSaved i p s)) = map id (tabs s).
Proof.
  unfold markTabSaved; simpl. apply map_id_same.
  intros t. now destruct (has_id i t).
Qed.

Lemma nextTab_same_tabs s s' : nextTab s = Some s' -> tabs s' = tabs s.
Proof.
  unfold nextTab. destruct (JS.length (tabs s) <=? 1)%Z; [now intros [= <-]|].
  destruct (JS.at_index _ _); [now intros [= <-] | discriminate].
Qed.

Lemma prevTab_same_tabs s s' : prevTab s = Some s' -> tabs s' = tabs s.
Proof.
  unfold prevTab. destruct (JS.length (tabs s) <=? 1)%Z; [now intros [= <-]|].
  destruct (JS.at_index _ _); [now intros [= <-] | discriminate].
Qed.

(** What an action other than [createTab] leaves of the tabs: a selection of
    them, in their order, with their ids. *)
Lemma closeTab_tabs i s :
  tabs (snd (closeTab i s)) = tabs s \/
  tabs (snd (closeTab i s)) = filter (fun t => negb (has_id i t)) (tabs s).
Proof.
  unfold closeTab. destruct (JS.find (has_id i) (tabs s)) as [t|]; [|now left].
  destruct (isDirty t); [now left | now right].
Qed.

Lemma closeTabsToRight_tabs i s :
  tabs (closeTabsToRight i s) = tabs s \/
  exists n, tabs (closeTabsToRight i s) =
            (firstn n (tabs s) ++ filter isDirty (skipn n (tabs s)))%list.
Proof.
  unfold closeTabsToRight.
  destruct (JS.findIndex (has_id i) (tabs s) =? -1)%Z; [now left|].
  right. simpl. unfold JS.slice_to, JS.slice_from. eauto.
Qed.

Lemma closeAllTabs_tabs s : tabs (closeAllTabs s) = filter isDirty (tabs s).
Proof.
  unfold closeAllTabs.
  destruct (JS.length (filter isDirty (tabs s)) >? 0)%Z eqn:E; [reflexivity|].
  apply TabStoreFacts.length_pos_nil in E. now rewrite E.
Qed.

(** *** What the actions do to the list of tabs *)

(** An action other than [createTab] keeps the counter and either keeps the
    ids as they are or keeps a leading part of the tabs and a selection of
    the rest. *)
Lemma perform_selects a w :
  is_create a = false ->
  tabCounter (perform a w) = tabCounter w /\
  (map id (tabs (state (perform a w))) = map id (tabs (state w)) \/
   exists n f, tabs (state (perform a w)) =
               (firstn n (tabs (state w)) ++ filter f (skipn n (tabs (state w))))%list).
Proof.
  intros Hc. destruct a; try discriminate; simpl; try (split; [reflexivity|]).
  - destruct (closeTab_tabs tabId (state w)) as [->| ->]; [now left|].
    right. now exists 0, (fun t => negb (has_id tabId t)).
  - right. now exists 0, (fun t => has_id tabId t || isDirty t).
  - destruct (closeTabsToRight_tabs tabId (state w)) as [->|[n ->]]; [now left|].
    right. now exists n, isDirty.
  - right. rewrite closeAllTabs_tabs. now exists 0, isDirty.
  - now left.
  - left. apply updateTabContent_ids.
  - left. apply updateTabCursor_ids.
  - left. apply markTabSaved_ids.
  - destruct (nextTab (state w)) as [s'|] eqn:E; [|now split; [|left]].
    simpl. split; [reflexivity|]. left. now rewrite (nextTab_same_tabs _ _ E).
  - destruct (prevTab (state w)) as [s'|] eqn:E; [|now split; [|left]].
    simpl. split; [reflexivity|]. left. now rewrite (prevTab_same_tabs _ _ E).
Qed.

Lemma tabCounter_perform_create a w :
  is_create a = false -> tabCounter (perform a w) = tabCounter w.
Proof. intros H. apply (perform_selects a w H). Qed.

Lemma selection_incl {A} (f : A -> bool) n (l : list A) :
  incl (firstn n l ++ filter f (skipn n l))%list l.
Proof.
  intros x Hx. rewrite <- (firstn_skipn n l). apply in_or_app.
  apply in_app_or in Hx as [Hx|Hx]; [now left | right].
  now apply filter_In in Hx.
Qed.

Lemma selection_length {A} (f : A -> bool) n (l : list A) :
  List.length (firstn n l ++ filter f (skipn n l))%list <= List.length l.
Proof.
  assert (H : List.length l = List.length (firstn n l) + List.length (skipn n l))
    by now rewrite <- length_app, firstn_skipn.
  rewrite length_app. pose proof (filter_length_le f (skipn n l)). lia.
Qed.

(** *** The invariant of the ids *)

Lemma ids_issued_ids w :
  ids_issued w <->
  Forall (fun i => exists k now, (k <= tabCounter w)%N /\ i = tab_id k now)
         (map id (tabs (state w))).
Proof. unfold ids_issued. now rewrite Forall_map. Qed.

Lemma createTab_ids_ok p c now w :
  ids_issued w -> ids_distinct (state w) ->
  ids_issued (snd (createTab p c now w)) /\
  ids_distinct (state (snd (createTab p c now w))) /\
  ~ In (fst (createTab p c now w)) (map id (tabs (state w))).
Proof.
  intros Hiss Hnd.
  assert (Hfresh : ~ In (tab_id (tabCounter w + 1) now) (map id (tabs (state w)))).
  { intros Hin. apply in_map_iff in Hin as (t & Ht & Hin).
    unfold ids_issued in Hiss. rewrite Forall_forall in Hiss.
    destruct (Hiss t Hin) as (k & now' & Hk & Hid).
    rewrite Hid in Ht. apply tab_id_counter in Ht. lia. }
  unfold createTab. rewrite generateTabId_tab_id. cbn [fst snd state tabs tabCounter].
  repeat split.
  - unfold ids_issued. cbn [state tabs tabCounter]. apply Forall_app. split.
    + eapply Forall_impl; [|exact Hiss]. cbn beta.
      intros t (k & now' & Hk & Hid). exists k, now'. split; [lia | exact Hid].
    + repeat constructor. exists (tabCounter w + 1)%N, now. split; [lia | reflexivity].
  - unfold ids_distinct. cbn [tabs]. rewrite map_app. cbn [map id].
    apply NoDup_app; [exact Hnd | repeat constructor; auto |].
    intros a Ha [<-|[]]. now apply Hfresh.
  - exact Hfresh.
Qed.

Lemma perform_ids_ok a w :
  ids_issued w /\ ids_distinct (state w) ->
  ids_issued (perform a w) /\ ids_distinct (state (perform a w)).
Proof.
  intros [Hiss Hnd]. destruct (is_create a) eqn:Hc.
  - destruct a as [p c now| | | | | | | | | |]; try discriminate. simpl.
    destruct (createTab_ids_ok p c now w Hiss Hnd) as (A & B & _).
    now split.
  - destruct (perform_selects a w Hc) as [Hcnt [Hids|(n & f & Hsel)]].
    + split.
      * apply ids_issued_ids. rewrite Hids, Hcnt. now apply ids_issued_ids.
      * unfold ids_distinct. now rewrite Hids.
    + split.
      * unfold ids_issued. rewrite Hsel, Hcnt.
        apply (TabStoreFacts.Forall_incl _ (tabs (state w))); [|exact Hiss].
        apply selection_incl.
      * unfold ids_distinct. rewrite Hsel. apply NoDup_ids_app_filter.
        now rewrite firstn_skipn.
Qed.

Lemma perform_all_ids_ok acts : forall w,
  ids_issued w /\ ids_distinct (state w) ->
  ids_issued (perform_all acts w) /\ ids_distinct (state (perform_all acts w)).
Proof.
  induction acts as [|a r IH]; intros w H; [exact H|].
  simpl. apply IH. now apply perform_ids_ok.
Qed.

Lemma empty_ids_ok : ids_issued empty /\ ids_distinct (state empty).
Proof. split; constructor. Qed.

(** X1. The ids of the tabs of a store are pairwise distinct and none is
    empty, in every store reached from the empty one by the actions of the
    store: [generateTabId] never issues an id twice, whatever [Date.now()]
    returns, and no action copies a tab. *)
Theorem reachable_ids_distinct :
  forall acts : list Action,
    NoDup (map id (tabs (state (perform_all acts empty)))) /\
    Forall (fun t => id t <> "") (tabs (state (perform_all acts empty))).
Proof.
  intros acts. destruct (perform_all_ids_ok acts empty empty_ids_ok) as [Hiss Hnd].
  split; [exact Hnd|].
  eapply Forall_impl; [|exact Hiss]. cbn beta.
  intros t (k & now & _ & ->). apply tab_id_nonempty.
Qed.

(** *** Opening a tab *)

Lemma find_app_fresh {A} (p : A -> bool) (l : list A) (x : A) :
  (forall y, In y l -> p y = false) ->
  find p (l ++ [x])%list = if p x then Some x else None.
Proof.
  induction l as [|y r IH]; intros H; simpl; [reflexivity|].
  rewrite (H y (or_introl eq_refl)). apply IH. intros z Hz. apply H. now right.
Qed.

Lemma find_app_other {A} (p : A -> bool) (l : list A) (x : A) :
  p x = false -> find p (l ++ [x])%list = find p l.
Proof.
  intros Hx. induction l as [|y r IH]; simpl; [now rewrite Hx|].
  destruct (p y); [reflexivity | exact IH].
Qed.

(** X2. [createTab] appends a clean tab holding the given content, with the
    cursor at line 1, column 1, and makes it the active tab; in a store
    reached by the actions of the store, the id it returns designates that
    tab and no other ([getTab] and [getActiveTab] return it) and looking up
    any other id gives what it gave before. *)
Theorem createTab_opens_active_tab :
  forall (acts : list Action) (p : option string) (c : string) (now : N),
    let w := perform_all acts empty in
    let newId := fst (createTab p c now w) in
    let w' := snd (createTab p c now w) in
    let newTab := {| id := newId; filePath := p; fileName := getFileName p;
                     content := c; savedContent := c; isDirty := false;
                     cursorPosition := {| line := 1; col := 1 |} |} in
    tabs (state w') = (tabs (state w) ++ [newTab])%list /\
    activeTabId (state w') = Some newId /\
    tabCounter w' = (tabCounter w + 1)%N /\
    getTab newId (state w') = Some newTab /\
    getActiveTab (state w') = Some newTab /\
    (forall i, i <> newId -> getTab i (state w') = getTab i (state w)).
Proof.
  intros acts p c now w newId w' newTab.
  destruct (perform_all_ids_ok acts empty empty_ids_ok) as [Hiss Hnd].
  destruct (createTab_ids_ok p c now w Hiss Hnd) as (_ & _ & Hfresh).
  fold newId in Hfresh.
  assert (Htabs : tabs (state w') = (tabs (state w) ++ [newTab])%list) by reflexivity.
  assert (Hnone : forall y, In y (tabs (state w)) -> has_id newId y = false).
  { intros y Hy. unfold has_id. apply String.eqb_neq. intros Heq. apply Hfresh.
    rewrite <- Heq. now apply in_map. }
  split; [exact Htabs|]. split; [reflexivity|]. split; [reflexivity|].
  split; [|split].
  - unfold getTab, JS.find. rewrite Htabs, (find_app_fresh _ _ _ Hnone).
    unfold has_id, newTab. cbn [id].
    destruct (String.eqb_spec newId newId); [reflexivity | congruence].
  - change (getActiveTab (state w')) with (List.find (has_id newId) (tabs (state w'))).
    rewrite Htabs, (find_app_fresh _ _ _ Hnone).
    unfold has_id, newTab. cbn [id].
    destruct (String.eqb_spec newId newId); [reflexivity | congruence].
  - intros i Hi. unfold getTab, JS.find. rewrite Htabs. apply find_app_other.
    unfold has_id, newTab. cbn [id]. apply String.eqb_neq. congruence.
Qed.

Lemma createTab_opens_active_tab_witness :
  getTab "tab-1-5"
    (state (snd (createTab None "x" 6 (perform_all [CreateTab None "" 5] empty)))) =
  getTab "tab-1-5" (state (perform_all [CreateTab None "" 5] empty)).
Proof.
  destruct (createTab_opens_active_tab [CreateTab None "" 5] None "x" 6)
    as (_ & _ & _ & _ & _ & H).
  apply H. intros E. vm_compute in E. discriminate.
Defined.

(** *** Closing a tab *)

Lemma NoDup_ids_split (l1 l2 : list Tab) (t : Tab) :
  NoDup (map id (l1 ++ t :: l2)%list) ->
  (forall x, In x l1 -> has_id (id t) x = false) /\
  (forall x, In x l2 -> has_id (id t) x = false).
Proof.
  rewrite map_app. cbn [map]. intros Hnd. apply NoDup_remove_2 in Hnd.
  split; intros x Hx; unfold has_id; apply String.eqb_neq; intros Heq; apply Hnd;
    apply in_or_app; [left | right]; rewrite <- Heq; now apply in_map.
Qed.

Lemma find_middle {A} (p : A -> bool) (l1 l2 : list A) (t : A) :
  (forall x, In x l1 -> p x = false) -> p t = true ->
  find p (l1 ++ t :: l2)%list = Some t.
Proof.
  intros H Ht. induction l1 as [|y r IH]; simpl; [now rewrite Ht|].
  rewrite (H y (or_introl eq_refl)). apply IH. intros z Hz. apply H. now right.
Qed.

Lemma findIndex_from_middle {A} (p : A -> bool) (l1 l2 : list A) (t : A) : forall k,
  (forall x, In x l1 -> p x = false) -> p t = true ->
  JS.findIndex_from p (l1 ++ t :: l2)%list k = (k + Z.of_nat (List.length l1))%Z.
Proof.
  induction l1 as [|y r IH]; intros k H Ht; simpl JS.findIndex_from.
  - rewrite Ht. simpl. lia.
  - rewrite (H y (or_introl eq_refl)).
    rewrite IH; [|intros z Hz; apply H; now right | exact Ht].
    simpl List.length. lia.
Qed.

Lemma findIndex_middle {A} (p : A -> bool) (l1 l2 : list A) (t : A) :
  (forall x, In x l1 -> p x = false) -> p t = true ->
  JS.findIndex p (l1 ++ t :: l2)%list = Z.of_nat (List.length l1).
Proof.
  intros H Ht. unfold JS.findIndex. now rewrite findIndex_from_middle.
Qed.

Lemma filter_none {A} (p : A -> bool) (l : list A) :
  (forall x, In x l -> p x = false) -> filter (fun x => negb (p x)) l = l.
Proof.
  intros H. apply forallb_filter_id. apply forallb_forall. intros x Hx.
  now rewrite (H x Hx).
Qed.

Lemma at_index_nat {A} (l : list A) (n : nat) :
  JS.at_index l (Z.of_nat n) = nth_error l n.
Proof.
  unfold JS.at_index. destruct (Z.of_nat n <? 0)%Z eqn:E.
  - apply Z.ltb_lt in E. lia.
  - now rewrite Nat2Z.id.
Qed.

Lemma nth_error_last {A} (l : list A) :
  l <> [] -> nth_error l (List.length l - 1) = last (map Some l) None.
Proof.
  intros H. destruct (exists_last H) as (l' & a & ->).
  rewrite length_app, map_app. cbn [List.length map]. rewrite last_last.
  replace (List.length l' + 1 - 1) with (List.length l') by lia.
  rewrite nth_error_app2 by lia. now rewrite Nat.sub_diag.
Qed.

Lemma or_null_id (t : Tab) : id t <> "" -> JS.or_null (Some (id t)) = Some (id t).
Proof. unfold JS.or_null. destruct (id t); [now intros H | reflexivity]. Qed.

(** The tab that becomes active when the active tab is closed. *)
Lemma closeTab_new_active (l1 l2 : list Tab) :
  Forall (fun x => id x <> "") (l1 ++ l2)%list ->
  (if (JS.length (l1 ++ l2)%list >? 0)%Z then
     JS.or_null (option_map id
       (JS.at_index (l1 ++ l2)%list
          (Z.min (Z.of_nat (List.length l1)) (JS.length (l1 ++ l2)%list - 1))))
   else None) = option_map id (neighbour l1 l2).
Proof.
  intros Hne. unfold JS.length, neighbour. destruct l2 as [|n r].
  - rewrite app_nil_r in *. destruct l1 as [|a l1']; [reflexivity|].
    assert (Hpos : (Z.of_nat (List.length (a :: l1')) >? 0)%Z = true).
    { apply Z.gtb_lt. simpl List.length. lia. }
    rewrite Hpos, Z.min_r by lia.
    replace (Z.of_nat (List.length (a :: l1')) - 1)%Z
      with (Z.of_nat (List.length (a :: l1') - 1)) by (simpl List.length; lia).
    rewrite at_index_nat, nth_error_last by discriminate.
    destruct (exists_last (l:=a :: l1')) as (l' & z & Hz); [discriminate|].
    rewrite Hz in *. rewrite map_app. cbn [map]. rewrite last_last. cbn [option_map].
    apply or_null_id. rewrite Forall_forall in Hne. apply Hne.
    apply in_or_app. right. now left.
  - assert (Hpos : (Z.of_nat (List.length (l1 ++ n :: r)%list) >? 0)%Z = true).
    { apply Z.gtb_lt. rewrite length_app. simpl List.length. lia. }
    rewrite Hpos, Z.min_l by (rewrite length_app; simpl List.length; lia).
    rewrite at_index_nat, nth_error_app2 by lia. rewrite Nat.sub_diag. cbn.
    apply or_null_id. rewrite Forall_forall in Hne. apply Hne.
    apply in_or_app. right. now left.
Qed.

(** X3. Closing a tab without unsaved changes, in a store whose ids are
    distinct and not empty, removes that tab and no other and returns
    [true]; when the closed tab was the active one, the tab that took its
    place in the list becomes active, that is its right neighbour, or its
    left neighbour when it was the last tab, or no tab when it was the only
    one; otherwise the active tab stays. *)
Theorem closeTab_removes_and_activates_neighbour :
  forall (s : TabState) (l1 l2 : list Tab) (t : Tab),
    tabs s = (l1 ++ t :: l2)%list ->
    NoDup (map id (tabs s)) ->
    Forall (fun x => id x <> "") (tabs s) ->
    isDirty t = false ->
    closeTab (id t) s =
    (true,
     {| tabs := (l1 ++ l2)%list;
        activeTabId :=
          if JS.strict_eq (activeTabId s) (Some (id t))
          then option_map id (neighbour l1 l2)
          else activeTabId s |}).
Proof.
  intros s l1 l2 t Htabs Hnd Hne Hclean. rewrite Htabs in Hnd, Hne.
  destruct (NoDup_ids_split l1 l2 t Hnd) as [H1 H2].
  assert (Ht : has_id (id t) t = true) by (unfold has_id; apply String.eqb_refl).
  unfold closeTab. unfold JS.find. rewrite Htabs.
  rewrite (find_middle _ l1 l2 t H1 Ht), Hclean.
  rewrite (findIndex_middle _ l1 l2 t H1 Ht).
  rewrite filter_app. cbn [filter]. rewrite Ht. cbn [negb].
  rewrite (filter_none _ l1 H1), (filter_none _ l2 H2).
  f_equal. f_equal.
  destruct (JS.strict_eq (activeTabId s) (Some (id t))); [|reflexivity].
  apply closeTab_new_active.
  apply Forall_app in Hne as [Hl1 Hl2]. apply Forall_app. split; [exact Hl1|].
  now inversion Hl2.
Qed.

Lemma closeTab_removes_and_activates_neighbour_witness :
  closeTab (id sample_clean) {| tabs := [sample_clean; sample_dirty];
                                activeTabId := Some (id sample_clean) |} =
  (true, {| tabs := [sample_dirty]; activeTabId := Some (id sample_dirty) |}).
Proof.
  apply (closeTab_removes_and_activates_neighbour
           {| tabs := [sample_clean; sample_dirty]; activeTabId := Some (id sample_clean) |}
           [] [sample_dirty] sample_clean).
  - reflexivity.
  - simpl. repeat constructor; simpl; intuition discriminate.
  - repeat constructor; discriminate.
  - reflexivity.
Defined.

(** *** Saving, editing and closing *)

Lemma find_map_has_id (f : Tab -> Tab) i (l : list Tab) :
  (forall t, id (f t) = id t) ->
  find (has_id i) (map f l) = option_map f (find (has_id i) l).
Proof.
  intros H. induction l as [|x r IH]; simpl; [reflexivity|].
  unfold has_id at 1. rewrite H. fold (has_id i x).
  destruct (has_id i x); [reflexivity | exact IH].
Qed.

Lemma find_has_id_true i l t : find (has_id i) l = Some t -> has_id i t = true.
Proof. intros H. now apply find_some in H. Qed.

Lemma closeTab_result_without i s :
  fst (closeTab i s) = true -> forall t, In t (tabs (snd (closeTab i s))) -> id t <> i.
Proof.
  unfold closeTab. destruct (JS.find (has_id i) (tabs s)) as [t0|] eqn:F.
  - destruct (isDirty t0); [discriminate|]. intros _ t Hin. simpl in Hin.
    apply filter_In in Hin as [_ Hneg]. unfold has_id in Hneg.
    apply negb_true_iff, String.eqb_neq in Hneg. exact Hneg.
  - intros _. simpl. now apply TabStoreFacts.find_absent.
Qed.

(** X4. A tab that was just saved can be closed, and a tab that was just
    edited away from its saved content cannot: [closeTab] after
    [markTabSaved] on the same id returns [true] and leaves no tab with that
    id; [closeTab] after an [updateTabContent] whose content differs from
    the saved content of the tab returns [false] and changes nothing. *)
Theorem closeTab_after_save_and_after_edit :
  (forall (s : TabState) (i : string) (p : option string),
      fst (closeTab i (markTabSaved i p s)) = true /\
      forall t, In t (tabs (snd (closeTab i (markTabSaved i p s)))) -> id t <> i) /\
  (forall (s : TabState) (i c : string) (t : Tab),
      JS.find (has_id i) (tabs s) = Some t ->
      c <> savedContent t ->
      closeTab i (updateTabContent i c s) = (false, updateTabContent i c s)).
Proof.
  split.
  - intros s i p.
    assert (Hret : fst (closeTab i (markTabSaved i p s)) = true).
    { unfold closeTab, JS.find. cbn [markTabSaved tabs].
      rewrite find_map_has_id by (intros t; now destruct (has_id i t)).
      destruct (find (has_id i) (tabs s)) as [t0|] eqn:F; [|reflexivity].
      cbn [option_map]. rewrite (find_has_id_true _ _ _ F). reflexivity. }
    split; [exact Hret|]. now apply closeTab_result_without.
  - intros s i c t F Hc. unfold JS.find in F.
    unfold closeTab, JS.find. cbn [updateTabContent tabs].
    rewrite find_map_has_id by (intros x; now destruct (has_id i x)).
    rewrite F. cbn [option_map]. rewrite (find_has_id_true _ _ _ F). cbn [isDirty].
    apply String.eqb_neq in Hc. now rewrite Hc.
Qed.

Lemma closeTab_after_save_and_after_edit_witness :
  closeTab (id sample_clean) (updateTabContent (id sample_clean) "edited" sample_state) =
  (false, updateTabContent (id sample_clean) "edited" sample_state).
Proof.
  destruct closeTab_after_save_and_after_edit as [_ Hedit].
  apply (Hedit sample_state (id sample_clean) "edited" sample_clean).
  - reflexivity.
  - discriminate.
Defined.

(** *** Cycling through the tabs *)

Lemma active_split (s : TabState) (i : nat) (t : Tab) :
  NoDup (map id (tabs s)) -> nth_error (tabs s) i = Some t ->
  activeTabId s = Some (id t) ->
  JS.findIndex (fun x => JS.strict_eq (Some (id x)) (activeTabId s)) (tabs s) = Z.of_nat i.
Proof.
  intros Hnd Hnth Hact. destruct (nth_error_split _ _ Hnth) as (l1 & l2 & Hl & Hlen).
  rewrite Hl in Hnd. destruct (NoDup_ids_split l1 l2 t Hnd) as [H1 _].
  rewrite Hact, Hl, <- Hlen. apply findIndex_middle.
  - intros x Hx. apply (H1 x Hx).
  - cbn. apply String.eqb_refl.
Qed.

Lemma length_small (l : list Tab) :
  (JS.length l <=? 1)%Z = true -> List.length l <= 1.
Proof. unfold JS.length. intros H. apply Z.leb_le in H. lia. Qed.

Lemma length_large (l : list Tab) :
  (JS.length l <=? 1)%Z = false -> 2 <= List.length l.
Proof. unfold JS.length. intros H. apply Z.leb_gt in H. lia. Qed.

Lemma nextTab_position (s : TabState) (i : nat) (t : Tab) :
  NoDup (map id (tabs s)) -> nth_error (tabs s) i = Some t ->
  activeTabId s = Some (id t) ->
  nextTab s = Some {| tabs := tabs s;
                      activeTabId := option_map id (cyclic_next (tabs s) i) |}.
Proof.
  intros Hnd Hnth Hact.
  assert (Hi : i < List.length (tabs s)) by (apply nth_error_Some; congruence).
  unfold nextTab, cyclic_next. destruct (JS.length (tabs s) <=? 1)%Z eqn:E.
  - apply length_small in E. assert (i = 0) by lia. subst i.
    replace (Nat.eqb 1 (List.length (tabs s))) with true
      by (symmetry; apply Nat.eqb_eq; lia).
    rewrite Hnth. cbn. rewrite <- Hact. now destruct s.
  - apply length_large in E. rewrite (active_split s i t Hnd Hnth Hact).
    unfold JS.length. destruct (Nat.eqb (S i) (List.length (tabs s))) eqn:En.
    + apply Nat.eqb_eq in En.
      replace (Z.of_nat i + 1)%Z with (Z.of_nat (List.length (tabs s))) by lia.
      rewrite Z.rem_same by lia. change 0%Z with (Z.of_nat 0). rewrite at_index_nat.
      destruct (nth_error (tabs s) 0) as [n|] eqn:N; [reflexivity|].
      apply nth_error_None in N. lia.
    + apply Nat.eqb_neq in En. rewrite Z.rem_small by lia.
      replace (Z.of_nat i + 1)%Z with (Z.of_nat (S i)) by lia. rewrite at_index_nat.
      destruct (nth_error (tabs s) (S i)) as [n|] eqn:N; [reflexivity|].
      apply nth_error_None in N. lia.
Qed.

Lemma prevTab_position (s : TabState) (i : nat) (t : Tab) :
  NoDup (map id (tabs s)) -> nth_error (tabs s) i = Some t ->
  activeTabId s = Some (id t) ->
  prevTab s = Some {| tabs := tabs s;
                      activeTabId := option_map id (cyclic_prev (tabs s) i) |}.
Proof.
  intros Hnd Hnth Hact.
  assert (Hi : i < List.length (tabs s)) by (apply nth_error_Some; congruence).
  unfold prevTab, cyclic_prev. destruct (JS.length (tabs s) <=? 1)%Z eqn:E.
  - apply length_small in E. assert (i = 0) by lia. subst i.
    replace (List.length (tabs s) - 1) with 0 by lia.
    rewrite Hnth. cbn. rewrite <- Hact. now destruct s.
  - apply length_large in E. rewrite (active_split s i t Hnd Hnth Hact).
    unfold JS.length. destruct i as [|j].
    + cbn [Z.of_nat Z.eqb].
      replace (Z.of_nat (List.length (tabs s)) - 1)%Z
        with (Z.of_nat (List.length (tabs s) - 1)) by lia.
      rewrite at_index_nat.
      destruct (nth_error (tabs s) (List.length (tabs s) - 1)) as [n|] eqn:N;
        [reflexivity|].
      apply nth_error_None in N. lia.
    + replace (Z.of_nat (S j) =? 0)%Z with false by (symmetry; apply Z.eqb_neq; lia).
      replace (Z.of_nat (S j) - 1)%Z with (Z.of_nat j) by lia. rewrite at_index_nat.
      destruct (nth_error (tabs s) j) as [n|] eqn:N; [reflexivity|].
      apply nth_error_None in N. lia.
Qed.

(** X5. With distinct ids and the active id designating the tab at position
    [i], [nextTab] activates the tab at the next position and [prevTab] the
    tab at the previous one, going around the ends of the list; neither
    changes the tabs; and each undoes the other: [prevTab] after [nextTab],
    and [nextTab] after [prevTab], give back the state. *)
Theorem nextTab_prevTab_cycle :
  forall (s : TabState) (i : nat) (t : Tab),
    NoDup (map id (tabs s)) ->
    nth_error (tabs s) i = Some t ->
    activeTabId s = Some (id t) ->
    nextTab s = Some {| tabs := tabs s;
                        activeTabId := option_map id (cyclic_next (tabs s) i) |} /\
    prevTab s = Some {| tabs := tabs s;
                        activeTabId := option_map id (cyclic_prev (tabs s) i) |} /\
    and_then (nextTab s) prevTab = Some s /\
    and_then (prevTab s) nextTab = Some s.
Proof.
  intros s i t Hnd Hnth Hact.
  assert (Hi : i < List.length (tabs s)) by (apply nth_error_Some; congruence).
  assert (Hs : {| tabs := tabs s; activeTabId := Some (id t) |} = s)
    by (rewrite <- Hact; now destruct s).
  split; [now apply (nextTab_position s i t)|].
  split; [now apply (prevTab_position s i t)|].
  split.
  - rewrite (nextTab_position s i t Hnd Hnth Hact). cbn [and_then].
    unfold cyclic_next.
    destruct (Nat.eqb (S i) (List.length (tabs s))) eqn:En.
    + apply Nat.eqb_eq in En.
      destruct (nth_error (tabs s) 0) as [n|] eqn:N;
        [|apply nth_error_None in N; lia].
      rewrite (prevTab_position _ 0 n); cbn [tabs activeTabId option_map];
        try assumption; try reflexivity.
      unfold cyclic_prev. replace (List.length (tabs s) - 1) with i by lia.
      rewrite Hnth. exact (f_equal Some Hs).
    + apply Nat.eqb_neq in En.
      destruct (nth_error (tabs s) (S i)) as [n|] eqn:N;
        [|apply nth_error_None in N; lia].
      rewrite (prevTab_position _ (S i) n); cbn [tabs activeTabId option_map];
        try assumption; try reflexivity.
      unfold cyclic_prev. rewrite Hnth. exact (f_equal Some Hs).
  - rewrite (prevTab_position s i t Hnd Hnth Hact). cbn [and_then].
    unfold cyclic_prev. destruct i as [|j].
    + destruct (nth_error (tabs s) (List.length (tabs s) - 1)) as [n|] eqn:N;
        [|apply nth_error_None in N; lia].
      rewrite (nextTab_position _ (List.length (tabs s) - 1) n);
        cbn [tabs activeTabId option_map]; try assumption; try reflexivity.
      unfold cyclic_next.
      replace (Nat.eqb (S (List.length (tabs s) - 1)) (List.length (tabs s))) with true
        by (symmetry; apply Nat.eqb_eq; lia).
      rewrite Hnth. exact (f_equal Some Hs).
    + destruct (nth_error (tabs s) j) as [n|] eqn:N;
        [|apply nth_error_None in N; lia].
      rewrite (nextTab_position _ j n); cbn [tabs activeTabId option_map];
        try assumption; try reflexivity.
      unfold cyclic_next.
      replace (Nat.eqb (S j) (List.length (tabs s))) with false
        by (symmetry; apply Nat.eqb_neq; lia).
      rewrite Hnth. exact (f_equal Some Hs).
Qed.

Lemma nextTab_prevTab_cycle_witness :
  nextTab sample_state = Some {| tabs := tabs sample_state;
                                 activeTabId := Some (id sample_clean) |} /\
  and_then (nextTab sample_state) prevTab = Some sample_state.
Proof.
  destruct (nextTab_prevTab_cycle sample_state 1 sample_dirty) as (A & _ & B & _).
  - simpl. repeat constructor; simpl; intuition discriminate.
  - reflexivity.
  - reflexivity.
  - split; [exact A | exact B].
Defined.

Lemma findIndex_from_none {A} (p : A -> bool) (l : list A) : forall k,
  (forall x, In x l -> p x = false) -> JS.findIndex_from p l k = (-1)%Z.
Proof.
  induction l as [|y r IH]; intros k H; simpl; [reflexivity|].
  rewrite (H y (or_introl eq_refl)). apply IH. intros z Hz. apply H. now right.
Qed.

(** X6. When the active id designates no tab of a list of two tabs or more
    (it is [null], or the id of a tab that is gone), [nextTab] activates the
    first tab, whereas [prevTab] reads [state.tabs[-2].id] and throws,
    leaving the store as it was. *)
Theorem prevTab_throws_without_active_tab :
  forall (s : TabState) (first second : Tab) (rest : list Tab),
    tabs s = first :: second :: rest ->
    (forall t, In t (tabs s) -> JS.strict_eq (Some (id t)) (activeTabId s) = false) ->
    prevTab s = None /\
    nextTab s = Some {| tabs := tabs s; activeTabId := Some (id first) |} /\
    (forall w, state w = s -> perform PrevTab w = w).
Proof.
  intros s first second rest Htabs Hnone.
  assert (Hidx : JS.findIndex (fun t => JS.strict_eq (Some (id t)) (activeTabId s)) (tabs s)
                 = (-1)%Z) by now apply findIndex_from_none.
  assert (Hlen : (JS.length (tabs s) <=? 1)%Z = false).
  { unfold JS.length. rewrite Htabs. apply Z.leb_gt. simpl List.length. lia. }
  assert (Hprev : prevTab s = None).
  { unfold prevTab. rewrite Hlen, Hidx. reflexivity. }
  split; [exact Hprev|]. split.
  - unfold nextTab. rewrite Hlen, Hidx. cbn [Z.add]. 
    rewrite Z.rem_0_l by (unfold JS.length; rewrite Htabs; simpl List.length; lia).
    rewrite Htabs. reflexivity.
  - intros w <-. simpl. now rewrite Hprev.
Qed.

Lemma prevTab_throws_without_active_tab_witness :
  prevTab {| tabs := [sample_clean; sample_dirty]; activeTabId := None |} = None /\
  nextTab {| tabs := [sample_clean; sample_dirty]; activeTabId := None |} =
    Some {| tabs := [sample_clean; sample_dirty]; activeTabId := Some (id sample_clean) |}.
Proof.
  destruct (prevTab_throws_without_active_tab
              {| tabs := [sample_clean; sample_dirty]; activeTabId := None |}
              sample_clean sample_dirty []) as (A & B & _).
  - reflexivity.
  - intros t _. reflexivity.
  - split; [exact A | exact B].
Defined.

(** *** The bulk operations *)

Lemma existsb_filter_nil {A} (p : A -> bool) (l : list A) :
  existsb p l = false <-> filter p l = [].
Proof.
  induction l as [|x r IH]; simpl; [tauto|].
  destruct (p x); simpl; [split; discriminate | exact IH].
Qed.

Lemma existsb_filter_same {A} (p : A -> bool) (l : list A) :
  existsb p (filter p l) = existsb p l.
Proof.
  induction l as [|x r IH]; [reflexivity|]. simpl.
  destruct (p x) eqn:D; simpl; [now rewrite D | exact IH].
Qed.

(** X7. [closeAllTabs] keeps exactly the tabs with unsaved changes, in their
    order, and activates the first of them; with no unsaved tab it empties
    the store and clears the active id; it is idempotent, and it leaves
    [hasUnsavedTabs] as it was. *)
Theorem closeAllTabs_keeps_unsaved :
  forall s : TabState,
    tabs (closeAllTabs s) = filter isDirty (tabs s) /\
    activeTabId (closeAllTabs s) =
      JS.or_null (option_map id (hd_error (filter isDirty (tabs s)))) /\
    hasUnsavedTabs (closeAllTabs s) = hasUnsavedTabs s /\
    closeAllTabs (closeAllTabs s) = closeAllTabs s /\
    (hasUnsavedTabs s = false ->
       closeAllTabs s = {| tabs := []; activeTabId := None |}).
Proof.
  intros s.
  assert (Hact : activeTabId (closeAllTabs s) =
                 JS.or_null (option_map id (hd_error (filter isDirty (tabs s))))).
  { unfold closeAllTabs.
    destruct (JS.length (filter isDirty (tabs s)) >? 0)%Z eqn:E.
    - cbn [activeTabId]. now destruct (filter isDirty (tabs s)).
    - apply TabStoreFacts.length_pos_nil in E. now rewrite E. }
  assert (Heq : forall s', closeAllTabs s' =
                  {| tabs := filter isDirty (tabs s');
                     activeTabId :=
                       JS.or_null (option_map id (hd_error (filter isDirty (tabs s')))) |}).
  { intros s'. unfold closeAllTabs.
    destruct (JS.length (filter isDirty (tabs s')) >? 0)%Z eqn:E.
    - now destruct (filter isDirty (tabs s')).
    - apply TabStoreFacts.length_pos_nil in E. now rewrite E. }
  split; [apply closeAllTabs_tabs|]. split; [exact Hact|]. split; [|split].
  - unfold hasUnsavedTabs. rewrite closeAllTabs_tabs. apply existsb_filter_same.
  - rewrite (Heq (closeAllTabs s)), (Heq s). cbn [tabs].
    now rewrite TabStoreFacts.filter_idem.
  - intros Hno. unfold hasUnsavedTabs in Hno. apply existsb_filter_nil in Hno.
    rewrite (Heq s), Hno. reflexivity.
Qed.

Lemma closeAllTabs_keeps_unsaved_witness :
  closeAllTabs {| tabs := [sample_clean]; activeTabId := Some (id sample_clean) |} =
  {| tabs := []; activeTabId := None |}.
Proof.
  destruct (closeAllTabs_keeps_unsaved
              {| tabs := [sample_clean]; activeTabId := Some (id sample_clean) |})
    as (_ & _ & _ & _ & H).
  apply H. reflexivity.
Defined.

(** X8. [closeOtherTabs] keeps the designated tab and the tabs with unsaved
    changes, in their order, removes every other tab, and makes the
    designated id the active one, also when no tab carries it; it is
    idempotent. *)
Theorem closeOtherTabs_keeps_designated_and_unsaved :
  forall (s : TabState) (tabId : string),
    (forall t, In t (tabs (closeOtherTabs tabId s)) <->
               In t (tabs s) /\ (id t = tabId \/ isDirty t = true)) /\
    activeTabId (closeOtherTabs tabId s) = Some tabId /\
    closeOtherTabs tabId (closeOtherTabs tabId s) = closeOtherTabs tabId s /\
    ((forall t, In t (tabs s) -> id t <> tabId) ->
       tabs (closeOtherTabs tabId s) = filter isDirty (tabs s) /\
       getActiveTab (closeOtherTabs tabId s) = None).
Proof.
  intros s tabId. split; [|split; [reflexivity|split]].
  - intros t. unfold closeOtherTabs. cbn [tabs]. rewrite filter_In.
    unfold has_id. rewrite orb_true_iff, String.eqb_eq. tauto.
  - unfold closeOtherTabs. cbn [tabs]. now rewrite TabStoreFacts.filter_idem.
  - intros Habs.
    assert (Htabs : tabs (closeOtherTabs tabId s) = filter isDirty (tabs s)).
    { unfold closeOtherTabs. cbn [tabs]. apply filter_ext_in. intros t Ht.
      unfold has_id. replace (String.eqb (id t) tabId) with false; [reflexivity|].
      symmetry. apply String.eqb_neq. now apply Habs. }
    split; [exact Htabs|].
    change (getActiveTab (closeOtherTabs tabId s))
      with (List.find (has_id tabId) (tabs (closeOtherTabs tabId s))).
    apply TabStoreFacts.find_absent. intros t Ht. rewrite Htabs in Ht.
    apply filter_In in Ht as [Ht _]. now apply Habs.
Qed.

Lemma closeOtherTabs_keeps_designated_and_unsaved_witness :
  tabs (closeOtherTabs "tab-9-0" sample_state) = [sample_dirty] /\
  getActiveTab (closeOtherTabs "tab-9-0" sample_state) = None.
Proof.
  destruct (closeOtherTabs_keeps_designated_and_unsaved sample_state "tab-9-0")
    as (_ & _ & _ & H).
  apply H. intros t [<-|[<-|[]]]; discriminate.
Defined.

Lemma slice_around (l1 l2 : list Tab) (t : Tab) :
  JS.slice_to (l1 ++ t :: l2)%list (Z.of_nat (List.length l1) + 1) = (l1 ++ [t])%list /\
  JS.slice_from (l1 ++ t :: l2)%list (Z.of_nat (List.length l1) + 1) = l2.
Proof.
  unfold JS.slice_to, JS.slice_from.
  replace (Z.to_nat (Z.of_nat (List.length l1) + 1)) with (List.length (l1 ++ [t])%list)
    by (rewrite length_app; simpl List.length; lia).
  replace (l1 ++ t :: l2)%list with ((l1 ++ [t]) ++ l2)%list
    by (rewrite <- app_assoc; reflexivity).
  split.
  - rewrite firstn_app, firstn_all, Nat.sub_diag. simpl. apply app_nil_r.
  - rewrite skipn_app, skipn_all, Nat.sub_diag. reflexivity.
Qed.

(** X9. [closeTabsToRight] for an id no tab carries changes nothing. For the
    id of a tab, it keeps the tabs up to and including the first tab with
    that id, and of the tabs to its right those with unsaved changes, in
    their order. The active id stays when it is [null] or empty and when it
    designates a tab that is kept; when it designates no tab that is kept,
    the designated tab becomes active. So an active id that is not empty
    designates a tab of the list afterwards. *)
Theorem closeTabsToRight_keeps_left_and_unsaved :
  (forall (s : TabState) (tabId : string),
      (forall t, In t (tabs s) -> id t <> tabId) -> closeTabsToRight tabId s = s) /\
  (forall (s : TabState) (l1 l2 : list Tab) (t : Tab),
      tabs s = (l1 ++ t :: l2)%list ->
      (forall x, In x l1 -> id x <> id t) ->
      tabs (closeTabsToRight (id t) s) = (l1 ++ t :: filter isDirty l2)%list /\
      (activeTabId (closeTabsToRight (id t) s) = activeTabId s \/
       activeTabId (closeTabsToRight (id t) s) = Some (id t)) /\
      (forall a, activeTabId s = Some a -> a <> "" ->
         exists x, In x (tabs (closeTabsToRight (id t) s)) /\
                   activeTabId (closeTabsToRight (id t) s) = Some (id x)) /\
      ((exists x, In x (l1 ++ t :: filter isDirty l2)%list /\
                  activeTabId s = Some (id x)) ->
         activeTabId (closeTabsToRight (id t) s) = activeTabId s) /\
      (activeTabId s = None \/ activeTabId s = Some "" ->
         activeTabId (closeTabsToRight (id t) s) = activeTabId s) /\
      (forall a, activeTabId s = Some a -> a <> "" ->
         (forall x, In x (l1 ++ t :: filter isDirty l2)%list -> id x <> a) ->
         activeTabId (closeTabsToRight (id t) s) = Some (id t))).
Proof.
  split.
  - intros s tabId Habs. unfold closeTabsToRight.
    replace (JS.findIndex (has_id tabId) (tabs s)) with (-1)%Z; [reflexivity|].
    symmetry. apply findIndex_from_none. intros x Hx. unfold has_id.
    apply String.eqb_neq. now apply Habs.
  - intros s l1 l2 t Htabs Hl1.
    assert (H1 : forall x, In x l1 -> has_id (id t) x = false).
    { intros x Hx. unfold has_id. apply String.eqb_neq. now apply Hl1. }
    assert (Ht : has_id (id t) t = true) by (unfold has_id; apply String.eqb_refl).
    assert (Hidx : JS.findIndex (has_id (id t)) (tabs s) = Z.of_nat (List.length l1))
      by (rewrite Htabs; now apply findIndex_middle).
    destruct (slice_around l1 l2 t) as [Hto Hfrom].
    unfold closeTabsToRight. rewrite Hidx.
    replace (Z.of_nat (List.length l1) =? -1)%Z with false
      by (symmetry; apply Z.eqb_neq; lia).
    rewrite Htabs, Hto, Hfrom. cbn [tabs activeTabId].
    assert (Hin : In t ((l1 ++ [t]) ++ filter isDirty l2)%list).
    { apply in_or_app. left. apply in_or_app. right. now left. }
    split; [now rewrite <- app_assoc|].
    split; [|split; [|split; [|split]]].
    + destruct (JS.truthy (activeTabId s) && _); [now right | now left].
    + intros a Ha Hne.
      destruct (existsb (fun x => JS.strict_eq (Some (id x)) (activeTabId s))
                        ((l1 ++ [t]) ++ filter isDirty l2)%list) eqn:E.
      * rewrite andb_false_r. apply existsb_exists in E as (x & Hx & Hxa).
        exists x. split; [exact Hx|]. rewrite Ha in *. cbn in Hxa.
        apply String.eqb_eq in Hxa. now rewrite Hxa.
      * replace (JS.truthy (activeTabId s)) with true.
        -- exists t. split; [exact Hin | reflexivity].
        -- rewrite Ha. unfold JS.truthy, JS.or_null. now destruct a.
    + intros (x & Hx & Ha).
      replace (existsb (fun y => JS.strict_eq (Some (id y)) (activeTabId s))
                       ((l1 ++ [t]) ++ filter isDirty l2)%list) with true.
      * now rewrite andb_false_r.
      * symmetry. apply existsb_exists. exists x. split.
        -- now rewrite <- app_assoc.
        -- rewrite Ha. cbn. apply String.eqb_refl.
    + intros [Ha|Ha]; rewrite Ha; reflexivity.
    + intros a Ha Hne Hgone.
      replace (JS.truthy (activeTabId s)) with true
        by (rewrite Ha; unfold JS.truthy, JS.or_null; now destruct a).
      replace (existsb (fun y => JS.strict_eq (Some (id y)) (activeTabId s))
                       ((l1 ++ [t]) ++ filter isDirty l2)%list) with false;
        [reflexivity|].
      symmetry. apply not_true_is_false. intros E.
      apply existsb_exists in E as (x & Hx & Hxa).
      rewrite Ha in Hxa. cbn in Hxa. apply String.eqb_eq in Hxa.
      apply (Hgone x); [now rewrite <- app_assoc in Hx | exact Hxa].
Qed.

Lemma closeTabsToRight_keeps_left_and_unsaved_witness :
  closeTabsToRight "tab-9-0" sample_state = sample_state /\
  tabs (closeTabsToRight (id sample_clean) sample_state) = [sample_clean; sample_dirty] /\
  activeTabId (closeTabsToRight (id sample_clean) sample_state) = Some (id sample_dirty) /\
  activeTabId (closeTabsToRight (id sample_dirty)
                 {| tabs := [sample_dirty; sample_clean];
                    activeTabId := Some (id sample_clean) |})
    = Some (id sample_dirty).
Proof.
  destruct closeTabsToRight_keeps_left_and_unsaved as [Hunknown Hknown].
  split; [|split; [|split]].
  - apply Hunknown. intros t [<-|[<-|[]]]; discriminate.
  - destruct (Hknown sample_state [] [sample_dirty] sample_clean) as (A & _).
    + reflexivity.
    + intros x [].
    + exact A.
  - destruct (Hknown sample_state [] [sample_dirty] sample_clean)
      as (_ & _ & _ & A & _).
    + reflexivity.
    + intros x [].
    + apply A. exists sample_dirty. split; [right; now left | reflexivity].
  - destruct (Hknown {| tabs := [sample_dirty; sample_clean];
                        activeTabId := Some (id sample_clean) |}
                     [] [sample_clean] sample_dirty)
      as (_ & _ & _ & _ & _ & A).
    + reflexivity.
    + intros x [].
    + apply (A (id sample_clean)); [reflexivity | discriminate |].
      intros x [<-|[]]. discriminate.
Defined.

(** *** File names *)

Lemma split_slash_nonempty s : JS.split_slash s <> [].
Proof.
  destruct s as [|c r]; simpl; [discriminate|].
  destruct (Ascii.eqb c "/"); [discriminate|].
  destruct (JS.split_slash r); discriminate.
Qed.

Lemma split_slash_app dir : forall name,
  JS.split_slash (dir ++ String "/" name) =
  (JS.split_slash dir ++ JS.split_slash name)%list.
Proof.
  induction dir as [|c r IH]; intros name.
  - simpl. reflexivity.
  - cbn [append JS.split_slash]. rewrite IH.
    destruct (Ascii.eqb c "/"); [reflexivity|].
    pose proof (split_slash_nonempty r) as Hne.
    destruct (JS.split_slash r) as [|p ps]; [contradiction|]. reflexivity.
Qed.

Lemma split_slash_plain name :
  has_char "/" name = false -> JS.split_slash name = [name].
Proof.
  induction name as [|c r IH]; intros H; simpl in *; [reflexivity|].
  apply orb_false_iff in H as [Hc Hr]. rewrite Hc, (IH Hr). reflexivity.
Qed.

Lemma split_slash_parts s :
  Forall (fun part => has_char "/" part = false) (JS.split_slash s).
Proof.
  induction s as [|c r IH]; simpl; [repeat constructor|].
  destruct (Ascii.eqb c "/") eqn:E; [constructor; [reflexivity | exact IH]|].
  destruct (JS.split_slash r) as [|p ps]; [repeat constructor; simpl; now rewrite E|].
  inversion IH; subst. constructor; [|assumption]. simpl. now rewrite E.
Qed.

Lemma last_in_or_default {A} (l : list A) (d : A) : l <> [] -> In (last l d) l.
Proof.
  intros H. destruct (exists_last H) as (l' & a & ->). rewrite last_last.
  apply in_or_app. right. now left.
Qed.

Lemma or_null_nonempty s : s <> "" -> JS.or_null (Some s) = Some s.
Proof. unfold JS.or_null. destruct s; [now intros H | reflexivity]. Qed.

Lemma getFileName_of_path dir name :
  getFileName (Some (dir ++ String "/" name)) =
  match JS.or_null (Some (last (JS.split_slash name) "")) with
  | Some n => n
  | None => newFileName
  end.
Proof.
  unfold getFileName. rewrite or_null_nonempty by (destruct dir; discriminate).
  rewrite split_slash_app.
  pose proof (split_slash_nonempty name) as Hne.
  destruct (exists_last Hne) as (l' & a & ->).
  now rewrite app_assoc, !last_last.
Qed.

Lemma getFileName_path_name dir name :
  name <> "" -> has_char "/" name = false ->
  getFileName (Some (dir ++ String "/" name)) = name.
Proof.
  intros Hne Hns.
  rewrite getFileName_of_path, (split_slash_plain name Hns). cbn [last].
  now rewrite (or_null_nonempty name Hne).
Qed.

(** X10. [getFileName] returns the part of a path after its last slash. It
    never returns an empty name nor a name with a slash: for [null], for the
    empty path and for a path that ends with a slash it returns the default
    name of a new file. *)
Theorem getFileName_last_component :
  (forall p : option string,
      getFileName p <> "" /\ has_char "/" (getFileName p) = false) /\
  getFileName None = newFileName /\
  getFileName (Some "") = newFileName /\
  (forall dir : string, getFileName (Some (dir ++ "/")) = newFileName) /\
  (forall dir name : string,
      name <> "" -> has_char "/" name = false ->
      getFileName (Some (dir ++ "/" ++ name)) = name /\
      getFileName (Some name) = name).
Proof.
  split; [|split; [reflexivity|split; [reflexivity|split]]].
  - intros p. unfold getFileName.
    destruct (JS.or_null p) as [path|]; [|split; [discriminate | reflexivity]].
    pose proof (split_slash_parts path) as Hparts.
    pose proof (last_in_or_default _ "" (split_slash_nonempty path)) as Hin.
    rewrite Forall_forall in Hparts. specialize (Hparts _ Hin).
    destruct (last (JS.split_slash path) "") as [|c r] eqn:L;
      [split; [discriminate | reflexivity]|].
    cbn [JS.or_null]. split; [discriminate | exact Hparts].
  - intros dir. change (dir ++ "/") with (dir ++ String "/" ""). 
    now rewrite getFileName_of_path.
  - intros dir name Hne Hns. split.
    + now apply getFileName_path_name.
    + unfold getFileName. rewrite (or_null_nonempty name Hne).
      rewrite (split_slash_plain name Hns). cbn [last].
      now rewrite (or_null_nonempty name Hne).
Qed.

Lemma getFileName_last_component_witness :
  getFileName (Some ("/proj/src" ++ "/" ++ "main.trq")) = "main.trq" /\
  getFileName (Some "main.trq") = "main.trq".
Proof.
  destruct getFileName_last_component as (_ & _ & _ & _ & H).
  apply (H "/proj/src" "main.trq"); [discriminate | reflexivity].
Defined.

(** *** Growth *)

(** X11. [createTab] is the only action that adds a tab or moves the
    counter: it adds one tab and increments the counter by one; every other
    action leaves the counter alone and leaves a list that is no longer and
    holds no id that was not there. *)
Theorem only_createTab_adds_tabs :
  forall (a : Action) (w : Store),
    (is_create a = false ->
       List.length (tabs (state (perform a w))) <= List.length (tabs (state w)) /\
       incl (map id (tabs (state (perform a w)))) (map id (tabs (state w))) /\
       tabCounter (perform a w) = tabCounter w) /\
    (is_create a = true ->
       List.length (tabs (state (perform a w))) = S (List.length (tabs (state w))) /\
       tabCounter (perform a w) = (tabCounter w + 1)%N).
Proof.
  intros a w. split; intros Hc.
  - destruct (perform_selects a w Hc) as [Hcnt [Hids|(n & f & Hsel)]].
    + split; [|split; [|exact Hcnt]].
      * apply (f_equal (@List.length _)) in Hids. rewrite !length_map in Hids. lia.
      * rewrite Hids. apply incl_refl.
    + split; [|split; [|exact Hcnt]].
      * rewrite Hsel. apply selection_length.
      * rewrite Hsel. intros i Hi. apply in_map_iff in Hi as (t & <- & Ht).
        apply in_map. now apply (selection_incl f n).
  - destruct a as [p c now| | | | | | | | | |]; try discriminate. simpl.
    rewrite length_app. simpl. split; [lia | reflexivity].
Qed.

Lemma only_createTab_adds_tabs_witness :
  List.length (tabs (state (perform (CloseTab (id sample_clean))
                                    {| state := sample_state; tabCounter := 2 |}))) <= 2.
Proof.
  destruct (only_createTab_adds_tabs (CloseTab (id sample_clean))
              {| state := sample_state; tabCounter := 2 |}) as [H _].
  apply H. reflexivity.
Defined.

End TabStorePropsFacts.
(** ** The compiler handlers of the main process *)

Module CompilerFacts.
Import Compiler.

Lemma resolve_chunks r inv :
  stdout_chunks (resolve r inv) = stdout_chunks inv /\
  stderr_chunks (resolve r inv) = stderr_chunks inv.
Proof. unfold resolve. now destruct (settled inv). Qed.

Lemma handle_events_app cmd a : forall b inv,
  handle_events cmd (a ++ b)%list inv =
  (fst (handle_events cmd b (fst (handle_events cmd a inv))),
   (snd (handle_events cmd a inv) ++
    snd (handle_events cmd b (fst (handle_events cmd a inv))))%list).
Proof.
  induction a as [|ev r IH]; intros b inv.
  - simpl. now destruct (handle_events cmd b inv).
  - cbn [app handle_events]. destruct (on_event cmd ev inv) as [inv1 sent1].
    rewrite IH. destruct (handle_events cmd r inv1) as [inv2 sent2]. cbn [fst snd].
    now rewrite app_assoc.
Qed.

Lemma handle_events_chunks cmd evs : forall inv,
  stdout_chunks (fst (handle_events cmd evs inv)) = (stdout_chunks inv ++ stdout_of evs)%list /\
  stderr_chunks (fst (handle_events cmd evs inv)) = (stderr_chunks inv ++ stderr_of evs)%list.
Proof.
  induction evs as [|ev r IH]; intros inv.
  - simpl. now rewrite !app_nil_r.
  - cbn [handle_events]. destruct (on_event cmd ev inv) as [inv1 sent1] eqn:E.
    destruct (IH inv1) as [A B].
    destruct (handle_events cmd r inv1) as [inv2 sent2]. cbn [fst] in *.
    rewrite A, B. unfold stdout_of, stderr_of. cbn [flat_map].
    destruct ev; simpl in E; injection E as <- _; cbn [stdout_chunks stderr_chunks];
      rewrite <- ?app_assoc; try (split; reflexivity);
      destruct (resolve_chunks
                  {| success := false; output := join (stdout_chunks inv);
                     errors := failure_prefix cmd ++ message; exitCode := Some (-1)%Z |} inv)
        as [-> ->] ||
      destruct (resolve_chunks
                  {| success := code_is_zero code; output := join (stdout_chunks inv);
                     errors := join (stderr_chunks inv); exitCode := code |} inv)
        as [-> ->];
      split; reflexivity.
Qed.

Lemma handle_events_sent cmd evs : forall inv,
  snd (handle_events cmd evs inv) = flat_map forwarded evs.
Proof.
  induction evs as [|ev r IH]; intros inv; [reflexivity|].
  cbn [handle_events flat_map]. destruct (on_event cmd ev inv) as [inv1 sent1] eqn:E.
  specialize (IH inv1). destruct (handle_events cmd r inv1) as [inv2 sent2].
  cbn [snd] in *. rewrite IH. f_equal.
  destruct ev; simpl in E; now injection E as _ <-.
Qed.

Lemma settled_stays cmd evs : forall inv r,
  settled inv = Some r -> settled (fst (handle_events cmd evs inv)) = Some r.
Proof.
  induction evs as [|ev rest IH]; intros inv r H; [exact H|].
  cbn [handle_events]. destruct (on_event cmd ev inv) as [inv1 sent1] eqn:E.
  assert (H1 : settled inv1 = Some r).
  { destruct ev; simpl in E; injection E as <- _; try exact H;
      unfold resolve; now rewrite H. }
  specialize (IH inv1 r H1). now destruct (handle_events cmd rest inv1).
Qed.

Lemma data_leaves_pending cmd evs : forall inv,
  forallb is_data evs = true ->
  settled (fst (handle_events cmd evs inv)) = settled inv.
Proof.
  induction evs as [|ev rest IH]; intros inv H; [reflexivity|].
  simpl in H. apply andb_true_iff in H as [Hev Hrest].
  cbn [handle_events]. destruct (on_event cmd ev inv) as [inv1 sent1] eqn:E.
  specialize (IH inv1 Hrest). destruct (handle_events cmd rest inv1). cbn [fst] in *.
  rewrite IH. destruct ev; try discriminate; simpl in E; now injection E as <- _.
Qed.

(** The first event that is not a chunk of output decides the result. *)
Lemma first_outcome cmd data t later :
  forallb is_data data = true -> is_data t = false ->
  settled (fst (handle_events cmd (data ++ t :: later)%list started)) =
  Some (match t with
        | Closed code =>
            {| success := code_is_zero code; output := join (stdout_of data);
               errors := join (stderr_of data); exitCode := code |}
        | Failed message =>
            {| success := false; output := join (stdout_of data);
               errors := failure_prefix cmd ++ message; exitCode := Some (-1)%Z |}
        | _ => {| success := false; output := ""; errors := ""; exitCode := None |}
        end).
Proof.
  intros Hdata Ht. rewrite handle_events_app. cbn [fst].
  pose proof (data_leaves_pending cmd data started Hdata) as Hpending.
  destruct (handle_events_chunks cmd data started) as [Hout Herr].
  set (inv := fst (handle_events cmd data started)) in *.
  cbn [handle_events]. destruct (on_event cmd t inv) as [inv1 sent1] eqn:E.
  assert (H1 : settled inv1 = Some (match t with
        | Closed code =>
            {| success := code_is_zero code; output := join (stdout_of data);
               errors := join (stderr_of data); exitCode := code |}
        | Failed message =>
            {| success := false; output := join (stdout_of data);
               errors := failure_prefix cmd ++ message; exitCode := Some (-1)%Z |}
        | _ => {| success := false; output := ""; errors := ""; exitCode := None |}
        end)).
  { destruct t; try discriminate; simpl in E; injection E as <- _;
      unfold resolve; rewrite Hpending; cbn; now rewrite Hout, ?Herr. }
  pose proof (settled_stays cmd later inv1 _ H1) as H2.
  now destruct (handle_events cmd later inv1).
Qed.

Lemma first_terminal (evs : list ProcEvent) :
  forallb is_data evs = true \/
  exists data t later, evs = (data ++ t :: later)%list /\
                       forallb is_data data = true /\ is_data t = false.
Proof.
  induction evs as [|ev r IH]; [now left|].
  destruct (is_data ev) eqn:E.
  - destruct IH as [H|(data & t & later & -> & Hd & Ht)].
    + left. simpl. now rewrite E.
    + right. exists (ev :: data), t, later. simpl. now rewrite E.
  - right. now exists [], ev, r.
Qed.

(** X12. A compiler handler resolves with the first outcome of the child and
    keeps it. When the child closes, the result carries the exit code,
    [success] exactly when the code is 0, [output] the stdout chunks
    received so far, joined in their order, and [errors] the stderr chunks.
    When the child cannot be started, the result is a failure with exit
    code -1 whose [errors] is the handler's prefix followed by the message.
    Events that come later do not change the result, and as long as only
    chunks have come the promise is pending. *)
Theorem compiler_resolves_with_first_outcome :
  forall (cmd : Command) (data later : list ProcEvent),
    forallb is_data data = true ->
    (forall code : option Z,
        settled (fst (handle_events cmd (data ++ Closed code :: later)%list started)) =
        Some {| success := code_is_zero code; output := join (stdout_of data);
                errors := join (stderr_of data); exitCode := code |}) /\
    (forall message : string,
        settled (fst (handle_events cmd (data ++ Failed message :: later)%list started)) =
        Some {| success := false; output := join (stdout_of data);
                errors := failure_prefix cmd ++ message; exitCode := Some (-1)%Z |}) /\
    settled (fst (handle_events cmd data started)) = None.
Proof.
  intros cmd data later Hdata. split; [|split].
  - intros code. now apply (first_outcome cmd data (Closed code) later).
  - intros message. now apply (first_outcome cmd data (Failed message) later).
  - now rewrite data_leaves_pending.
Qed.

Lemma compiler_resolves_with_first_outcome_witness :
  settled (fst (handle_events Compile
                  [Stdout "a"; Stderr "w"; Stdout "b"; Closed (Some 0%Z); Stdout "late"]
                  started)) =
  Some {| success := true; output := "ab"; errors := "w"; exitCode := Some 0%Z |}.
Proof.
  destruct (compiler_resolves_with_first_outcome Compile
              [Stdout "a"; Stderr "w"; Stdout "b"] [Stdout "late"] eq_refl) as (H & _).
  exact (H (Some 0%Z)).
Defined.

(** X13. A compiler handler reports success only for a child that closed
    with exit code 0: whatever the child does, a result with [success] true
    has exit code 0 and a 'close' event with code 0 was received; and every
    chunk of output is sent to the renderer on the channel of its stream, in
    the order of arrival, also after the promise is resolved. *)
Theorem compiler_success_means_exit_zero :
  forall (cmd : Command) (evs : list ProcEvent),
    snd (handle_events cmd evs started) = flat_map forwarded evs /\
    forall r : CompilerResult,
      settled (fst (handle_events cmd evs started)) = Some r ->
      success r = true ->
      exitCode r = Some 0%Z /\ In (Closed (Some 0%Z)) evs.
Proof.
  intros cmd evs. split; [apply handle_events_sent|].
  intros r Hr Hs.
  destruct (first_terminal evs) as [Hdata|(data & t & later & -> & Hd & Ht)].
  - rewrite data_leaves_pending in Hr by exact Hdata. discriminate.
  - rewrite (first_outcome cmd data t later Hd Ht) in Hr. injection Hr as <-.
    destruct t as [| |message|code]; try discriminate. cbn in Hs.
    destruct code as [z|]; [|discriminate]. cbn in Hs. apply Z.eqb_eq in Hs. subst z.
    split; [reflexivity|]. apply in_or_app. right. now left.
Qed.

Lemma compiler_success_means_exit_zero_witness :
  exitCode {| success := true; output := "ab"; errors := "w"; exitCode := Some 0%Z |}
    = Some 0%Z /\
  In (Closed (Some 0%Z))
     [Stdout "a"; Stderr "w"; Stdout "b"; Closed (Some 0%Z); Stdout "late"].
Proof.
  destruct (compiler_success_means_exit_zero Compile
              [Stdout "a"; Stderr "w"; Stdout "b"; Closed (Some 0%Z); Stdout "late"])
    as [_ H].
  apply H; reflexivity.
Defined.

(** *** The working directory *)

Lemma lastIndexOf_plain name : forall i found,
  TabStoreProps.has_char "/" name = false ->
  lastIndexOf_slash_from name i found = found.
Proof.
  induction name as [|c r IH]; intros i found H; simpl in *; [reflexivity|].
  apply orb_false_iff in H as [Hc Hr]. rewrite Hc. now apply IH.
Qed.

Lemma lastIndexOf_path dir name : forall i found,
  TabStoreProps.has_char "/" name = false ->
  lastIndexOf_slash_from (dir ++ String "/" name) i found
  = (i + Z.of_nat (String.length dir))%Z.
Proof.
  induction dir as [|c r IH]; intros i found H.
  - simpl. rewrite lastIndexOf_plain by exact H. lia.
  - cbn [append lastIndexOf_slash_from String.length]. rewrite IH by exact H. lia.
Qed.

Lemma substring_prefix dir rest :
  String.substring 0 (String.length dir) (dir ++ rest) = dir.
Proof.
  induction dir as [|c r IH]; simpl; [now destruct rest|]. now rewrite IH.
Qed.

(** X14. The child is run as [tarqeem <sub-command> <file>] in the directory
    of the file: for a path [dir/name] the working directory is [dir], and
    together with the name [getFileName] gives for the path it makes up the
    path again. For a path without a slash, and for a file at the root, the
    working directory passed to [spawn] is the empty string. *)
Theorem compiler_runs_in_directory_of_file :
  forall (cmd : Command) (dir name : string),
    TabStoreProps.has_char "/" name = false ->
    args (spawn_request cmd (dir ++ "/" ++ name)) = [subcommand cmd; dir ++ "/" ++ name] /\
    cwd (spawn_request cmd (dir ++ "/" ++ name)) = dir /\
    cwd (spawn_request cmd name) = "" /\
    cwd (spawn_request cmd ("/" ++ name)) = "" /\
    (name <> "" ->
       cwd (spawn_request cmd (dir ++ "/" ++ name)) ++ "/" ++
       TabStore.getFileName (Some (dir ++ "/" ++ name)) = dir ++ "/" ++ name).
Proof.
  intros cmd dir name Hns.
  assert (Hcwd : forall d, cwd (spawn_request cmd (d ++ "/" ++ name)) = d).
  { intros d. unfold spawn_request, lastIndexOf_slash, substring_to. cbn [cwd].
    change (d ++ "/" ++ name) with (d ++ String "/" name).
    rewrite (lastIndexOf_path d name 0 (-1) Hns). cbn [Z.add].
    replace (Z.of_nat (String.length d) <? 0)%Z with false
      by (symmetry; apply Z.ltb_ge; lia).
    rewrite Nat2Z.id. apply substring_prefix. }
  split; [reflexivity|]. split; [apply Hcwd|]. split; [|split].
  - unfold spawn_request, lastIndexOf_slash, substring_to. cbn [cwd].
    now rewrite (lastIndexOf_plain name 0 (-1) Hns).
  - exact (Hcwd "").
  - intros Hne. rewrite Hcwd. do 2 f_equal.
    now apply TabStorePropsFacts.getFileName_path_name.
Qed.

Lemma compiler_runs_in_directory_of_file_witness :
  cwd (spawn_request Run ("/proj/src" ++ "/" ++ "main.trq")) = "/proj/src" /\
  cwd (spawn_request Run "main.trq") = "".
Proof.
  destruct (compiler_runs_in_directory_of_file Run "/proj/src" "main.trq" eq_refl)
    as (_ & A & B & _).
  split; [exact A | exact B].
Defined.

End CompilerFacts.
(** ** The preload bridge: disposers and the removal of listeners *)

Module PreloadMoreFacts.
Import Lsp Preload.

Lemma renderer_eq (a b : IpcRenderer) :
  listeners a = listeners b -> allocated a = allocated b -> a = b.
Proof. destruct a, b. simpl. now intros -> ->. Qed.

Lemma filter_comm {A} (f g : A -> bool) (l : list A) :
  filter f (filter g l) = filter g (filter f l).
Proof.
  induction l as [|x r IH]; [reflexivity|]. simpl.
  destruct (f x) eqn:F, (g x) eqn:G; simpl; rewrite ?F, ?G, IH; reflexivity.
Qed.

(** X15. On a renderer whose listeners are distinct closures, as the
    subscription members of [window.qalam.lsp] create them, invoking a
    disposer a second time changes nothing, and two disposers can be invoked
    in either order. Subscribing the same callback twice gives two
    registrations, and the disposer of the first removes the first only. *)
Theorem lsp_disposers_idempotent_and_independent :
  forall r : IpcRenderer,
    distinct_closures r ->
    (forall d, dispose d (dispose d r) = dispose d r) /\
    (forall d1 d2, dispose d1 (dispose d2 r) = dispose d2 (dispose d1 r)) /\
    (forall m cb,
        let s1 := subscribe m cb r in
        let s2 := subscribe m cb (snd s1) in
        receivers (member_channel m) (snd s2) =
          (receivers (member_channel m) r ++ [cb; cb])%list /\
        listeners (dispose (fst s1) (snd s2)) = (listeners r ++ [fst s2])%list /\
        receivers (member_channel m) (dispose (fst s1) (snd s2)) =
          (receivers (member_channel m) r ++ [cb])%list).
Proof.
  intros r Hwf. split; [|split].
  - intros d. apply renderer_eq; [|reflexivity].
    rewrite (PreloadFacts.dispose_filter d (dispose d r))
      by now apply PreloadFacts.dispose_distinct_closures.
    rewrite (PreloadFacts.dispose_filter d r Hwf).
    apply TabStoreFacts.filter_idem.
  - intros d1 d2. apply renderer_eq; [|reflexivity].
    rewrite (PreloadFacts.dispose_filter d1 (dispose d2 r))
      by now apply PreloadFacts.dispose_distinct_closures.
    rewrite (PreloadFacts.dispose_filter d2 (dispose d1 r))
      by now apply PreloadFacts.dispose_distinct_closures.
    rewrite (PreloadFacts.dispose_filter d1 r Hwf), (PreloadFacts.dispose_filter d2 r Hwf).
    apply filter_comm.
  - intros m cb s1 s2.
    assert (Hwf1 : distinct_closures (snd s1))
      by now apply PreloadFacts.subscribe_distinct_closures.
    assert (Hwf2 : distinct_closures (snd s2))
      by now apply PreloadFacts.subscribe_distinct_closures.
    assert (Hl2 : listeners (snd s2) = (listeners r ++ [fst s1; fst s2])%list).
    { unfold s2, s1, subscribe, ipc_on. cbn [snd fst listeners allocated].
      now rewrite <- app_assoc. }
    assert (Hrec : forall l e,
               fst e = member_channel m ->
               map (fun e => callback (snd e))
                   (filter (fun e => String.eqb (fst e) (member_channel m)) (l ++ [e])%list)
               = (map (fun e => callback (snd e))
                      (filter (fun e => String.eqb (fst e) (member_channel m)) l)
                  ++ [callback (snd e)])%list).
    { intros l e He. rewrite filter_app, map_app. cbn [filter].
      now rewrite He, String.eqb_refl. }
    assert (Hdisp : listeners (dispose (fst s1) (snd s2)) = (listeners r ++ [fst s2])%list).
    { rewrite (PreloadFacts.dispose_filter _ _ Hwf2), Hl2, filter_app.
      rewrite forallb_filter_id.
      - cbn [filter]. unfold registered_as, same_listener, s2, s1, subscribe, ipc_on.
        cbn [fst snd closure allocated]. rewrite String.eqb_refl, !Nat.eqb_refl.
        cbn [andb negb].
        replace (Nat.eqb (S (allocated r)) (allocated r)) with false
          by (symmetry; apply Nat.eqb_neq; lia).
        reflexivity.
      - apply forallb_forall. intros e He. unfold s1.
        now rewrite (PreloadFacts.subscribe_fresh m cb r e Hwf He). }
    split; [|split; [exact Hdisp|]].
    + unfold receivers. rewrite Hl2.
      change (listeners r ++ [fst s1; fst s2])%list
        with (listeners r ++ [fst s1] ++ [fst s2])%list.
      rewrite app_assoc, (Hrec _ (fst s2) eq_refl), (Hrec _ (fst s1) eq_refl).
      now rewrite <- app_assoc.
    + unfold receivers. rewrite Hdisp. now rewrite (Hrec _ (fst s2) eq_refl).
Qed.

Lemma lsp_disposers_idempotent_and_independent_witness :
  let r := {| listeners := []; allocated := 0 |} in
  let s1 := subscribe onLog 5 r in
  let s2 := subscribe onLog 5 (snd s1) in
  receivers "lsp:log" (dispose (fst s1) (snd s2)) = [5] /\
  dispose (fst s1) (dispose (fst s1) (snd s2)) = dispose (fst s1) (snd s2).
Proof.
  intros r s1 s2. split.
  - destruct (lsp_disposers_idempotent_and_independent r
                PreloadFacts.empty_distinct_closures) as (_ & _ & H).
    destruct (H onLog 5) as (_ & _ & A). exact A.
  - destruct (lsp_disposers_idempotent_and_independent (snd s2)) as (A & _).
    + now repeat apply PreloadFacts.subscribe_distinct_closures;
        apply PreloadFacts.empty_distinct_closures.
    + apply A.
Defined.

Lemma receivers_removeAll channel ch r :
  receivers ch (removeAllListeners channel r) =
  if String.eqb ch channel then [] else receivers ch r.
Proof.
  unfold receivers, removeAllListeners. cbn [listeners].
  destruct (String.eqb_spec ch channel) as [->|Hne].
  - induction (listeners r) as [|e l IH]; [reflexivity|]. simpl.
    destruct (String.eqb (fst e) channel) eqn:E; simpl; [exact IH|].
    rewrite E. exact IH.
  - f_equal. induction (listeners r) as [|e l IH]; [reflexivity|]. simpl.
    destruct (String.eqb (fst e) channel) eqn:E; simpl.
    + apply String.eqb_eq in E.
      replace (String.eqb (fst e) ch) with false
        by (symmetry; apply String.eqb_neq; congruence).
      exact IH.
    + destruct (String.eqb (fst e) ch); [now f_equal | exact IH].
Qed.

(** X16. [removeListeners] of [window.qalam.lsp] removes every listener of
    the four channels [lsp:diagnostics], [lsp:log], [lsp:error] and
    [lsp:close] and no other: afterwards no callback receives the events of
    a subscription member, what is registered on any other channel (such as
    [lsp:showMessage]) is as before, and the disposers handed out earlier
    have nothing left to remove. *)
Theorem removeListeners_clears_lsp_channels :
  forall r : IpcRenderer,
    (forall m : Member, receivers (member_channel m) (removeListeners r) = []) /\
    (forall ch : string,
        forallb (fun m => negb (String.eqb ch (member_channel m))) members = true ->
        receivers ch (removeListeners r) = receivers ch r) /\
    (distinct_closures r ->
     forall (m : Member) (l : Listener),
       dispose (member_channel m, l) (removeListeners r) = removeListeners r).
Proof.
  intros r.
  assert (Hrec : forall ch, receivers ch (removeListeners r) =
            if String.eqb ch "lsp:close" then []
            else if String.eqb ch "lsp:error" then []
            else if String.eqb ch "lsp:log" then []
            else if String.eqb ch "lsp:diagnostics" then []
            else receivers ch r).
  { intros ch. unfold removeListeners. rewrite !receivers_removeAll. reflexivity. }
  split; [|split].
  - intros m. rewrite Hrec. now destruct m.
  - intros ch Hch. rewrite Hrec. cbn in Hch.
    repeat (apply andb_true_iff in Hch as [? Hch]).
    repeat match goal with
           | H : negb (String.eqb ch _) = true |- _ =>
               apply negb_true_iff in H; rewrite H
           end.
    reflexivity.
  - intros Hwf m l. apply renderer_eq; [|reflexivity].
    rewrite PreloadFacts.dispose_filter
      by now apply PreloadFacts.removeListeners_distinct_closures.
    apply forallb_filter_id. apply forallb_forall. intros e He.
    cbn [fst snd]. unfold registered_as.
    replace (String.eqb (fst e) (member_channel m)) with false; [reflexivity|].
    symmetry. apply String.eqb_neq. intros Heq.
    unfold removeListeners, removeAllListeners in He. cbn [listeners] in He.
    repeat (apply filter_In in He as [He ?]).
    rewrite Heq in *. destruct m; discriminate.
Qed.

Lemma removeListeners_clears_lsp_channels_witness :
  let r := snd (subscribe onClose 3 (snd (subscribe onLog 5
                 {| listeners := [("compiler:stdout", {| closure := 9; callback := 7 |})];
                    allocated := 10 |}))) in
  receivers "compiler:stdout" (removeListeners r) = [7] /\
  dispose ("lsp:log", {| closure := 10; callback := 5 |}) (removeListeners r)
    = removeListeners r.
Proof.
  intros r. destruct (removeListeners_clears_lsp_channels r) as (_ & A & B). split.
  - apply (A "compiler:stdout"). reflexivity.
  - apply (B ltac:(unfold r; repeat apply PreloadFacts.subscribe_distinct_closures;
                   split; repeat constructor; simpl; intuition lia) onLog).
Defined.

(** *** The menu members *)

Section RemoveFirst.

Context {A : Type} (p : A -> bool).

Lemma remove_first_others (l : list A) :
  filter (fun x => negb (p x)) (remove_first p l) = filter (fun x => negb (p x)) l.
Proof.
  induction l as [|x r IH]; [reflexivity|]. simpl.
  destruct (p x) eqn:E; simpl; rewrite ?E; simpl; [reflexivity | now rewrite IH].
Qed.

Lemma remove_first_count (l : list A) :
  List.length (filter p (remove_first p l)) = pred (List.length (filter p l)).
Proof.
  induction l as [|x r IH]; [reflexivity|]. simpl.
  destruct (p x) eqn:E; simpl; rewrite ?E; simpl; [reflexivity | exact IH].
Qed.

End RemoveFirst.

Lemma menu_dispose_registrations ch f (r : PreloadMenu.Emitter) :
  PreloadMenu.registrations ch f (PreloadMenu.removeListener ch f r) =
    pred (PreloadMenu.registrations ch f r) /\
  PreloadMenu.others ch f (PreloadMenu.removeListener ch f r) = PreloadMenu.others ch f r.
Proof.
  unfold PreloadMenu.registrations, PreloadMenu.others, PreloadMenu.removeListener. split.
  - now rewrite filter_rev, length_rev, remove_first_count, filter_rev, length_rev.
  - now rewrite filter_rev, remove_first_others, filter_rev, rev_involutive.
Qed.

Lemma menu_dispose_last ch f (r : PreloadMenu.Emitter) :
  PreloadMenu.removeListener ch f (r ++ [(ch, f)])%list = r.
Proof.
  unfold PreloadMenu.removeListener. rewrite rev_app_distr. cbn [rev app remove_first].
  unfold PreloadMenu.is_entry at 1. cbn [fst snd].
  rewrite String.eqb_refl, Nat.eqb_refl. cbn [andb]. apply rev_involutive.
Qed.

(** X17. A member of [window.qalam.menu] registers the callback itself and
    returns a disposer that removes one registration of that callback on the
    channel, the most recent one, and touches nothing else: right after the
    subscription it restores the listeners, and whenever it is invoked the
    number of registrations of the callback goes down by one (if there is
    one) while all other registrations stay as they are. A disposer does not
    know its own registration: when the same callback is subscribed twice,
    invoking one of the two disposers twice removes both registrations. *)
Theorem menu_disposer_removes_latest_registration :
  forall (m : PreloadMenu.Member) (cb : nat) (r : PreloadMenu.Emitter),
    let ch := PreloadMenu.member_channel m in
    let d := fst (PreloadMenu.subscribe m cb r) in
    let r1 := snd (PreloadMenu.subscribe m cb r) in
    PreloadMenu.registrations ch cb r1 = S (PreloadMenu.registrations ch cb r) /\
    PreloadMenu.dispose d r1 = r /\
    (forall r2 : PreloadMenu.Emitter,
        PreloadMenu.registrations ch cb (PreloadMenu.dispose d r2) =
          pred (PreloadMenu.registrations ch cb r2) /\
        PreloadMenu.others ch cb (PreloadMenu.dispose d r2) = PreloadMenu.others ch cb r2) /\
    fst (PreloadMenu.subscribe m cb r1) = d /\
    PreloadMenu.dispose d (PreloadMenu.dispose d (snd (PreloadMenu.subscribe m cb r1))) = r.
Proof.
  intros m cb r ch d r1. split; [|split; [|split; [|split]]].
  - unfold r1, PreloadMenu.subscribe, PreloadMenu.ipc_on, PreloadMenu.registrations.
    cbn [snd]. rewrite filter_app, length_app. cbn [filter].
    unfold PreloadMenu.is_entry at 2. cbn [fst snd]. fold ch.
    rewrite String.eqb_refl, Nat.eqb_refl. cbn. lia.
  - apply menu_dispose_last.
  - intros r2. apply menu_dispose_registrations.
  - reflexivity.
  - unfold d, r1, PreloadMenu.dispose, PreloadMenu.subscribe, PreloadMenu.ipc_on.
    cbn [fst snd]. now rewrite !menu_dispose_last.
Qed.

End PreloadMoreFacts.
(** ** The file explorer store *)

Module FileExplorerFacts.
Import FileExplorer.

(** *** The set of expanded paths *)

Lemma set_has_In x s : set_has x s = true <-> In x s.
Proof.
  unfold set_has. rewrite existsb_exists. split.
  - intros (y & Hy & E). apply String.eqb_eq in E. now subst.
  - intros H. exists x. split; [exact H | apply String.eqb_refl].
Qed.

Lemma set_has_add x y s :
  set_has y (set_add x s) = String.eqb y x || set_has y s.
Proof.
  unfold set_add. destruct (set_has x s) eqn:E.
  - destruct (String.eqb_spec y x) as [->|_]; [now rewrite E | reflexivity].
  - unfold set_has. rewrite existsb_app. simpl. now rewrite orb_false_r, orb_comm.
Qed.

Lemma set_has_delete x y s :
  set_has y (set_delete x s) = negb (String.eqb y x) && set_has y s.
Proof.
  unfold set_has, set_delete. induction s as [|z r IH]; simpl.
  - now rewrite andb_false_r.
  - destruct (String.eqb_spec z x) as [->|Hzx]; simpl.
    + rewrite IH. destruct (String.eqb_spec y x); simpl; reflexivity.
    + rewrite IH. destruct (String.eqb_spec y z) as [->|Hyz]; simpl.
      * destruct (String.eqb_spec z x); [contradiction | reflexivity].
      * reflexivity.
Qed.

Lemma set_add_NoDup x s : NoDup s -> NoDup (set_add x s).
Proof.
  intros H. unfold set_add. destruct (set_has x s) eqn:E; [exact H|].
  apply NoDup_app; [exact H | repeat constructor; auto |].
  intros a Ha [<-|[]]. apply set_has_In in Ha. congruence.
Qed.

Lemma set_delete_NoDup x s : NoDup s -> NoDup (set_delete x s).
Proof. intros H. now apply NoDup_filter. Qed.

Lemma set_delete_absent x s : set_has x s = false -> set_delete x s = s.
Proof.
  intros H. unfold set_delete. apply forallb_filter_id. apply forallb_forall.
  intros y Hy. apply negb_true_iff, String.eqb_neq. intros ->.
  apply set_has_In in Hy. congruence.
Qed.

Lemma set_delete_add_fresh x s : set_has x s = false -> set_delete x (s ++ [x])%list = s.
Proof.
  intros H. unfold set_delete. rewrite filter_app. simpl.
  rewrite String.eqb_refl. simpl. rewrite app_nil_r. now apply set_delete_absent.
Qed.

Lemma perform_NoDup a s : NoDup (expandedPaths s) -> NoDup (expandedPaths (perform a s)).
Proof.
  intros H. destruct a; simpl; try exact H; try constructor.
  - destruct (set_has path0 (expandedPaths s));
      [now apply set_delete_NoDup | now apply set_add_NoDup].
  - destruct expanded; [now apply set_add_NoDup | now apply set_delete_NoDup].
Qed.

Lemma perform_all_NoDup acts : forall s,
  NoDup (expandedPaths s) -> NoDup (expandedPaths (perform_all acts s)).
Proof.
  induction acts as [|a r IH]; intros s H; [exact H|].
  simpl. now apply IH, perform_NoDup.
Qed.

(** X18. [toggleExpanded] flips whether its path is expanded and leaves
    every other path, the tree and the root as they are; toggling a path
    that was collapsed and toggling it again gives back the state, and in
    general two toggles of a path restore which paths are expanded. *)
Theorem toggleExpanded_flips_one_path :
  forall (s : FileExplorerState) (p : string),
    (forall q, set_has q (expandedPaths (toggleExpanded p s)) =
               if String.eqb q p then negb (set_has p (expandedPaths s))
               else set_has q (expandedPaths s)) /\
    tree (toggleExpanded p s) = tree s /\
    rootPath (toggleExpanded p s) = rootPath s /\
    (forall q, set_has q (expandedPaths (toggleExpanded p (toggleExpanded p s))) =
               set_has q (expandedPaths s)) /\
    (set_has p (expandedPaths s) = false ->
       toggleExpanded p (toggleExpanded p s) = s).
Proof.
  intros s p.
  assert (Hflip : forall s' q, set_has q (expandedPaths (toggleExpanded p s')) =
               if String.eqb q p then negb (set_has p (expandedPaths s'))
               else set_has q (expandedPaths s')).
  { intros s' q. unfold toggleExpanded. cbn [with_expanded expandedPaths].
    destruct (set_has p (expandedPaths s')) eqn:E.
    - rewrite set_has_delete. destruct (String.eqb_spec q p) as [->|_]; reflexivity.
    - rewrite set_has_add. destruct (String.eqb_spec q p) as [->|_]; reflexivity. }
  split; [apply Hflip|]. split; [reflexivity|]. split; [reflexivity|]. split.
  - intros q. rewrite (Hflip (toggleExpanded p s) q), (Hflip s q), (Hflip s p).
    rewrite String.eqb_refl.
    destruct (String.eqb_spec q p) as [->|_]; [apply negb_involutive | reflexivity].
  - intros Hno. unfold toggleExpanded at 2. rewrite Hno.
    unfold toggleExpanded. cbn [with_expanded expandedPaths rootPath rootName tree isLoading].
    rewrite set_has_add, String.eqb_refl. cbn [orb].
    unfold set_add. rewrite Hno, (set_delete_add_fresh p _ Hno). now destruct s.
Qed.

Lemma toggleExpanded_flips_one_path_witness :
  toggleExpanded "/proj/src" (toggleExpanded "/proj/src" (setRoot "/proj" "proj" initial))
  = setRoot "/proj" "proj" initial.
Proof.
  destruct (toggleExpanded_flips_one_path (setRoot "/proj" "proj" initial) "/proj/src")
    as (_ & _ & _ & _ & H).
  apply H. reflexivity.
Defined.

(** X19. [setExpanded] makes its path expanded or collapsed as asked,
    whatever it was, and leaves every other path as it is; doing it twice is
    doing it once. *)
Theorem setExpanded_sets_one_path :
  forall (s : FileExplorerState) (p : string) (b : bool),
    (forall q, set_has q (expandedPaths (setExpanded p b s)) =
               if String.eqb q p then b else set_has q (expandedPaths s)) /\
    setExpanded p b (setExpanded p b s) = setExpanded p b s.
Proof.
  intros s p b.
  assert (Hset : forall q, set_has q (expandedPaths (setExpanded p b s)) =
               if String.eqb q p then b else set_has q (expandedPaths s)).
  { intros q. unfold setExpanded. cbn [with_expanded expandedPaths]. destruct b.
    - rewrite set_has_add. now destruct (String.eqb q p).
    - rewrite set_has_delete. now destruct (String.eqb q p). }
  split; [exact Hset|].
  assert (Hagain : forall e,
             (if b then set_add p (if b then set_add p e else set_delete p e)
              else set_delete p (if b then set_add p e else set_delete p e)) =
             (if b then set_add p e else set_delete p e)).
  { intros e. destruct b.
    - unfold set_add at 1. now rewrite set_has_add, String.eqb_refl.
    - apply set_delete_absent. now rewrite set_has_delete, String.eqb_refl. }
  unfold setExpanded. cbn [with_expanded expandedPaths rootPath rootName tree isLoading].
  now rewrite Hagain.
Qed.

(** *** Persistence *)

Lemma set_from_acc l : forall acc,
  NoDup (acc ++ l)%list ->
  fold_left (fun s x => set_add x s) l acc = (acc ++ l)%list.
Proof.
  induction l as [|x r IH]; intros acc H; simpl; [now rewrite app_nil_r|].
  assert (Hx : set_has x acc = false).
  { destruct (set_has x acc) eqn:E; [|reflexivity]. apply set_has_In in E.
    apply NoDup_remove_2 in H. exfalso. apply H. apply in_or_app. now left. }
  unfold set_add at 2. rewrite Hx.
  rewrite IH; rewrite <- app_assoc; [reflexivity | exact H].
Qed.

Lemma set_from_NoDup l : NoDup l -> set_from l = l.
Proof. intros H. unfold set_from. now rewrite set_from_acc. Qed.

(** X20. What [persist] stores and [merge] reads back: for every state
    reached by the actions of the store, merging its stored part into a
    current state restores the root path, the root name and the set of
    expanded paths, in the same order, and takes the tree and the loading
    flag from the current state, so the tree itself is not restored. With
    nothing stored, the current state is kept and its set of expanded
    paths is emptied. *)
Theorem persisted_state_round_trip :
  forall (acts : list Action) (current : FileExplorerState),
    let s := perform_all acts initial in
    merge (Some (partialize s)) current =
      {| rootPath := rootPath s; rootName := rootName s; tree := tree current;
         expandedPaths := expandedPaths s; isLoading := isLoading current |} /\
    merge None current = with_expanded [] current.
Proof.
  intros acts current s. split; [|reflexivity].
  unfold merge, partialize. cbn. f_equal. apply set_from_NoDup.
  apply perform_all_NoDup. constructor.
Qed.

(** *** The tree *)

Lemma updateNode_absent p ch : forall n,
  has_path p n = false -> updateNode p ch n = n.
Proof.
  fix IH 1. intros [name pa ty c e] H. simpl in *.
  apply orb_false_iff in H as [Hp Hc]. rewrite Hp.
  destruct c as [l|]; [|reflexivity]. do 2 f_equal.
  induction l as [|x r IHl]; [reflexivity|]. simpl in *.
  apply orb_false_iff in Hc as [Hx Hr]. now rewrite (IH x Hx), (IHl Hr).
Qed.

Lemma updateNode_path p ch n : path (updateNode p ch n) = path n.
Proof.
  destruct n as [name pa ty c e]. simpl.
  destruct (String.eqb pa p); [reflexivity|]. now destruct c.
Qed.

(** X21. [updateChildren] gives the node with the given path the given
    children and changes nothing else of it; it keeps the nodes of the tree,
    in their order and with their paths; and when no node of the tree has
    the path, at any depth, it leaves the tree as it is. *)
Theorem updateChildren_replaces_children_of_path :
  forall (s : FileExplorerState) (p : string) (ch : list FileNode),
    map path (tree (updateChildren p ch s)) = map path (tree s) /\
    (forall name ty c e,
        In (Node name p ty c e) (tree s) ->
        In (Node name p ty (Some ch) e) (tree (updateChildren p ch s))) /\
    (existsb (has_path p) (tree s) = false -> updateChildren p ch s = s) /\
    expandedPaths (updateChildren p ch s) = expandedPaths s.
Proof.
  intros s p ch. split; [|split; [|split; [|reflexivity]]].
  - unfold updateChildren, setTree. cbn [tree]. rewrite map_map.
    apply map_ext. intros n. apply updateNode_path.
  - intros name ty c e Hin. unfold updateChildren, setTree. cbn [tree].
    apply in_map_iff. exists (Node name p ty c e). split; [|exact Hin].
    simpl. now rewrite String.eqb_refl.
  - intros Habs. unfold updateChildren, setTree.
    replace (map (updateNode p ch) (tree s)) with (tree s); [now destruct s|].
    symmetry. rewrite <- (map_id (tree s)) at 2. apply map_ext_in. intros n Hn.
    apply updateNode_absent.
    destruct (has_path p n) eqn:E; [|reflexivity].
    assert (existsb (has_path p) (tree s) = true)
      by (apply existsb_exists; now exists n).
    congruence.
Qed.

Lemma updateChildren_replaces_children_of_path_witness :
  updateChildren "/proj/lib" []
    (setTree [Node "src" "/proj/src" Directory None None] initial)
  = setTree [Node "src" "/proj/src" Directory None None] initial.
Proof.
  destruct (updateChildren_replaces_children_of_path
              (setTree [Node "src" "/proj/src" Directory None None] initial)
              "/proj/lib" []) as (_ & _ & H & _).
  apply H. reflexivity.
Defined.

End FileExplorerFacts.
(** ** The forwarders registered by [lsp:start] *)

Module MainForwardersFacts.
Import Lsp Main MainForwarders.

Section ForwarderFacts.
Context {texts : ErrorTexts}.

Lemma on_subscribers k h w c :
  client w = Some c ->
  exists c', client (on k h w) = Some c' /\
             subscribers c' = (subscribers c ++ [(k, h)])%list /\
             process c' = process c /\ state c' = state c.
Proof. intros Hc. unfold on. rewrite Hc. simpl. eauto. Qed.

Lemma register_subscribers sender ks : forall w c,
  client w = Some c ->
  exists c', client (fold_left (fun w k => on k sender w) ks w) = Some c' /\
             subscribers c' = (subscribers c ++ map (fun k => (k, sender)) ks)%list /\
             process c' = process c /\ state c' = state c.
Proof.
  induction ks as [|k r IH]; intros w c Hc; simpl.
  - exists c. now rewrite app_nil_r.
  - destruct (on_subscribers k sender w c Hc) as (c1 & Hc1 & Hs1 & Hp1 & Hst1).
    destruct (IH _ c1 Hc1) as (c2 & Hc2 & Hs2 & Hp2 & Hst2).
    exists c2. rewrite Hs2, Hs1, Hp2, Hp1, Hst2, Hst1, <- app_assoc. auto.
Qed.

Lemma registered_subscribers sender w :
  exists c', client (register_forwarding sender (snd (getLSPClient w))) = Some c' /\
             subscribers c' = (subscribers_of w ++ forwarders sender)%list /\
             process c' = process (fst (getLSPClient w)) /\
             state c' = observed_state w.
Proof.
  destruct (register_subscribers sender forwarded (snd (getLSPClient w))
              (fst (getLSPClient w)) (MainFacts.getLSPClient_client w))
    as (c' & Hc & Hs & Hp & Hst).
  exists c'. split; [exact Hc|]. split; [|split; [exact Hp | exact Hst]].
  rewrite Hs. unfold subscribers_of, getLSPClient, forwarders.
  now destruct (client w).
Qed.

Lemma dispatch_one_more (c c' : Client) (sender : nat) (ev : ClientEvent) :
  subscribers c' = (subscribers c ++ forwarders sender)%list ->
  dispatch c' ev = (dispatch c ev ++ [Dispatched sender ev])%list.
Proof.
  intros Hs. unfold dispatch. rewrite Hs, filter_app, map_app. f_equal.
  unfold forwarders, forwarded. now destruct ev.
Qed.

(** X22. Every call of [lsp:start] registers five forwarders on the client,
    one for each kind of event, also when the call then fails: the
    subscribers of the client after the call are those before it followed by
    the five of the call. So after a
    call of [lsp:start] on a running session, which fails with the
    already-running error, every message the server pushes is sent to the
    renderer once more than before. *)
Theorem lsp_start_accumulates_forwarders :
  (forall (w : World) (sender : nat) (path : string) (spawn : SpawnOutcome),
      subscribers_of (snd (handle (IpcStart sender path spawn) w)) =
      (subscribers_of w ++ forwarders sender)%list) /\
  (forall (w : World) (sender : nat) (path : string) (spawn : SpawnOutcome)
          (i : Inbound),
      well_formed w -> observed_state w = Running ->
      fst (handle (ServerPush i) (snd (handle (IpcStart sender path spawn) w))) =
      (fst (handle (ServerPush i) w) ++
       [Sent sender (channel (kind_of (event_of i))) (forwarded_payload (event_of i))])%list).
Proof.
  split.
  - intros w sender path spawn. simpl. unfold lsp_start, start.
    destruct (registered_subscribers sender w) as (c' & Hc & Hs & _).
    rewrite Hc.
    destruct (state c'); destruct spawn; cbn [snd fst];
      unfold subscribers_of; cbn [client put ended subscribers]; try exact Hs;
      rewrite Hc; exact Hs.
  - intros w sender path spawn i Hwf Hrun.
    destruct (MainFacts.observed_client w Running Hrun) as (c & Hc & Hst & Hget);
      [discriminate|].
    rewrite MainFacts.lsp_start_busy by now rewrite Hrun. cbn [snd].
    destruct (registered_subscribers sender w) as (c' & Hc' & Hs & Hp & _).
    rewrite Hget in Hp. cbn [fst] in Hp.
    assert (Hsub : subscribers_of w = subscribers c)
      by (unfold subscribers_of; now rewrite Hc).
    rewrite Hsub in Hs.
    assert (Hproc : exists pid, process c = Some pid).
    { unfold well_formed in Hwf. rewrite Hc in Hwf.
      destruct Hwf as (_ & _ & _ & Hrunning & _).
      destruct (Hrunning Hst) as [Hne _].
      destruct (process c) as [pid|]; [now exists pid | now contradiction Hne]. }
    destruct Hproc as [pid Hpid].
    simpl. unfold lift, emit. rewrite Hc', Hc, Hp, Hpid. cbn [fst].
    rewrite (dispatch_one_more c c' sender (event_of i) Hs).
    now rewrite map_app.
Qed.

End ForwarderFacts.

#[local] Existing Instance sample_texts.

Lemma lsp_start_accumulates_forwarders_witness :
  fst (handle (ServerPush (InLog (JString "ready")))
              (snd (handle (IpcStart 7 "/proj" SpawnOk) sample_running))) =
  [Sent 7 "lsp:log" (JString "ready"); Sent 7 "lsp:log" (JString "ready")].
Proof.
  destruct (lsp_start_accumulates_forwarders (texts := sample_texts)) as [_ H].
  apply (H sample_running 7 "/proj" SpawnOk (InLog (JString "ready"))).
  - apply MainFacts.run_ok, MainFacts.well_formed_initial.
  - reflexivity.
Defined.

End MainForwardersFacts.
